(** * calcifer: the MQTT test harness (src/utils/mqtt_test.py)

    A shallow embedding of the actuator-state engine of [mqtt_test.py]:
    the topic router ([get_topic_prefix] and the f-string topics), the
    shared store [actuator_values], the schedule built by
    [auto_publisher], its scheduling pass, the operator command loop of
    [main] and the [on_connect] callback.

    Conventions of the embedding.
    - A Python [str] is the [string] of its UTF-8 bytes.  [lower], [strip],
      [split] and [int] are written out for ASCII strings
      ([PyStr.is_ascii]), where they are what Python computes; every
      statement that depends on case, whitespace or digits assumes that
      its mode or its input line is ASCII.  The lines printed keep the
      bytes of the source.
    - A Python number is a [PyNum]: an unbounded [int] or a binary64
      [float] (Stdlib's [spec_float] with [prec = 53], [emax = 1024]).
    - The dict [actuator_values] is a [gmap string string].
    - Pure code that raises returns in the [exn + _] error type.
    - Code that touches the store, the MQTT client or the console is a
      [prog]: a tree of atomic actions.  [run] executes a [prog] alone;
      [step] interleaves the publisher thread and the main thread at these
      actions, the scheduler, the clock and the operator being the labels.
    - The MQTT client is outside the repository: a publish or subscribe
      call returns a result code or raises, as the parameters [pub_reply]
      and [sub_reply] say for the k-th call.
    - Of the menu that [main] prints, the lines of the actuators are
      modelled; its header and help lines, [on_message], the handler of
      [KeyboardInterrupt] and the calls [client.loop_stop()] and
      [client.disconnect()], which act on the client's own thread and
      connection, are not. *)

From Stdlib Require Import ZArith Ascii String DecimalString DecimalPos
  Floats.SpecFloat.
From stdpp Require Import base option list strings gmap.

Local Open Scope string_scope.
Local Open Scope Z_scope.

(** ** Python strings *)

Module PyStr.

Definition is_upper (c : ascii) : bool :=
  let n := nat_of_ascii c in (65 <=? n)%nat && (n <=? 90)%nat.

Definition lower_char (c : ascii) : ascii :=
  if is_upper c then ascii_of_nat (nat_of_ascii c + 32) else c.

(** [str.isascii()]: every byte is below 128. *)
Fixpoint is_ascii (s : string) : bool :=
  match s with
  | EmptyString => true
  | String c s' => (nat_of_ascii c <? 128)%nat && is_ascii s'
  end.

(** An ASCII string has an upper-case letter. *)
Fixpoint has_upper (s : string) : bool :=
  match s with
  | EmptyString => false
  | String c s' => is_upper c || has_upper s'
  end.

(** [str.lower()] of an ASCII string. *)
Fixpoint lower (s : string) : string :=
  match s with
  | EmptyString => EmptyString
  | String c s' => String (lower_char c) (lower s')
  end.

(** [str.isspace()] on one character of an ASCII string: TAB, LF, VT,
    FF, CR, the four separators FS, GS, RS, US and the space. *)
Definition is_space (c : ascii) : bool :=
  let n := nat_of_ascii c in
  ((9 <=? n)%nat && (n <=? 13)%nat) || ((28 <=? n)%nat && (n <=? 32)%nat).

Fixpoint lstrip (s : string) : string :=
  match s with
  | String c s' => if is_space c then lstrip s' else s
  | EmptyString => EmptyString
  end.

Fixpoint rstrip (s : string) : string :=
  match s with
  | EmptyString => EmptyString
  | String c s' =>
      match rstrip s' with
      | EmptyString => if is_space c then EmptyString else String c EmptyString
      | r => String c r
      end
  end.

(** [str.strip()] of an ASCII string. *)
Definition strip (s : string) : string := rstrip (lstrip s).

(** [str.split()] without argument, of an ASCII string: the maximal
    runs of non-space characters, in order.  [cur] is the run being read,
    reversed. *)
Fixpoint split_aux (s : string) (cur : list ascii) : list string :=
  let flush (k : list string) :=
    match cur with
    | [] => k
    | _ => string_of_list_ascii (rev cur) :: k
    end in
  match s with
  | EmptyString => flush []
  | String c s' =>
      if is_space c then flush (split_aux s' []) else split_aux s' (c :: cur)
  end.

Definition split (s : string) : list string := split_aux s [].

(** [str(n)] for an [int]. *)
Definition of_int (z : Z) : string := NilZero.string_of_int (Z.to_int z).

End PyStr.

(** ** Topic Router *)

(** The dict literal [mode_map] of [get_topic_prefix], in source order. *)
Definition mode_table : list (string * string) :=
  [ ("DS18B20", "ds18b20");
    ("THERMOCOUPLE", "thermocouple");
    ("FAN", "fan");
    ("OUTPUT_DIGITAL", "digital_output");
    ("PWM", "pwm");
    ("INPUT_DIGITAL", "digital_input");
    ("INPUT_ANALOG", "analog_input");
    ("OUTPUT_ANALOG", "analog_output");
    ("DHT22_SENSOR", "dht22");
    ("YL_69_SENSOR", "yl69") ].

Definition mode_map : gmap string string := list_to_map mode_table.

(** [mode_map.get(mode, mode.lower())] *)
Definition get_topic_prefix (mode : string) : string :=
  default (PyStr.lower mode) (mode_map !! mode).

(** The f-string [f"/{client_id}/{prefix}/{name}/<suffix>"]; the source
    writes it with the suffixes [value], [state] and [set]. *)
Definition topic_of (client_id prefix name suffix : string) : string :=
  "/" +:+ client_id +:+ "/" +:+ prefix +:+ "/" +:+ name +:+ "/" +:+ suffix.

(** ** Shared Actuator Store *)

(** [actuator_values.get(topic, "0")], under [actuator_lock]. *)
Definition store_get (m : gmap string string) (topic : string) : string :=
  default "0" (m !! topic).

(** [actuator_values[topic] = value], under [actuator_lock]. *)
Definition store_set (m : gmap string string) (topic value : string)
  : gmap string string :=
  <[topic := value]> m.

(** A history of writes applied to the store, oldest first. *)
Definition apply_writes (ws : list (string * string)) (m : gmap string string)
  : gmap string string :=
  foldl (fun acc w => store_set acc w.1 w.2) m ws.

(** ** Python numbers *)

Inductive exn : Set :=
  | OverflowError       (* int too large to convert to float *)
  | ValueError
  | OtherError.         (* any other subclass of Exception *)

(** The error monad of code that may raise. *)
#[global] Instance exn_ret : MRet (sum exn) := fun A x => inr x.
#[global] Instance exn_bind : MBind (sum exn) :=
  fun A B f m => match m with inl e => inl e | inr x => f x end.

(** Binary64. *)
Definition prec : Z := 53.
Definition emax : Z := 1024.

Inductive PyNum : Set :=
  | PyInt (z : Z)
  | PyFloat (f : spec_float).

#[global] Instance exn_eq_dec : EqDecision exn.
Proof. solve_decision. Defined.
#[global] Instance spec_float_eq_dec : EqDecision spec_float.
Proof. solve_decision. Defined.
#[global] Instance PyNum_eq_dec : EqDecision PyNum.
Proof. solve_decision. Defined.

Module PyFloat.

(** Round-to-nearest-even conversion of an integer. *)
Definition of_Z (z : Z) : spec_float := binary_normalize prec emax z 0 false.

Definition is_infinity (f : spec_float) : bool :=
  match f with S754_infinity _ => true | _ => false end.

(** The int-to-float coercion of a mixed operation: it raises
    [OverflowError] where the rounded value is out of range. *)
Definition of_int (z : Z) : exn + spec_float :=
  let f := of_Z z in
  if is_infinity f then inl OverflowError else inr f.

Definition div : spec_float -> spec_float -> spec_float := SFdiv prec emax.
Definition sub : spec_float -> spec_float -> spec_float := SFsub prec emax.

(** Exact comparison of a float with an int, as [float_richcompare]
    decides it; [None] for a NaN. *)
Definition compare_int (f : spec_float) (z : Z) : option comparison :=
  match f with
  | S754_nan => None
  | S754_infinity s => Some (if s then Lt else Gt)
  | S754_zero _ => Some (0 ?= z)
  | S754_finite s m e =>
      let v := cond_Zopp s (Zpos m) in
      Some (if 0 <=? e then (v * 2 ^ e ?= z) else (v ?= z * 2 ^ (- e)))
  end.

Definition c1000 : spec_float := Eval vm_compute in of_Z 1000.
Definition c1 : spec_float := Eval vm_compute in of_Z 1.
Definition c29 : spec_float := Eval vm_compute in of_Z 29.

End PyFloat.

(** [a > b] on numbers. *)
Definition py_gt (a b : PyNum) : bool :=
  match a, b with
  | PyInt x, PyInt y => y <? x
  | PyFloat x, PyFloat y => SFltb y x
  | PyFloat x, PyInt y =>
      match PyFloat.compare_int x y with Some Gt => true | _ => false end
  | PyInt x, PyFloat y =>
      match PyFloat.compare_int y x with Some Lt => true | _ => false end
  end.

(** [a >= b] on numbers. *)
Definition py_ge (a b : PyNum) : bool :=
  match a, b with
  | PyInt x, PyInt y => y <=? x
  | PyFloat x, PyFloat y => SFleb y x
  | PyFloat x, PyInt y =>
      match PyFloat.compare_int x y with Some (Gt | Eq) => true | _ => false end
  | PyInt x, PyFloat y =>
      match PyFloat.compare_int y x with Some (Lt | Eq) => true | _ => false end
  end.

(** [a == b] on numbers. *)
Definition py_eq (a b : PyNum) : bool :=
  match a, b with
  | PyInt x, PyInt y => x =? y
  | PyFloat x, PyFloat y => SFeqb x y
  | PyFloat x, PyInt y | PyInt y, PyFloat x =>
      match PyFloat.compare_int x y with Some Eq => true | _ => false end
  end.

(** [max(a, b)]: the first argument unless the second is greater. *)
Definition py_max (a b : PyNum) : PyNum := if py_gt b a then b else a.

(** [float - number] *)
Definition float_minus (x : spec_float) (y : PyNum) : exn + spec_float :=
  match y with
  | PyFloat f => inr (PyFloat.sub x f)
  | PyInt z => f ← PyFloat.of_int z; inr (PyFloat.sub x f)
  end.

(** [max(1, (interval_ms / 1000.0) - 1.0)] for an [int] [interval_ms]. *)
Definition interval_sec_of (interval_ms : Z) : exn + PyNum :=
  x ← PyFloat.of_int interval_ms;
  inr (py_max (PyInt 1) (PyFloat (PyFloat.sub (PyFloat.div x PyFloat.c1000) PyFloat.c1))).

(** ** Topology input *)

(** The JSON values a [defaultState] is read as. *)
Inductive json : Set :=
  | JNull
  | JBool (b : bool)
  | JInt (z : Z)
  | JStr (s : string).

(** [str(v)] *)
Definition py_str (v : json) : string :=
  match v with
  | JNull => "None"
  | JBool true => "True"
  | JBool false => "False"
  | JInt z => PyStr.of_int z
  | JStr s => s
  end.

(** One element of [pin_config]; an absent key is [None].
    [pollingInterval] is an integer number of milliseconds. *)
Record pin : Set := {
  mode : string;
  name : string;
  defaultState : option json;
  pollingInterval : option Z
}.

(** An element of [actuators] in [auto_publisher]. *)
Record entry : Set := {
  topic : string;
  interval : PyNum;
  last_sent : PyNum
}.

(** An element of [actuators_manual] in [main]. *)
Record manual : Set := {
  m_name : string;
  m_topic : string;
  m_range : string
}.

(** ** Programs over the shared state

    The atomic actions of the script are the two accesses to
    [actuator_values] made under [actuator_lock], the calls on the MQTT
    client and [print].  A [prog] is the code that remains to run, one
    atomic action at a time; between two actions of one thread the
    other thread may run. *)

(** What a call on the client does: it returns a result code, or raises. *)
Inductive reply : Set :=
  | Returned (rc : Z)
  | Raised (e : exn).

Inductive prog (A : Type) : Type :=
  | Done (a : A)
  | Raise (e : exn)
  | GetValue (t : string) (k : string -> prog A)
  | SetValue (t v : string) (k : prog A)
  | Publish (t v : string) (k : reply -> prog A)
  | Subscribe (t : string) (k : reply -> prog A)
  | Print (line : string) (k : prog A).

Arguments Done {A} a.
Arguments Raise {A} e.
Arguments GetValue {A} t k.
Arguments SetValue {A} t v k.
Arguments Publish {A} t v k.
Arguments Subscribe {A} t k.
Arguments Print {A} line k.

Fixpoint bind {A B : Type} (p : prog A) (f : A -> prog B) : prog B :=
  match p with
  | Done a => f a
  | Raise e => Raise e
  | GetValue t k => GetValue t (fun v => bind (k v) f)
  | SetValue t v k => SetValue t v (bind k f)
  | Publish t v k => Publish t v (fun r => bind (k r) f)
  | Subscribe t k => Subscribe t (fun r => bind (k r) f)
  | Print l k => Print l (bind k f)
  end.

#[global] Instance prog_ret : MRet prog := fun A a => Done a.
#[global] Instance prog_bind : MBind prog := fun A B f p => bind p f.

(** [try: p except <class>: h e], where [h] is [None] on the classes
    the handler does not catch. *)
Fixpoint try_except {A : Type} (p : prog A) (h : exn -> option (prog A)) : prog A :=
  match p with
  | Done a => Done a
  | Raise e => match h e with Some q => q | None => Raise e end
  | GetValue t k => GetValue t (fun v => try_except (k v) h)
  | SetValue t v k => SetValue t v (try_except k h)
  | Publish t v k => Publish t v (fun r => try_except (k r) h)
  | Subscribe t k => Subscribe t (fun r => try_except (k r) h)
  | Print l k => Print l (try_except k h)
  end.

(** A pure computation that may raise. *)
Definition lift {A : Type} (r : exn + A) : prog A :=
  match r with inl e => Raise e | inr a => Done a end.

Definition of_reply (r : reply) : prog Z :=
  match r with Returned rc => Done rc | Raised e => Raise e end.

(** [with actuator_lock: value = actuator_values.get(topic, "0")] *)
Definition get_value (t : string) : prog string := GetValue t Done.
(** [with actuator_lock: actuator_values[topic] = value] *)
Definition set_value (t v : string) : prog unit := SetValue t v (Done tt).
(** [client.publish(topic, value)] *)
Definition publish (t v : string) : prog Z := Publish t v of_reply.
(** [client.subscribe(topic)] *)
Definition subscribe (t : string) : prog Z := Subscribe t of_reply.
Definition print (l : string) : prog unit := Print l (Done tt).

(** [for x in xs: ...] where the body yields the updated element. *)
Fixpoint for_each {A B : Type} (body : A -> prog B) (xs : list A) : prog (list B) :=
  match xs with
  | [] => mret []
  | x :: rest => y ← body x; ys ← for_each body rest; mret (y :: ys)
  end.

(** The state the threads share: the dict, and what the client and the
    console have been asked to do, oldest first. *)
Record world : Type := {
  actuator_values : gmap string string;
  published : list (string * string);
  subscribed : list string;
  console : list string
}.

Definition world0 : world :=
  {| actuator_values := ∅; published := []; subscribed := []; console := [] |}.

(** ** [int(s)] *)

Module PyInt.

Definition digit_of (c : ascii) : option Z :=
  let n := nat_of_ascii c in
  if (48 <=? n)%nat && (n <=? 57)%nat then Some (Z.of_nat (n - 48)) else None.

(** What the scan of the digits has just read. *)
Inductive last := Start | Digit | Underscore.

(** Digits, with single underscores allowed between two digits;
    yields the value and the number of digits. *)
Fixpoint scan (s : string) (prev : last) (acc : Z) (n : nat) : option (Z * nat) :=
  match s with
  | EmptyString => match prev with Digit => Some (acc, n) | _ => None end
  | String c s' =>
      match digit_of c with
      | Some d => scan s' Digit (10 * acc + d) (S n)
      | None =>
          if Ascii.eqb c "_" then
            match prev with Digit => scan s' Underscore acc n | _ => None end
          else None
      end
  end.

(** [sys.int_info.default_max_str_digits] *)
Definition max_str_digits : nat := 4300.

(** [int(s)] for an ASCII string: surrounding whitespace, an optional
    sign, decimal digits; [ValueError] otherwise, also past the digit
    limit. *)
Definition parse (s : string) : exn + Z :=
  let s := PyStr.strip s in
  let '(neg, body) :=
    match s with
    | String "-" r => (true, r)
    | String "+" r => (false, r)
    | _ => (false, s)
    end in
  match scan body Start 0 0 with
  | Some (v, n) =>
      if (max_str_digits <? n)%nat then inl ValueError
      else inr (if neg then - v else v)
  | None => inl ValueError
  end.

End PyInt.

(** ** The code of [mqtt_test.py] *)

(** [mode in ["FAN", "OUTPUT_DIGITAL"]] *)
Definition is_actuator_mode (m : string) : bool :=
  bool_decide (m ∈ ["FAN"; "OUTPUT_DIGITAL"]).

(** [f"/{client_id}/{prefix}/{name}/set"] for a pin. *)
Definition set_topic (client_id : string) (p : pin) : string :=
  topic_of client_id (get_topic_prefix (mode p)) (name p) "set".

(** [auto_publisher], lines 104-127: the loop that seeds the store and
    builds [actuators]. *)
Fixpoint build_actuators (client_id : string) (pin_config : list pin)
    (actuators : list entry) : prog (list entry) :=
  match pin_config with
  | [] => mret actuators
  | p :: rest =>
      if is_actuator_mode (mode p) then
        let topic := set_topic client_id p in
        let default_val := default (JInt 0) (defaultState p) in
        _ ← set_value topic (py_str default_val);
        let interval_ms := default 30000 (pollingInterval p) in
        interval_sec ← lift (interval_sec_of interval_ms);
        build_actuators client_id rest
          (actuators ++ [ {| topic := topic; interval := interval_sec;
                             last_sent := PyInt 0 |} ])
      else build_actuators client_id rest actuators
  end.

(** [auto_publisher] up to its [while] loop. *)
Definition auto_publisher_start (client_id : string) (pin_config : list pin)
  : prog (list entry) :=
  actuators ← build_actuators client_id pin_config [];
  _ ← print ("   🔄 Auto-publisher started for "
             +:+ PyStr.of_int (Z.of_nat (length actuators)) +:+ " actuators");
  mret actuators.

(** [now - act["last_sent"] >= act["interval"]] *)
Definition due (now : spec_float) (act : entry) : exn + bool :=
  elapsed ← float_minus now (last_sent act);
  mret (py_ge (PyFloat elapsed) (interval act)).

(** The body of [for act in actuators], lines 134-140. *)
Definition publish_if_due (now : spec_float) (act : entry) : prog entry :=
  d ← lift (due now act);
  if d : bool then
    value ← get_value (topic act);
    _ ← publish (topic act) value;
    mret {| topic := topic act; interval := interval act; last_sent := PyFloat now |}
  else mret act.

(** One turn of the [while] loop, with [now = time.time()]. *)
Definition scheduling_pass (now : spec_float) (actuators : list entry)
  : prog (list entry) :=
  for_each (publish_if_due now) actuators.

(** [main], lines 190-200: the list [actuators_manual]. *)
Fixpoint build_manual (client_id : string) (pin_config : list pin) : list manual :=
  match pin_config with
  | [] => []
  | p :: rest =>
      let prefix := get_topic_prefix (mode p) in
      if bool_decide (mode p = "FAN") then
        {| m_name := name p; m_topic := topic_of client_id prefix (name p) "set";
           m_range := "0-4" |} :: build_manual client_id rest
      else if bool_decide (mode p = "OUTPUT_DIGITAL") then
        {| m_name := name p; m_topic := topic_of client_id prefix (name p) "set";
           m_range := "0-1" |} :: build_manual client_id rest
      else build_manual client_id rest
  end.

Inductive loop_ctl : Set := Continue | Break.

Definition msg_invalid_index : string := "   ⚠️  Invalid index".
Definition msg_usage : string := "   ⚠️  Usage: <index> <value>".
Definition msg_manual (topic value : string) : string :=
  "   📤 Manual Publish: " +:+ topic +:+ " = " +:+ value +:+ " (will auto-republish)".

(** One turn of the command loop of [main], lines 215-236, on the line
    that [input] returned. *)
Definition handle_command (actuators_manual : list manual) (line : string)
  : prog loop_ctl :=
  let cmd := PyStr.strip line in
  if bool_decide (PyStr.lower cmd = "q") then mret Break
  else
    match PyStr.split cmd with
    | [p0; p1] =>
        try_except
          (idx ← lift (PyInt.parse p0);
           let value := p1 in
           if (0 <=? idx) && (idx <? Z.of_nat (length actuators_manual)) then
             match actuators_manual !! Z.to_nat idx with
             | Some act =>
                 let topic := m_topic act in
                 _ ← set_value topic value;
                 _ ← publish topic value;
                 _ ← print (msg_manual topic value);
                 mret Continue
             | None => Raise OtherError
             end
           else
             _ ← print msg_invalid_index; mret Continue)
          (fun e => match e with
                    | ValueError => Some (_ ← print msg_usage; mret Continue)
                    | _ => None
                    end)
    | _ => mret Continue
    end.

Definition msg_stopping : string := "Stopping...".
Definition msg_disconnected : string := "👋 Disconnected".

Definition msg_connected : string := "✅ Connected to MQTT broker".
Definition msg_subscribed (topic : string) : string := "   📥 Subscribed: " +:+ topic.
Definition msg_failed (rc : Z) : string :=
  "❌ Connection failed with code " +:+ PyStr.of_int rc.

(** The body of [for pin in userdata["pins"]] in [on_connect]. *)
Definition subscribe_pin (client_id : string) (p : pin) : prog unit :=
  let prefix := get_topic_prefix (mode p) in
  if bool_decide (mode p ∈ ["DS18B20"; "THERMOCOUPLE"]) then
    let topic := topic_of client_id prefix (name p) "value" in
    _ ← subscribe topic; print (msg_subscribed topic)
  else if bool_decide (mode p = "FAN") then
    let topic := topic_of client_id prefix (name p) "state" in
    _ ← subscribe topic; print (msg_subscribed topic)
  else if bool_decide (mode p = "OUTPUT_DIGITAL") then
    let topic := topic_of client_id prefix (name p) "state" in
    _ ← subscribe topic; print (msg_subscribed topic)
  else mret tt.

(** [on_connect(client, userdata, flags, rc)] *)
Definition on_connect (client_id : string) (pins : list pin) (rc : Z) : prog unit :=
  if rc =? 0 then
    _ ← print msg_connected;
    _ ← for_each (subscribe_pin client_id) pins;
    mret tt
  else print (msg_failed rc).

(** ** Semantics *)

(** An atomic action, as performed. *)
Inductive event : Set :=
  | EvGet (t v : string)
  | EvSet (t v : string)
  | EvPublish (t v : string)
  | EvSubscribe (t : string)
  | EvPrint (line : string).

Inductive tid : Set := Auto | Main.

(** The publisher thread: inside [auto_publisher] (its start or a turn
    of the loop), at the loop head with its [actuators], or gone. *)
Inductive auto_state : Type :=
  | ARunning (p : prog (list entry))
  | AWaiting (actuators : list entry)
  | AExited
  | ADied (e : exn).

(** The main thread: blocked in [input], inside a turn of the command
    loop, in the code that follows the loop (lines 240-245: about to print
    the stopping line, about to set the stop event, inside
    [pub_thread.join()], about to leave), or gone. *)
Inductive main_state : Type :=
  | MWaiting
  | MRunning (p : prog loop_ctl)
  | MStopping
  | MSetStop
  | MJoining
  | MLeaving
  | MExited
  | MDied (e : exn).

Record system : Type := {
  shared : world;
  auto : auto_state;
  main : main_state;
  stop_event : bool;
  trace : list (tid * event)
}.

(** What the scheduler and the environment decide: which thread runs
    its next atomic action, the clock a new pass reads, the line
    [input] returns. *)
Inductive label : Type :=
  | AutoClock (now : spec_float)
  | AutoStep
  | MainInput (line : string)
  | MainStep.

Definition settle_auto (p : prog (list entry)) : auto_state :=
  match p with
  | Done actuators => AWaiting actuators
  | Raise e => ADied e
  | _ => ARunning p
  end.

Section Semantics.

(** What the client does on its [k]-th publish and subscribe call. *)
Variable pub_reply : nat -> reply.
Variable sub_reply : nat -> reply.

(** The head action of [p] on [w]; [None] when [p] has ended. *)
Definition step1 {A : Type} (p : prog A) (w : world)
  : option (event * prog A * world) :=
  match p with
  | Done _ | Raise _ => None
  | GetValue t k =>
      let v := store_get (actuator_values w) t in
      Some (EvGet t v, k v, w)
  | SetValue t v k =>
      Some (EvSet t v, k,
            {| actuator_values := store_set (actuator_values w) t v;
               published := published w; subscribed := subscribed w;
               console := console w |})
  | Publish t v k =>
      Some (EvPublish t v, k (pub_reply (length (published w))),
            {| actuator_values := actuator_values w;
               published := published w ++ [(t, v)];
               subscribed := subscribed w; console := console w |})
  | Subscribe t k =>
      Some (EvSubscribe t, k (sub_reply (length (subscribed w))),
            {| actuator_values := actuator_values w;
               published := published w;
               subscribed := subscribed w ++ [t]; console := console w |})
  | Print l k =>
      Some (EvPrint l, k,
            {| actuator_values := actuator_values w;
               published := published w; subscribed := subscribed w;
               console := console w ++ [l] |})
  end.

(** One thread running [p] to its end, alone. *)
Fixpoint run {A : Type} (p : prog A) (w : world) : (exn + A) * world :=
  match p with
  | Done a => (inr a, w)
  | Raise e => (inl e, w)
  | GetValue t k => run (k (store_get (actuator_values w) t)) w
  | SetValue t v k =>
      run k {| actuator_values := store_set (actuator_values w) t v;
               published := published w; subscribed := subscribed w;
               console := console w |}
  | Publish t v k =>
      run (k (pub_reply (length (published w))))
          {| actuator_values := actuator_values w;
             published := published w ++ [(t, v)];
             subscribed := subscribed w; console := console w |}
  | Subscribe t k =>
      run (k (sub_reply (length (subscribed w))))
          {| actuator_values := actuator_values w;
             published := published w;
             subscribed := subscribed w ++ [t]; console := console w |}
  | Print l k =>
      run k {| actuator_values := actuator_values w;
               published := published w; subscribed := subscribed w;
               console := console w ++ [l] |}
  end.

(** The two threads, interleaved at the atomic actions. *)
Section Threads.

Variable client_id : string.
Variable pin_config : list pin.

Definition settle_main (p : prog loop_ctl) (s : system) : system :=
  match p with
  | Done Continue =>
      {| shared := shared s; auto := auto s; main := MWaiting;
         stop_event := stop_event s; trace := trace s |}
  | Done Break =>      (* the loop is left; line 240 comes next *)
      {| shared := shared s; auto := auto s; main := MStopping;
         stop_event := stop_event s; trace := trace s |}
  | Raise e =>
      {| shared := shared s; auto := auto s; main := MDied e;
         stop_event := stop_event s; trace := trace s |}
  | _ =>
      {| shared := shared s; auto := auto s; main := MRunning p;
         stop_event := stop_event s; trace := trace s |}
  end.

(** [print(line)] by the main thread, outside the command loop. *)
Definition main_print (line : string) (next : main_state) (s : system) : system :=
  {| shared := {| actuator_values := actuator_values (shared s);
                  published := published (shared s);
                  subscribed := subscribed (shared s);
                  console := console (shared s) ++ [line] |};
     auto := auto s; main := next; stop_event := stop_event s;
     trace := trace s ++ [(Main, EvPrint line)] |}.

(** An uncaught exception in the main thread ends the process,
    and the daemon publisher thread with it.  After the command loop the
    main thread prints, sets the stop event, waits in [join] until the
    publisher thread has ended, and prints again. *)
Definition step (l : label) (s : system) : system :=
  match l, auto s, main s with
  | _, _, MDied _ => s
  | AutoClock now, AWaiting actuators, _ =>
      {| shared := shared s;
         auto := if stop_event s then AExited
                 else settle_auto (scheduling_pass now actuators);
         main := main s; stop_event := stop_event s; trace := trace s |}
  | AutoStep, ARunning p, _ =>
      match step1 p (shared s) with
      | Some (ev, p', w') =>
          {| shared := w'; auto := settle_auto p'; main := main s;
             stop_event := stop_event s; trace := trace s ++ [(Auto, ev)] |}
      | None => s
      end
  | MainInput line, _, MWaiting =>
      settle_main (handle_command (build_manual client_id pin_config) line) s
  | MainStep, _, MRunning p =>
      match step1 p (shared s) with
      | Some (ev, p', w') =>
          settle_main p'
            {| shared := w'; auto := auto s; main := main s;
               stop_event := stop_event s; trace := trace s ++ [(Main, ev)] |}
      | None => s
      end
  | MainStep, _, MStopping => main_print msg_stopping MSetStop s
  | MainStep, _, MSetStop =>
      {| shared := shared s; auto := auto s; main := MJoining;
         stop_event := true; trace := trace s |}
  | MainStep, (AExited | ADied _), MJoining =>
      {| shared := shared s; auto := auto s; main := MLeaving;
         stop_event := stop_event s; trace := trace s |}
  | MainStep, _, MLeaving => main_print msg_disconnected MExited s
  | _, _, _ => s
  end.

Definition exec (ls : list label) (s : system) : system :=
  foldl (fun s l => step l s) s ls.

(** The publisher thread has just been started; the main thread is
    about to read its first command. *)
Definition boot : system :=
  {| shared := world0;
     auto := settle_auto (auto_publisher_start client_id pin_config);
     main := MWaiting; stop_event := false; trace := [] |}.

Definition reachable (s : system) : Prop := exists ls, s = exec ls boot.

End Threads.

End Semantics.

(** ** Notions used in the statements *)

(** A float that is not greater than zero (a NaN compares greater than
    nothing). *)
Definition not_positive (f : spec_float) : bool :=
  match f with
  | S754_zero _ | S754_nan => true
  | S754_infinity s | S754_finite s _ _ => s
  end.

(** The pins [auto_publisher] gives a schedule entry, in topology order. *)
Definition actuator_pins (pin_config : list pin) : list pin :=
  List.filter (fun p => is_actuator_mode (mode p)) pin_config.

(** What [auto_publisher] writes into the store for a pin. *)
Definition seed_of (client_id : string) (p : pin) : string * string :=
  (set_topic client_id p, py_str (default (JInt 0) (defaultState p))).

(** The schedule entry [auto_publisher] appends for a pin. *)
Definition entry_of (client_id : string) (p : pin) : exn + entry :=
  interval_sec ← interval_sec_of (default 30000 (pollingInterval p));
  mret {| topic := set_topic client_id p; interval := interval_sec;
          last_sent := PyInt 0 |}.

(** [act["last_sent"] = now] *)
Definition mark_sent (now : spec_float) (act : entry) : entry :=
  {| topic := topic act; interval := interval act; last_sent := PyFloat now |}.

Definition with_store (w : world) (m : gmap string string) : world :=
  {| actuator_values := m; published := published w;
     subscribed := subscribed w; console := console w |}.

(** The pollingInterval values whose conversion to a float is exact. *)
Definition exact_int (z : Z) : Prop := - 2 ^ 53 < z < 2 ^ 53.

(** The formula of the specification, in exact arithmetic: [v] is
    max(1, p/1000 - 1) up to 2^-40.  An [int] result must be the floor 1,
    where the exact value is 1 too (p <= 2000); a [float] result m * 2^e
    must lie within 2^-40 of (p - 1000)/1000, compared after multiplying
    both by 1000 * 2^-e. *)
Definition within_rounding (p : Z) (v : PyNum) : bool :=
  match v with
  | PyInt z => (z =? 1) && (p <=? 2000)
  | PyFloat (S754_finite false m e) =>
      (2000 <? p) && (e <? 0)
      && (Z.abs (Z.pos m * 1000 - (p - 1000) * 2 ^ (- e)) * 2 ^ 40
          <=? 1000 * 2 ^ (- e))
  | PyFloat _ => false
  end.

(** [f] holds on the [n] integers from [lo] on. *)
Fixpoint all_from (f : Z -> bool) (lo : Z) (n : nat) : bool :=
  match n with
  | O => true
  | S n' => f lo && all_from f (lo + 1) n'
  end.

(** The whole numbers of seconds up to one hour, and the millisecond
    values up to two seconds. *)
Definition hour_seconds : list Z := seqZ 0 3601.
Definition floor_range : list Z := seqZ 0 2001.

Definition add_published (w : world) (l : list (string * string)) : world :=
  {| actuator_values := actuator_values w; published := published w ++ l;
     subscribed := subscribed w; console := console w |}.

Definition add_console (w : world) (l : list string) : world :=
  {| actuator_values := actuator_values w; published := published w;
     subscribed := subscribed w; console := console w ++ l |}.

Definition add_subscribed (w : world) (l : list string) : world :=
  {| actuator_values := actuator_values w; published := published w;
     subscribed := subscribed w ++ l; console := console w |}.

(** The words of a command line, as the command loop splits it. *)
Definition command_parts (line : string) : list string :=
  PyStr.split (PyStr.strip line).

(** What the command loop prints for a command it does not carry out. *)
Definition report_of (line : string) : list string :=
  match command_parts line with
  | [p0; _] =>
      match PyInt.parse p0 with
      | inr _ => [msg_invalid_index]
      | inl _ => [msg_usage]
      end
  | _ => []
  end.

(** A command the loop does not carry out: it is not the quit command,
    and it is not an index into [actuators_manual] followed by a value. *)
Definition rejected (actuators_manual : list manual) (line : string) : Prop :=
  PyStr.lower (PyStr.strip line) <> "q"
  /\ forall p0 p1 idx,
       command_parts line = [p0; p1] -> PyInt.parse p0 = inr idx ->
       ~ (0 <= idx < Z.of_nat (length actuators_manual)).

(** The topic [on_connect] subscribes to for a pin, if any. *)
Definition subscription_of (client_id : string) (p : pin) : option string :=
  let prefix := get_topic_prefix (mode p) in
  if bool_decide (mode p ∈ ["DS18B20"; "THERMOCOUPLE"]) then
    Some (topic_of client_id prefix (name p) "value")
  else if bool_decide (mode p ∈ ["FAN"; "OUTPUT_DIGITAL"]) then
    Some (topic_of client_id prefix (name p) "state")
  else None.

(** The publish call a program is about to make, if that is its next
    action. *)
Definition head_publish {A : Type} (p : prog A) : option (string * string) :=
  match p with
  | Publish t v _ => Some (t, v)
  | _ => None
  end.

(** The publish the publisher thread has in flight: it has read the
    value from the store, released the lock, and not yet called
    [client.publish]. *)
Definition pending_publish (a : auto_state) : option (string * string) :=
  match a with
  | ARunning p => head_publish p
  | _ => None
  end.

(** The shape of the publisher's code: a read of the store is followed
    at once by the publish of the value read on the topic read, and no
    publish happens otherwise.  [pend] is the read whose publish is still
    to come. *)
Fixpoint paired {A : Type} (pend : option (string * string)) (p : prog A) : Prop :=
  match p with
  | Done _ | Raise _ => pend = None
  | GetValue t k => pend = None /\ forall v, paired (Some (t, v)) (k v)
  | Publish t v k => pend = Some (t, v) /\ forall r, paired None (k r)
  | SetValue _ _ k | Print _ k => pend = None /\ paired None k
  | Subscribe _ k => pend = None /\ forall r, paired None (k r)
  end.

Definition auto_inv (a : auto_state) : Prop :=
  match a with
  | ARunning p => exists pend, paired pend p
  | _ => True
  end.

(** What a step can do to the trace, the store and the publisher: nothing
    that is observed, an action of the main thread, or an action of the
    publisher thread. *)
Definition quiet_step (s s1 : system) : Prop :=
  trace s1 = trace s
  /\ actuator_values (shared s1) = actuator_values (shared s)
  /\ (auto s1 = auto s \/ pending_publish (auto s1) = None).

Definition main_step (s s1 : system) (ev : event) : Prop :=
  trace s1 = (trace s ++ [(Main, ev)])%list
  /\ auto s1 = auto s
  /\ forall t, (forall y, ev <> EvSet t y) ->
       store_get (actuator_values (shared s1)) t
       = store_get (actuator_values (shared s)) t.

Definition auto_step (s s1 : system) (ev : event) : Prop :=
  trace s1 = (trace s ++ [(Auto, ev)])%list
  /\ (forall t, (forall y, ev <> EvSet t y) ->
        store_get (actuator_values (shared s1)) t
        = store_get (actuator_values (shared s)) t)
  /\ (forall t x, ev = EvPublish t x -> pending_publish (auto s) = Some (t, x))
  /\ (forall t x, pending_publish (auto s1) = Some (t, x) ->
        ev = EvGet t x /\ x = store_get (actuator_values (shared s)) t).

(** The writes to the store that a trace records, oldest first. *)
Definition writes_of (tr : list (tid * event)) : list (string * string) :=
  omap (fun e => match e.2 with EvSet t v => Some (t, v) | _ => None end) tr.

(** The step from [s] to [s1] is the action [ev] of the thread [u]. *)
Definition performed (s s1 : system) (u : tid) (ev : event) : Prop :=
  trace s1 = (trace s ++ [(u, ev)])%list
  /\ actuator_values (shared s1)
     = apply_writes (writes_of [(u, ev)]) (actuator_values (shared s))
  /\ forall t x, ev = EvGet t x -> x = store_get (actuator_values (shared s)) t.

(** The store is what the writes of the trace make it, and every read
    of the trace returned the last value written before it for its topic,
    or the default. *)
Definition store_follows_trace (s : system) : Prop :=
  actuator_values (shared s) = apply_writes (writes_of (trace s)) ∅
  /\ forall pre u t x post,
       trace s = (pre ++ (u, EvGet t x) :: post)%list ->
       x = store_get (apply_writes (writes_of pre) ∅) t.

(** ** Notions used for the rest of the code *)

(** [any(c.isspace() for c in s)] *)
Fixpoint has_space (s : string) : bool :=
  match s with
  | EmptyString => false
  | String c s' => PyStr.is_space c || has_space s'
  end.

(** The element of [actuators_manual] that [main] builds for a pin. *)
Definition manual_of (client_id : string) (p : pin) : manual :=
  {| m_name := name p; m_topic := set_topic client_id p;
     m_range := if bool_decide (mode p = "FAN") then "0-4" else "0-1" |}.

(** The entry is due at [now], and testing it does not raise. *)
Definition is_due (now : spec_float) (e : entry) : bool :=
  bool_decide (due now e = inr true).

(** What a pass makes of an entry. *)
Definition stamp (now : spec_float) (e : entry) : entry :=
  if is_due now e then mark_sent now e else e.

(** The [last_sent] of an entry is the initial 0 or a reading of the
    clock. *)
Definition stamped (e : entry) : Prop :=
  last_sent e = PyInt 0 \/ exists f, last_sent e = PyFloat f.

(** What a pass publishes for an entry when the store is [m]. *)
Definition message_of (m : gmap string string) (e : entry) : string * string :=
  (topic e, store_get m (topic e)).

(** [main], lines 204-205: the lines of the menu, one per element of
    [actuators_manual], each with its index. *)
Definition menu_line (i : nat) (act : manual) : string :=
  "   [" +:+ PyStr.of_int (Z.of_nat i) +:+ "] " +:+ m_name act
  +:+ " (" +:+ m_range act +:+ ") -> " +:+ m_topic act.

Definition menu_lines (actuators_manual : list manual) : list string :=
  imap menu_line actuators_manual.

(** A word: a string that is not empty and has no whitespace. *)
Definition is_word (s : string) : Prop := s <> "" /\ has_space s = false.

(** ** Notions used for the two threads *)

(** The publisher thread has ended: it returned, or an exception left it. *)
Definition gone (a : auto_state) : Prop :=
  match a with
  | AExited | ADied _ => True
  | ARunning _ | AWaiting _ => False
  end.

(** All the events of [tr] are actions of the thread [u]. *)
Definition by_thread (u : tid) (tr : list (tid * event)) : Prop :=
  Forall (fun e => e.1 = u) tr.

(** The actions of the main thread in a trace. *)
Definition main_events (tr : list (tid * event)) : list event :=
  omap (fun e => match e.1 with Main => Some e.2 | Auto => None end) tr.

(** The main thread is in the code that follows the command loop. *)
Definition after_loop (m : main_state) : Prop :=
  match m with
  | MStopping | MSetStop | MJoining | MLeaving | MExited => True
  | MWaiting | MRunning _ | MDied _ => False
  end.

(** What the main thread has printed since it left the command loop. *)
Definition shutdown_prints (m : main_state) : list event :=
  match m with
  | MSetStop | MJoining | MLeaving => [EvPrint msg_stopping]
  | MExited => [EvPrint msg_stopping; EvPrint msg_disconnected]
  | _ => []
  end.

(** The main thread has called [stop_event.set()]; it has returned from
    [pub_thread.join()]. *)
Definition stop_set (m : main_state) : bool :=
  match m with
  | MJoining | MLeaving | MExited => true
  | _ => false
  end.

Definition joined (m : main_state) : bool :=
  match m with
  | MLeaving | MExited => true
  | _ => false
  end.

(** A step of the code that follows the command loop, lines 240-245. *)
Definition shutdown_step (s s1 : system) : Prop :=
  (main s = MStopping /\ s1 = main_print msg_stopping MSetStop s)
  \/ (main s = MSetStop
      /\ s1 = {| shared := shared s; auto := auto s; main := MJoining;
                 stop_event := true; trace := trace s |})
  \/ (main s = MJoining /\ gone (auto s)
      /\ s1 = {| shared := shared s; auto := auto s; main := MLeaving;
                 stop_event := stop_event s; trace := trace s |})
  \/ (main s = MLeaving /\ s1 = main_print msg_disconnected MExited s).

(** The topic [t] has been written in the trace [tr]. *)
Definition written (tr : list (tid * event)) (t : string) : Prop :=
  t ∈ (writes_of tr).*1.

(** Every read of the trace is on a topic written before it. *)
Definition reads_written (tr : list (tid * event)) : Prop :=
  forall pre u t x post,
    tr = (pre ++ (u, EvGet t x) :: post)%list -> written pre t.

(** Every publish of the publisher thread in the trace comes right after
    that thread's read of the same topic, and carries the value read. *)
Definition publishes_follow_reads (tr : list (tid * event)) : Prop :=
  forall pre t x post,
    tr = (pre ++ (Auto, EvPublish t x) :: post)%list ->
    exists pre1 mid,
      pre = (pre1 ++ (Auto, EvGet t x) :: mid)%list
      /\ forall ev, (Auto, ev) ∉ mid.

(** The messages handed to the client that a trace records, oldest
    first. *)
Definition publishes_of (tr : list (tid * event)) : list (string * string) :=
  omap (fun e => match e.2 with EvPublish t v => Some (t, v) | _ => None end) tr.

(** The set-topics of the FAN and OUTPUT_DIGITAL pins of the topology. *)
Definition actuator_topic (client_id : string) (pin_config : list pin)
    (t : string) : Prop :=
  t ∈ set_topic client_id <$> actuator_pins pin_config.

(** The entry [e] is the one [auto_publisher] builds for the pin [p], up
    to its [last_sent]. *)
Definition built_from (client_id : string) (p : pin) (e : entry) : Prop :=
  topic e = set_topic client_id p
  /\ interval_sec_of (default 30000 (pollingInterval p)) = inr (interval e)
  /\ stamped e.

(** The schedule [acts] is the one built for the topology, and the
    topics of its entries are among [D]. *)
Definition schedule_ok (client_id : string) (pin_config : list pin)
    (D : string -> Prop) (acts : list entry) : Prop :=
  Forall2 (built_from client_id) (actuator_pins pin_config) acts
  /\ Forall (fun e => D (topic e)) acts.

(** The shape of the publisher's code, where [T] are the topics it may
    use and [D] the topics written so far: it reads only topics of [T]
    that have been written, writes and publishes only topics of [T], lets
    an exception of [client.publish] through, never subscribes, and ends
    with a result that satisfies [Q]. *)
Fixpoint publisher_code {A : Type} (T : string -> Prop)
    (Q : (string -> Prop) -> A -> Prop) (D : string -> Prop) (p : prog A) : Prop :=
  match p with
  | Done a => Q D a
  | Raise _ => True
  | GetValue t k => T t /\ D t /\ forall v, publisher_code T Q D (k v)
  | SetValue t _ k => T t /\ publisher_code T Q (fun x => x = t \/ D x) k
  | Publish t _ k =>
      T t /\ (forall x, k (Raised x) = Raise x)
      /\ forall rc, publisher_code T Q D (k (Returned rc))
  | Subscribe _ _ => False
  | Print _ k => publisher_code T Q D k
  end.

(** The shape of the command loop's code: it writes and publishes only
    topics of [T], and neither reads the store nor subscribes. *)
Fixpoint operator_code {A : Type} (T : string -> Prop) (p : prog A) : Prop :=
  match p with
  | Done _ | Raise _ => True
  | GetValue _ _ | Subscribe _ _ => False
  | SetValue t _ k => T t /\ operator_code T k
  | Publish t _ k => T t /\ forall r, operator_code T (k r)
  | Print _ k => operator_code T k
  end.

(** What the two threads may do when [T] are the topics of the
    actuators: write and publish on them, and, for the publisher thread
    only, read them. *)
Definition event_allowed (T : string -> Prop) (e : tid * event) : Prop :=
  match e.2 with
  | EvSet t _ | EvPublish t _ => T t
  | EvGet t _ => e.1 = Auto /\ T t
  | EvSubscribe _ => False
  | EvPrint _ => True
  end.

(** What holds of the two threads in every reachable state: the actions
    performed are allowed ones, every read is on a topic written before,
    and the code each thread has left to run has the shape above. *)
Definition thread_inv (client_id : string) (pin_config : list pin)
    (s : system) : Prop :=
  Forall (event_allowed (actuator_topic client_id pin_config)) (trace s)
  /\ reads_written (trace s)
  /\ match auto s with
     | ARunning p =>
         publisher_code (actuator_topic client_id pin_config)
           (schedule_ok client_id pin_config) (written (trace s)) p
     | AWaiting acts => schedule_ok client_id pin_config (written (trace s)) acts
     | AExited | ADied _ => True
     end
  /\ match main s with
     | MRunning p => operator_code (actuator_topic client_id pin_config) p
     | _ => True
     end.

(** ** The scenario of the specification

    One actuator [relay1] on the device [dev1], a client whose calls
    all return 0, and a reading of the clock. *)
Definition relay1 : pin :=
  {| mode := "OUTPUT_DIGITAL"; name := "relay1";
     defaultState := Some (JInt 0); pollingInterval := Some 5000 |}.

Definition fan1 : pin :=
  {| mode := "FAN"; name := "fan1"; defaultState := None; pollingInterval := None |}.

(** A humidity sensor, a mode of the router's table. *)
Definition room_sensor : pin :=
  {| mode := "DHT22_SENSOR"; name := "room"; defaultState := None;
     pollingInterval := Some 2000 |}.

Definition clock0 : spec_float := Eval vm_compute in PyFloat.of_Z 1700000000.


Definition always_ok : nat -> reply := fun _ => Returned 0.

Definition relay1_topic : string := "/dev1/digital_output/relay1/set".

(** A schedule of the two threads in which the operator's command 0 42
    arrives while the publisher is between its read of the store and its
    publish call. *)
Definition race_schedule : list label :=
  [ AutoStep; AutoStep;              (* the publisher seeds the store and prints *)
    AutoClock clock0; AutoStep;      (* a pass starts; the value is read *)
    MainInput "0 42"; MainStep; MainStep; MainStep;   (* write, publish, print *)
    AutoStep ].                      (* the publish of the value read before *)

(** A schedule in which the command is handled between two passes. *)
Definition calm_schedule_1 : list label :=
  [ AutoStep; AutoStep; MainInput "0 42"; MainStep ].
Definition calm_schedule_2 : list label :=
  [ MainStep; MainStep; AutoClock clock0; AutoStep; AutoStep ].

(** A client whose calls all raise, and one whose calls raise
    [ValueError]. *)
Definition always_fails : nat -> reply := fun _ => Raised OtherError.
Definition always_value_error : nat -> reply := fun _ => Raised ValueError.

(** A fan whose [pollingInterval] no float can hold. *)
Definition fan2 : pin :=
  {| mode := "FAN"; name := "fan2"; defaultState := None;
     pollingInterval := Some (2 ^ 1024) |}.

(** A fan whose [pollingInterval] is beyond 2^53 and still converts. *)
Definition fan3 : pin :=
  {| mode := "FAN"; name := "fan3"; defaultState := None;
     pollingInterval := Some (2 ^ 53 + 1) |}.

(** An entry for [relay1] that was never sent. *)
Definition relay1_entry : entry :=
  {| topic := relay1_topic; interval := PyInt 1; last_sent := PyInt 0 |}.

(** The publisher alone: the start, then a pass up to its read of the
    store, and up to its publish. *)
Definition start_schedule : list label := [ AutoStep; AutoStep ].
Definition read_schedule : list label :=
  [ AutoStep; AutoStep; AutoClock clock0; AutoStep ].
Definition pass_schedule : list label :=
  [ AutoStep; AutoStep; AutoClock clock0; AutoStep; AutoStep ].



(** After the quit command: the code that follows the loop of [main], the
    publisher taking its turn at the loop head while [main] waits in
    [join]. *)
Definition shutdown_schedule : list label :=
  [ MainStep; MainStep; MainStep; AutoClock clock0; MainStep; MainStep ].

Example lower_custom : PyStr.lower "CUSTOM_MODE" = "custom_mode".
Proof. reflexivity. Qed.

Example split_two : PyStr.split "  0   50 " = ["0"; "50"].
Proof. reflexivity. Qed.

Example strip_both : PyStr.strip "  a b  " = "a b".
Proof. reflexivity. Qed.

Example str_neg : PyStr.of_int (-12) = "-12" /\ PyStr.of_int 0 = "0".
Proof. split; reflexivity. Qed.

Example prefix_fan : get_topic_prefix "FAN" = "fan".
Proof. vm_compute. reflexivity. Qed.

Example interval_30000 : interval_sec_of 30000 = inr (PyFloat PyFloat.c29).
Proof. vm_compute. reflexivity. Qed.

Example interval_500 : interval_sec_of 500 = inr (PyInt 1).
Proof. vm_compute. reflexivity. Qed.

Example int_forms :
  PyInt.parse "1_000" = inr 1000 /\ PyInt.parse "+7" = inr 7
  /\ PyInt.parse "-0" = inr 0 /\ PyInt.parse "007" = inr 7
  /\ PyInt.parse "1__0" = inl ValueError /\ PyInt.parse "0x10" = inl ValueError
  /\ PyInt.parse "-" = inl ValueError.
Proof. repeat split; reflexivity. Qed.

(** The end-to-end scenario of the specification: the store is seeded
    with 0, the first pass publishes 0, the command 0 1 publishes 1, and
    the next pass that finds the entry due publishes 1. *)
Example scenario_relay1 :
  trace (exec always_ok always_ok "dev1" [relay1]
           [AutoStep; AutoStep; AutoClock clock0; AutoStep; AutoStep;
            MainInput "0 1"; MainStep; MainStep; MainStep;
            AutoClock (PyFloat.of_Z 1700000004); AutoStep; AutoStep]
           (boot "dev1" [relay1]))
  = [(Auto, EvSet relay1_topic "0");
     (Auto, EvPrint "   🔄 Auto-publisher started for 1 actuators");
     (Auto, EvGet relay1_topic "0");
     (Auto, EvPublish relay1_topic "0");
     (Main, EvSet relay1_topic "1");
     (Main, EvPublish relay1_topic "1");
     (Main, EvPrint (msg_manual relay1_topic "1"));
     (Auto, EvGet relay1_topic "1");
     (Auto, EvPublish relay1_topic "1")].
Proof. vm_compute. reflexivity. Qed.

(** * Properties *)

(** ** Strings *)

Lemma app_cons (c : ascii) (a s : string) :
  String c a +:+ s = String c (a +:+ s).
Proof. reflexivity. Qed.

Lemma app_empty (s : string) : "" +:+ s = s.
Proof. reflexivity. Qed.

Lemma app_cancel_l (s a b : string) : s +:+ a = s +:+ b -> a = b.
Proof.
  induction s as [|c s IH]; rewrite ?app_empty, ?app_cons; [done|].
  intros H. apply IH. by injection H.
Qed.

Lemma app_length (a b : string) :
  String.length (a +:+ b) = (String.length a + String.length b)%nat.
Proof.
  induction a as [|c a IH]; rewrite ?app_empty, ?app_cons; [done|].
  cbn. by rewrite IH.
Qed.

Lemma app_assoc_str (a b c : string) : (a +:+ b) +:+ c = a +:+ (b +:+ c).
Proof.
  induction a as [|x a IH]; rewrite ?app_empty, ?app_cons; [done|].
  by rewrite IH.
Qed.

Lemma app_cancel_r (a b s : string) : a +:+ s = b +:+ s -> a = b.
Proof.
  revert b. induction a as [|c a IH]; intros [|d b] H.
  - done.
  - apply (f_equal String.length) in H. rewrite !app_length in H. cbn in H. lia.
  - apply (f_equal String.length) in H. rewrite !app_length in H. cbn in H. lia.
  - rewrite !app_cons in H. injection H as -> H. f_equal. by apply IH.
Qed.

(** ** Topic Router *)

Lemma mode_table_keys_nodup : NoDup mode_table.*1.
Proof. compute_done. Qed.

Lemma get_topic_prefix_known (m p : string) :
  (m, p) ∈ mode_table -> get_topic_prefix m = p.
Proof.
  intros H. unfold get_topic_prefix, mode_map.
  by rewrite (elem_of_list_to_map_1 _ _ _ mode_table_keys_nodup H).
Qed.

Lemma get_topic_prefix_unknown (m : string) :
  m ∉ mode_table.*1 -> get_topic_prefix m = PyStr.lower m.
Proof.
  intros H. unfold get_topic_prefix, mode_map.
  by rewrite (not_elem_of_list_to_map_1 _ _ H).
Qed.

Lemma lower_char_not_upper (c : ascii) : PyStr.is_upper (PyStr.lower_char c) = false.
Proof. by destruct c as [[] [] [] [] [] [] [] []]. Qed.

Lemma lower_has_no_upper (s : string) : PyStr.has_upper (PyStr.lower s) = false.
Proof.
  induction s as [|c s IH]; [done|]. cbn. by rewrite lower_char_not_upper, IH.
Qed.

Lemma lower_length (s : string) : String.length (PyStr.lower s) = String.length s.
Proof. induction s as [|c s IH]; [done|]. cbn. by rewrite IH. Qed.

(** C3. On each mode of the table [get_topic_prefix] returns the mapped
    prefix, and the table gives one prefix per mode.  On every other
    ASCII mode it returns the lower-cased mode: a string of the same
    length without upper-case letters, so that CUSTOM_MODE gives
    custom_mode.  These two cases cover every ASCII mode, and the result
    is a string in both (the function has no error result).  The topic
    composed for a mode of the table is the text made of the client id,
    the prefix of the table, the name and the suffix. *)
Theorem prefix_total_deterministic :
  (forall m p : string, (m, p) ∈ mode_table -> get_topic_prefix m = p)
  /\ (forall m p p' : string,
        (m, p) ∈ mode_table -> (m, p') ∈ mode_table -> p = p')
  /\ (forall m : string,
        PyStr.is_ascii m = true -> m ∉ mode_table.*1 ->
        get_topic_prefix m = PyStr.lower m
        /\ PyStr.has_upper (get_topic_prefix m) = false
        /\ String.length (get_topic_prefix m) = String.length m)
  /\ get_topic_prefix "CUSTOM_MODE" = "custom_mode"
  /\ (forall m : string,
        PyStr.is_ascii m = true ->
        (exists p, (m, p) ∈ mode_table /\ get_topic_prefix m = p)
        \/ ((m ∉ mode_table.*1) /\ get_topic_prefix m = PyStr.lower m))
  /\ (forall m p n c x : string,
        (m, p) ∈ mode_table ->
        topic_of c (get_topic_prefix m) n x
        = "/" +:+ c +:+ "/" +:+ p +:+ "/" +:+ n +:+ "/" +:+ x).
Proof.
  split; [exact get_topic_prefix_known|]. split.
  { intros m p p' H H'.
    by rewrite <- (get_topic_prefix_known m p H), (get_topic_prefix_known m p' H'). }
  split.
  { intros m _ Hm. rewrite (get_topic_prefix_unknown m Hm).
    split; [done|]. split; [apply lower_has_no_upper|apply lower_length]. }
  split; [by vm_compute|]. split.
  - intros m _. destruct (decide (m ∈ mode_table.*1)) as [Hin|Hout].
    + left. apply list_elem_of_fmap in Hin as ([m' p] & -> & Hin).
      exists p. split; [done|]. by apply get_topic_prefix_known.
    + right. split; [done|]. by apply get_topic_prefix_unknown.
  - intros m p n c x H. by rewrite (get_topic_prefix_known m p H).
Qed.

Lemma prefix_total_deterministic_witness :
  get_topic_prefix "OUTPUT_DIGITAL" = "digital_output"
  /\ get_topic_prefix "valve" = PyStr.lower "valve"
  /\ PyStr.has_upper (get_topic_prefix "Valve") = false.
Proof.
  destruct prefix_total_deterministic as (Hk & _ & Hu & _).
  split; [apply Hk; compute_done|]. split.
  - apply (Hu "valve"); [reflexivity|compute_done].
  - apply (Hu "Valve"); [reflexivity|compute_done].
Defined.

Lemma actuator_mode_cases (m : string) :
  is_actuator_mode m = true -> m = "FAN" \/ m = "OUTPUT_DIGITAL".
Proof.
  unfold is_actuator_mode. intros H%bool_decide_eq_true.
  rewrite elem_of_cons, list_elem_of_singleton in H. exact H.
Qed.

Lemma topic_of_inv (c p n x p' n' : string) :
  topic_of c p n x = topic_of c p' n' x ->
  p +:+ "/" +:+ n = p' +:+ "/" +:+ n'.
Proof.
  unfold topic_of. intros H.
  apply (app_cancel_l "/") in H. apply app_cancel_l in H.
  apply (app_cancel_l "/") in H.
  apply (app_cancel_r _ _ ("/" +:+ x)).
  by rewrite !app_assoc_str.
Qed.

Lemma set_topic_inj (client_id : string) (p q : pin) :
  is_actuator_mode (mode p) = true ->
  is_actuator_mode (mode q) = true ->
  set_topic client_id p = set_topic client_id q ->
  (mode p, name p) = (mode q, name q).
Proof.
  intros Hp Hq Heq.
  unfold set_topic in Heq. apply topic_of_inv in Heq.
  destruct (actuator_mode_cases _ Hp) as [Ep|Ep],
           (actuator_mode_cases _ Hq) as [Eq|Eq];
    rewrite Ep, Eq in *; vm_compute get_topic_prefix in Heq.
  - apply (app_cancel_l "fan/") in Heq. by rewrite Heq.
  - discriminate Heq.
  - discriminate Heq.
  - apply (app_cancel_l "digital_output/") in Heq. by rewrite Heq.
Qed.

Lemma elem_of_actuator_pins (p : pin) (pins : list pin) :
  p ∈ actuator_pins pins <-> p ∈ pins /\ is_actuator_mode (mode p) = true.
Proof. unfold actuator_pins. rewrite !list_elem_of_In. apply filter_In. Qed.

(** C8. Two actuator-capable pins (mode FAN or OUTPUT_DIGITAL, the modes
    that get a set-topic) with different (mode, name) pairs have
    different set-topics, whatever the client id; so in a topology whose
    (mode, name) pairs are all distinct, the set-topics of the schedule
    are all distinct. *)
Theorem set_topic_injective (client_id : string) :
  (forall p q : pin,
     is_actuator_mode (mode p) = true ->
     is_actuator_mode (mode q) = true ->
     (mode p, name p) <> (mode q, name q) ->
     set_topic client_id p <> set_topic client_id q)
  /\ (forall pin_config : list pin,
        NoDup ((fun p => (mode p, name p)) <$> pin_config) ->
        NoDup (set_topic client_id <$> actuator_pins pin_config)).
Proof.
  split.
  - intros p q Hp Hq Hne Heq. by apply Hne, (set_topic_inj client_id).
  - induction pin_config as [|p pins IH]; [constructor|].
    rewrite fmap_cons, NoDup_cons. intros [Hnotin Hnd].
    cbn [actuator_pins List.filter]. fold (actuator_pins pins).
    destruct (is_actuator_mode (mode p)) eqn:Hp; [|by apply IH].
    rewrite fmap_cons. apply NoDup_cons. split; [|by apply IH].
    intros (q & Heq & [Hq Hqa]%elem_of_actuator_pins)%list_elem_of_fmap.
    apply Hnotin, list_elem_of_fmap. exists q. split; [|done].
    by apply (set_topic_inj client_id).
Qed.

Lemma set_topic_injective_witness :
  set_topic "dev1" fan1 <> set_topic "dev1" relay1
  /\ NoDup (set_topic "dev1" <$> actuator_pins [relay1; room_sensor; fan1]).
Proof.
  destruct (set_topic_injective "dev1") as [Hpair Hlist].
  split.
  - apply Hpair; [reflexivity | reflexivity | discriminate].
  - apply Hlist. compute_done.
Defined.

(** ** Shared Actuator Store *)



(** ** Binary64 arithmetic *)

Lemma round_aux_sign (sx : bool) (mx ex : Z) (lx : location) :
  match binary_round_aux prec emax sx mx ex lx with
  | S754_zero s | S754_infinity s | S754_finite s _ _ => s = sx
  | S754_nan => True
  end.
Proof.
  unfold binary_round_aux.
  destruct (shr_fexp prec emax mx ex lx) as [mrs e'].
  destruct (shr_fexp prec emax _ e' loc_Exact) as [mrs' e''].
  destruct (shr_m mrs'); [done| |done].
  by destruct (e'' <=? emax - prec).
Qed.

Lemma round_aux_not_positive (mx ex : Z) (lx : location) :
  not_positive (binary_round_aux prec emax true mx ex lx) = true.
Proof.
  pose proof (round_aux_sign true mx ex lx) as H.
  destruct (binary_round_aux prec emax true mx ex lx); simpl; congruence.
Qed.

Lemma of_Z_not_positive (z : Z) : z <= 0 -> not_positive (PyFloat.of_Z z) = true.
Proof.
  intros Hz. destruct z as [|p|p]; [done|lia|].
  unfold PyFloat.of_Z, binary_normalize, binary_round.
  destruct (shl_align _ _ _) as [mz ez]. apply round_aux_not_positive.
Qed.

Lemma div_c1000_not_positive (x : spec_float) :
  not_positive x = true -> not_positive (PyFloat.div x PyFloat.c1000) = true.
Proof.
  destruct x as [s|s| |s m e]; simpl; try done.
  - by intros ->.
  - intros ->. unfold PyFloat.div, PyFloat.c1000, SFdiv.
    destruct (SFdiv_core_binary _ _ _ _ _ _) as [[mz ez] lz].
    apply round_aux_not_positive.
Qed.

Lemma sub_c1_not_positive (x : spec_float) :
  not_positive x = true -> not_positive (PyFloat.sub x PyFloat.c1) = true.
Proof.
  destruct x as [s|s| |s m e]; simpl; try done.
  intros ->. unfold PyFloat.sub, PyFloat.c1, SFsub.
  set (ez := Z.min e (-52)).
  destruct (shl_align m e ez) as [a ?],
           (shl_align 4503599627370496 (-52) ez) as [b ?].
  cbn [fst cond_Zopp]. change (- Z.pos a - Z.pos b) with (Z.neg (a + b)).
  unfold binary_normalize, binary_round.
  destruct (shl_align _ _ _) as [mz ez']. apply round_aux_not_positive.
Qed.

Lemma not_positive_compare_int (f : spec_float) (z : Z) :
  not_positive f = true -> 0 < z -> PyFloat.compare_int f z <> Some Gt.
Proof.
  intros Hf Hz.
  destruct f as [s|s| |s m e]; unfold PyFloat.compare_int; cbn in Hf.
  - assert ((0 ?= z) = Lt) as -> by (by apply Z.compare_lt_iff). done.
  - by rewrite Hf.
  - done.
  - rewrite Hf. cbn [cond_Zopp]. destruct (0 <=? e) eqn:He.
    + assert ((- Z.pos m * 2 ^ e ?= z) = Lt) as ->; [|done].
      apply Z.compare_lt_iff. apply Z.leb_le in He.
      pose proof (Z.pow_pos_nonneg 2 e). nia.
    + assert ((- Z.pos m ?= z * 2 ^ (- e)) = Lt) as ->; [|done].
      apply Z.compare_lt_iff. apply Z.leb_gt in He.
      pose proof (Z.pow_pos_nonneg 2 (- e)). nia.
Qed.

(** A pollingInterval that is not positive gives the floor, whenever
    its conversion to a float does not overflow. *)
Lemma interval_sec_of_neg (p : Z) (x : spec_float) :
  p <= 0 -> PyFloat.of_int p = inr x -> interval_sec_of p = inr (PyInt 1).
Proof.
  intros Hp Hx. unfold interval_sec_of. rewrite Hx. cbn.
  assert (not_positive x = true) as Hn.
  { unfold PyFloat.of_int in Hx. destruct (PyFloat.is_infinity _); [done|].
    injection Hx as <-. by apply of_Z_not_positive. }
  apply div_c1000_not_positive, sub_c1_not_positive in Hn.
  unfold py_max, py_gt.
  pose proof (not_positive_compare_int _ 1 Hn ltac:(lia)) as Hc.
  destruct (PyFloat.compare_int _ 1) as [[]|]; done.
Qed.

(** *** The conversion of a 53-bit integer is exact, so it cannot overflow *)

Lemma digits2_pos_iter (m k : positive) :
  digits2_pos (Pos.iter xO m k) = (digits2_pos m + k)%positive.
Proof.
  induction k as [|k IH] using Pos.peano_ind.
  - cbn. by rewrite Pos.add_1_r.
  - rewrite Pos.iter_succ. cbn. rewrite IH. lia.
Qed.

Lemma digits2_pos_lower (m : positive) :
  2 ^ (Z.pos (digits2_pos m) - 1) <= Z.pos m.
Proof.
  induction m as [m IH|m IH|]; cbn [digits2_pos]; [| |done].
  - replace (Z.pos (Pos.succ (digits2_pos m)) - 1)
      with (Z.succ (Z.pos (digits2_pos m) - 1)) by lia.
    rewrite Z.pow_succ_r by lia. lia.
  - replace (Z.pos (Pos.succ (digits2_pos m)) - 1)
      with (Z.succ (Z.pos (digits2_pos m) - 1)) by lia.
    rewrite Z.pow_succ_r by lia. lia.
Qed.

Lemma digits2_pos_small (m : positive) :
  Z.pos m < 2 ^ 53 -> Z.pos (digits2_pos m) <= 53.
Proof.
  intros Hm. pose proof (digits2_pos_lower m) as Hl.
  destruct (Z.le_gt_cases (Z.pos (digits2_pos m)) 53) as [|Hgt]; [done|].
  exfalso. assert (2 ^ 53 <= 2 ^ (Z.pos (digits2_pos m) - 1)).
  { apply Z.pow_le_mono_r; lia. }
  lia.
Qed.

Lemma round_aux_canonical (s : bool) (mz : positive) (ez : Z) :
  Z.pos (digits2_pos mz) = 53 -> -1074 <= ez <= 971 ->
  binary_round_aux prec emax s (Z.pos mz) ez loc_Exact = S754_finite s mz ez.
Proof.
  intros Hd He.
  assert (shr_fexp prec emax (Z.pos mz) ez loc_Exact
          = ({| shr_m := Z.pos mz; shr_r := false; shr_s := false |}, ez)) as Hs.
  { unfold shr_fexp, fexp, emin. cbn [Zdigits2 shr_record_of_loc]. rewrite Hd.
    replace (Z.max (53 + ez - prec) (3 - emax - prec) - ez) with 0
      by (unfold prec, emax; lia).
    reflexivity. }
  unfold binary_round_aux. rewrite Hs.
  cbn [shr_m loc_of_shr_record round_nearest_even].
  rewrite Hs. cbn [shr_m].
  assert ((ez <=? emax - prec) = true) as ->; [|done].
  apply Z.leb_le. unfold prec, emax. lia.
Qed.

Lemma binary_round_small (s : bool) (m : positive) :
  Z.pos m < 2 ^ 53 ->
  exists mz ez, binary_round prec emax s m 0 = S754_finite s mz ez.
Proof.
  intros Hm. pose proof (digits2_pos_small m Hm) as Hd.
  unfold binary_round, shl_align, fexp, emin.
  replace (Z.max (Z.pos (digits2_pos m) + 0 - prec) (3 - emax - prec) - 0)
    with (Z.pos (digits2_pos m) - 53) by (unfold prec, emax; lia).
  replace (Z.max (Z.pos (digits2_pos m) + 0 - prec) (3 - emax - prec))
    with (Z.pos (digits2_pos m) - 53) by (unfold prec, emax; lia).
  destruct (Z.pos (digits2_pos m) - 53) as [|k|k] eqn:Ek; [|lia|].
  - eexists _, _. apply round_aux_canonical; lia.
  - eexists _, _. rewrite <- Ek. apply round_aux_canonical; [|lia].
    rewrite digits2_pos_iter. lia.
Qed.

Lemma of_int_exact (z : Z) : exact_int z -> exists f, PyFloat.of_int z = inr f.
Proof.
  intros Hz. unfold exact_int in Hz.
  unfold PyFloat.of_int, PyFloat.of_Z, binary_normalize.
  destruct z as [|m|m].
  - by eexists.
  - destruct (binary_round_small false m) as (mz & ez & ->); [lia|]. by eexists.
  - destruct (binary_round_small true m) as (mz & ez & ->); [lia|]. by eexists.
Qed.

Lemma interval_sec_of_exact (z : Z) :
  exact_int z -> exists v, interval_sec_of z = inr v.
Proof.
  intros (f & Hf)%of_int_exact. unfold interval_sec_of. rewrite Hf. by eexists.
Qed.

(** *** Tables *)

Lemma interval_floor_table :
  forallb (fun p => bool_decide (interval_sec_of p = inr (PyInt 1))) floor_range = true.
Proof. vm_compute. reflexivity. Qed.

Lemma interval_sec_of_small (p : Z) :
  0 <= p <= 2000 -> interval_sec_of p = inr (PyInt 1).
Proof.
  intros Hp. pose proof interval_floor_table as H.
  rewrite forallb_forall in H.
  eapply bool_decide_eq_true_1, H, list_elem_of_In, elem_of_seqZ. lia.
Qed.

Lemma interval_whole_seconds_table :
  forallb (fun k => match interval_sec_of (1000 * k) with
                    | inr v => py_eq v (PyInt (Z.max 1 (k - 1)))
                    | inl _ => false
                    end) hour_seconds = true.
Proof. vm_compute. reflexivity. Qed.

Lemma interval_sec_of_whole_seconds (k : Z) :
  0 <= k <= 3600 ->
  exists v, interval_sec_of (1000 * k) = inr v
            /\ py_eq v (PyInt (Z.max 1 (k - 1))) = true.
Proof.
  intros Hk. pose proof interval_whole_seconds_table as H.
  rewrite forallb_forall in H. specialize (H k).
  destruct (interval_sec_of (1000 * k)) as [e|v].
  - exfalso. cut (false = true); [done|].
    apply H, list_elem_of_In, elem_of_seqZ. lia.
  - exists v. split; [done|]. apply H, list_elem_of_In, elem_of_seqZ. lia.
Qed.

Lemma all_from_spec (f : Z -> bool) (lo : Z) (n : nat) (p : Z) :
  all_from f lo n = true -> lo <= p < lo + Z.of_nat n -> f p = true.
Proof.
  revert lo. induction n as [|n IH]; intros lo; cbn [all_from]; [lia|].
  intros [Hlo Hrest]%andb_true_iff Hp.
  destruct (Z.eq_dec p lo) as [->|Hne]; [done|].
  apply (IH (lo + 1)); [done|lia].
Qed.

Lemma interval_rounding_table :
  all_from (fun p => match interval_sec_of p with
                     | inr v => within_rounding p v
                     | inl _ => false
                     end) 0 (Z.to_nat 10001) = true.
Proof. vm_compute. reflexivity. Qed.

Lemma interval_sec_of_rounding (p : Z) :
  0 <= p <= 10000 ->
  exists v, interval_sec_of p = inr v /\ within_rounding p v = true.
Proof.
  intros Hp.
  pose proof (all_from_spec _ 0 _ p interval_rounding_table ltac:(lia)) as H.
  cbn beta in H. destruct (interval_sec_of p) as [e|v]; [done|]. by exists v.
Qed.

(** ** Running programs *)

Section Properties.

Variable pub_reply : nat -> reply.
Variable sub_reply : nat -> reply.

Abbreviation run := (run pub_reply sub_reply).

Lemma run_bind {A B : Type} (p : prog A) (f : A -> prog B) (w : world) :
  run (p ≫= f) w
  = match run p w with
    | (inr a, w') => run (f a) w'
    | (inl e, w') => (inl e, w')
    end.
Proof.
  revert w. induction p as [a|e|t k IH|t v k IH|t v k IH|t k IH|l k IH];
    intros w; cbn; try done; apply IH.
Qed.

Lemma run_lift {A : Type} (r : exn + A) (w : world) : run (lift r) w = (r, w).
Proof. by destruct r. Qed.

Lemma run_set_value (t v : string) (w : world) :
  run (set_value t v) w = (inr tt, with_store w (store_set (actuator_values w) t v)).
Proof. reflexivity. Qed.

Lemma entry_of_eq (client_id : string) (p : pin) :
  entry_of client_id p
  = match interval_sec_of (default 30000 (pollingInterval p)) with
    | inl e => inl e
    | inr iv => inr {| topic := set_topic client_id p; interval := iv;
                       last_sent := PyInt 0 |}
    end.
Proof. unfold entry_of. by destruct (interval_sec_of _). Qed.

(** The schedule [auto_publisher] builds is the list of the entries of
    the actuator pins, or the first exception their intervals raise. *)
Lemma run_build_actuators_result (client_id : string) (pins : list pin)
    (acts : list entry) (w : world) :
  (run (build_actuators client_id pins acts) w).1
  = (es ← mapM (entry_of client_id) (actuator_pins pins); mret (acts ++ es)%list).
Proof.
  revert acts w. induction pins as [|p pins IH]; intros acts w.
  - cbn. by rewrite app_nil_r.
  - cbn [build_actuators actuator_pins List.filter].
    destruct (is_actuator_mode (mode p)) eqn:Hm; [|apply IH].
    rewrite run_bind, run_set_value, run_bind, run_lift.
    fold (actuator_pins pins). cbn [mapM]. rewrite (entry_of_eq client_id p).
    destruct (interval_sec_of _) as [e|iv]; [reflexivity|].
    cbn. rewrite IH.
    destruct (mapM _ _) as [e|es]; [reflexivity|].
    cbn. by rewrite <- app_assoc.
Qed.

(** When every interval is computed, the store holds the seeds of the
    actuator pins, written in topology order. *)
Lemma run_build_actuators_ok (client_id : string) (pins : list pin)
    (acts es : list entry) (w : world) :
  mapM (entry_of client_id) (actuator_pins pins) = inr es ->
  run (build_actuators client_id pins acts) w
  = (inr (acts ++ es)%list,
     with_store w (apply_writes (seed_of client_id <$> actuator_pins pins)
                                (actuator_values w))).
Proof.
  revert acts es w. induction pins as [|p pins IH]; intros acts es w.
  - cbn. intros [= <-]. rewrite app_nil_r. by destruct w.
  - cbn [build_actuators actuator_pins List.filter].
    destruct (is_actuator_mode (mode p)) eqn:Hm; [|apply IH].
    fold (actuator_pins pins). cbn [mapM]. rewrite (entry_of_eq client_id p).
    rewrite run_bind, run_set_value, run_bind, run_lift.
    destruct (interval_sec_of _) as [e|iv]; [done|]. cbn.
    destruct (mapM _ _) as [e|es'] eqn:Hes; [done|]. cbn. intros [= <-].
    rewrite (IH _ es') by done. by rewrite <- app_assoc.
Qed.

Lemma mapM_inr_Forall2 {A B : Type} (f : A -> exn + B) (l : list A) (k : list B) :
  mapM f l = inr k -> Forall2 (fun a b => f a = inr b) l k.
Proof.
  revert k. induction l as [|a l IH]; intros k; cbn.
  - intros [= <-]. constructor.
  - destruct (f a) as [e|b] eqn:Hb; [done|]. cbn.
    destruct (mapM f l) as [e|k'] eqn:Hk; [done|]. cbn. intros [= <-].
    constructor; [done|]. by apply IH.
Qed.

Lemma mapM_inr_total {A B : Type} (f : A -> exn + B) (l : list A) :
  Forall (fun a => exists b, f a = inr b) l -> exists k, mapM f l = inr k.
Proof.
  induction 1 as [|a l [b Hb] _ [k Hk]]; cbn.
  - by eexists.
  - rewrite Hb. cbn. rewrite Hk. by eexists.
Qed.

Lemma run_build_actuators_inv (client_id : string) (pins : list pin)
    (acts : list entry) (w w' : world) :
  run (build_actuators client_id pins []) w = (inr acts, w') ->
  mapM (entry_of client_id) (actuator_pins pins) = inr acts.
Proof.
  intros H. pose proof (run_build_actuators_result client_id pins [] w) as Hr.
  rewrite H in Hr. cbn in Hr.
  destruct (mapM _ _) as [e|es]; [done|].
  cbn in Hr. unfold mret, exn_ret in Hr. congruence.
Qed.

Lemma entry_of_exact (client_id : string) (p : pin) :
  (forall z, pollingInterval p = Some z -> exact_int z) ->
  exists e, entry_of client_id p = inr e.
Proof.
  intros H. rewrite entry_of_eq.
  destruct (interval_sec_of_exact (default 30000 (pollingInterval p))) as [v ->].
  - destruct (pollingInterval p) as [z|]; [by apply H|]. cbn. unfold exact_int. lia.
  - by eexists.
Qed.

(** [auto_publisher] builds its schedule whenever the pollingInterval
    values of the actuator pins are 53-bit integers. *)
Lemma run_build_actuators_total (client_id : string) (pins : list pin) (w : world) :
  (forall p z, p ∈ actuator_pins pins -> pollingInterval p = Some z -> exact_int z) ->
  exists acts w', run (build_actuators client_id pins []) w = (inr acts, w').
Proof.
  intros H.
  destruct (mapM_inr_total (entry_of client_id) (actuator_pins pins)) as [es Hes].
  { apply Forall_forall. intros p Hp. apply entry_of_exact. intros z. by apply H. }
  eexists _, _. by apply run_build_actuators_ok.
Qed.

(** C2. The schedule has one entry per actuator-capable pin, in
    topology order, whose interval is max(1, pollingInterval/1000.0 - 1.0)
    computed in binary64, the pollingInterval defaulting to 30000; the
    schedule is built whenever the pollingInterval values are 53-bit
    integers.  30000 gives 29.0, which equals 29; 500 gives 1; every
    pollingInterval below 1000 gives the floor 1, unless it is so far below
    zero that its conversion to a float overflows; on every whole number of
    seconds up to an hour the interval equals max(1, seconds - 1); and on
    every number of milliseconds up to 10000 it is the exact value of the
    formula up to 2^-40. *)
Theorem schedule_interval_formula (client_id : string) (pin_config : list pin)
    (w : world) :
  (forall acts w',
     run (build_actuators client_id pin_config []) w = (inr acts, w') ->
     Forall2 (fun p e =>
                topic e = set_topic client_id p
                /\ exists x,
                    PyFloat.of_int (default 30000 (pollingInterval p)) = inr x
                    /\ interval e
                       = py_max (PyInt 1)
                           (PyFloat (PyFloat.sub (PyFloat.div x PyFloat.c1000)
                                                 PyFloat.c1)))
             (actuator_pins pin_config) acts)
  /\ ((forall p z, p ∈ actuator_pins pin_config ->
                   pollingInterval p = Some z -> exact_int z) ->
      exists acts w',
        run (build_actuators client_id pin_config []) w = (inr acts, w'))
  /\ interval_sec_of 30000 = inr (PyFloat PyFloat.c29)
  /\ py_eq (PyFloat PyFloat.c29) (PyInt 29) = true
  /\ interval_sec_of 500 = inr (PyInt 1)
  /\ (forall p, p < 1000 ->
        interval_sec_of p = inr (PyInt 1)
        \/ (p <= - 2 ^ 53 /\ interval_sec_of p = inl OverflowError))
  /\ (forall k, 0 <= k <= 3600 ->
        exists v, interval_sec_of (1000 * k) = inr v
                  /\ py_eq v (PyInt (Z.max 1 (k - 1))) = true)
  /\ (forall p, 0 <= p <= 10000 ->
        exists v, interval_sec_of p = inr v /\ within_rounding p v = true).
Proof.
  split; [|split; [|split; [|split; [|split; [|split; [|split]]]]]].
  - intros acts w' H%run_build_actuators_inv%mapM_inr_Forall2.
    eapply Forall2_impl; [exact H|]. intros p e. cbn beta.
    rewrite entry_of_eq. unfold interval_sec_of.
    destruct (PyFloat.of_int _) as [?|x]; [done|]. cbn. intros [= <-]. cbn.
    eauto.
  - apply run_build_actuators_total.
  - vm_compute. reflexivity.
  - vm_compute. reflexivity.
  - vm_compute. reflexivity.
  - intros p Hp. destruct (Z.le_gt_cases p 0) as [Hneg|Hpos].
    + destruct (PyFloat.of_int p) as [e|x] eqn:Hx.
      * right. split.
        -- destruct (Z.le_gt_cases p (- 2 ^ 53)) as [|Hgt]; [done|].
           destruct (of_int_exact p) as [f Hf]; [unfold exact_int; lia|congruence].
        -- unfold interval_sec_of. rewrite Hx. unfold PyFloat.of_int in Hx.
           by destruct (PyFloat.is_infinity _); simplify_eq.
      * left. by eapply interval_sec_of_neg.
    + left. apply interval_sec_of_small. lia.
  - apply interval_sec_of_whole_seconds.
  - apply interval_sec_of_rounding.
Qed.

(** C9. An actuator-capable pin without a pollingInterval gets the
    default 30000 ms, that is 30 seconds: its schedule entry, at the pin's
    position among the actuator pins, has the interval 29.0, which equals
    max(1, 30 - 1) = 29.  The schedule is built whenever the pollingInterval
    values that are present are 53-bit integers. *)
Theorem default_polling_interval (client_id : string) (pin_config : list pin)
    (w : world) (i : nat) (p : pin) :
  actuator_pins pin_config !! i = Some p ->
  pollingInterval p = None ->
  ((forall q z, q ∈ actuator_pins pin_config ->
                pollingInterval q = Some z -> exact_int z) ->
   exists acts w',
     run (build_actuators client_id pin_config []) w = (inr acts, w'))
  /\ (forall acts w',
        run (build_actuators client_id pin_config []) w = (inr acts, w') ->
        exists e,
          acts !! i = Some e
          /\ topic e = set_topic client_id p
          /\ interval e = PyFloat PyFloat.c29
          /\ py_eq (interval e) (PyInt (Z.max 1 (30 - 1))) = true).
Proof.
  intros Hi Hp. split; [apply run_build_actuators_total|].
  intros acts w' H%run_build_actuators_inv%mapM_inr_Forall2.
  destruct (Forall2_lookup_l _ _ _ _ _ H Hi) as (e & He & Hpe).
  exists e. split; [done|].
  rewrite entry_of_eq, Hp in Hpe. cbn [default] in Hpe.
  assert (interval_sec_of 30000 = inr (PyFloat PyFloat.c29)) as Hc
    by (vm_compute; reflexivity).
  rewrite Hc in Hpe. injection Hpe as <-. cbn [topic interval].
  split; [done|]. split; [done|]. vm_compute. reflexivity.
Qed.

(** *** The scheduling pass *)



Lemma add_console_nil (w : world) : add_console w [] = w.
Proof. destruct w. unfold add_console. cbn. by rewrite app_nil_r. Qed.

Lemma add_published_nil (w : world) : add_published w [] = w.
Proof. destruct w. unfold add_published. cbn. by rewrite app_nil_r. Qed.

Lemma add_published_app (w : world) (l k : list (string * string)) :
  add_published (add_published w l) k = add_published w (l ++ k).
Proof. unfold add_published. cbn. by rewrite app_assoc. Qed.

Lemma run_publish_if_due (now : spec_float) (e : entry) (w : world) :
  run (publish_if_due now e) w
  = match due now e with
    | inl x => (inl x, w)
    | inr false => (inr e, w)
    | inr true =>
        let w' := add_published w [(topic e, store_get (actuator_values w) (topic e))] in
        match pub_reply (length (published w)) with
        | Returned _ => (inr (mark_sent now e), w')
        | Raised x => (inl x, w')
        end
    end.
Proof.
  unfold publish_if_due. rewrite run_bind, run_lift.
  destruct (due now e) as [x|[]]; [done| |done].
  cbn. by destruct (pub_reply _).
Qed.


(** *** The start of [auto_publisher] *)


Lemma apply_writes_app (ws1 ws2 : list (string * string)) (m : gmap string string) :
  apply_writes (ws1 ++ ws2) m = apply_writes ws2 (apply_writes ws1 m).
Proof. unfold apply_writes. by rewrite foldl_app. Qed.



Lemma run_for_each_cons {A B : Type} (body : A -> prog B) (x : A) (xs : list A)
    (w : world) :
  run (for_each body (x :: xs)) w
  = match run (body x) w with
    | (inr y, w1) =>
        match run (for_each body xs) w1 with
        | (inr ys, w2) => (inr (y :: ys), w2)
        | (inl e, w2) => (inl e, w2)
        end
    | (inl e, w1) => (inl e, w1)
    end.
Proof.
  cbn [for_each]. rewrite run_bind.
  destruct (run (body x) w) as [[e|y] w1]; [done|].
  rewrite run_bind. by destruct (run (for_each body xs) w1) as [[e|ys] w2].
Qed.

Lemma run_pass_none_due (now : spec_float) (acts : list entry) (w : world) :
  Forall (fun e => due now e = inr false) acts ->
  run (scheduling_pass now acts) w = (inr acts, w).
Proof.
  unfold scheduling_pass. induction 1 as [|e acts He _ IH]; [done|].
  by rewrite run_for_each_cons, run_publish_if_due, He, IH.
Qed.


(** *** One turn of the command loop *)

Lemma parse_raises_ValueError (x : string) (e : exn) :
  PyInt.parse x = inl e -> e = ValueError.
Proof.
  unfold PyInt.parse.
  destruct (match PyStr.strip x with
            | String "-" r => (true, r)
            | String "+" r => (false, r)
            | _ => (false, PyStr.strip x)
            end) as [neg body].
  destruct (PyInt.scan body PyInt.Start 0 0) as [[v n]|]; [|congruence].
  destruct (PyInt.max_str_digits <? n)%nat; congruence.
Qed.

(** What one turn of the command loop does, case by case. *)
Lemma run_handle_command (manual_list : list manual) (line : string) (w : world) :
  run (handle_command manual_list line) w
  = if bool_decide (PyStr.lower (PyStr.strip line) = "q") then (inr Break, w)
    else
      match command_parts line with
      | [p0; value] =>
          match PyInt.parse p0 with
          | inl _ => (inr Continue, add_console w [msg_usage])
          | inr idx =>
              if (0 <=? idx) && (idx <? Z.of_nat (length manual_list)) then
                match manual_list !! Z.to_nat idx with
                | Some act =>
                    let t := m_topic act in
                    let w1 :=
                      add_published
                        (with_store w (store_set (actuator_values w) t value))
                        [(t, value)] in
                    match pub_reply (length (published w)) with
                    | Returned _ =>
                        (inr Continue, add_console w1 [msg_manual t value])
                    | Raised ValueError =>
                        (inr Continue, add_console w1 [msg_usage])
                    | Raised e => (inl e, w1)
                    end
                | None => (inl OtherError, w)
                end
              else (inr Continue, add_console w [msg_invalid_index])
          end
      | _ => (inr Continue, w)
      end.
Proof.
  unfold handle_command, command_parts.
  destruct (bool_decide (PyStr.lower (PyStr.strip line) = "q")); [done|].
  destruct (PyStr.split (PyStr.strip line)) as [|p0 [|value [|]]]; try done.
  destruct (PyInt.parse p0) as [e|idx] eqn:Hp.
  - apply parse_raises_ValueError in Hp as ->. reflexivity.
  - cbn. destruct ((0 <=? idx) && (idx <? Z.of_nat (length manual_list)));
      [|reflexivity].
    destruct (manual_list !! Z.to_nat idx) as [act|]; [|reflexivity].
    cbn. by destruct (pub_reply _) as [rc|[]].
Qed.

Lemma handle_command_rejected (manual_list : list manual) (line : string) :
  rejected manual_list line ->
  handle_command manual_list line = foldr Print (Done Continue) (report_of line).
Proof.
  intros [Hq Hbad]. unfold handle_command, report_of.
  rewrite bool_decide_eq_false_2 by done.
  fold (command_parts line).
  destruct (command_parts line) as [|p0 [|p1 [|]]] eqn:Hparts; try done.
  destruct (PyInt.parse p0) as [e|idx] eqn:Hp.
  - apply parse_raises_ValueError in Hp as ->. reflexivity.
  - cbn.
    destruct ((0 <=? idx) && (idx <? Z.of_nat (length manual_list))) eqn:Hr;
      [|reflexivity].
    exfalso. apply (Hbad p0 p1 idx eq_refl Hp).
    apply andb_true_iff in Hr as [H1%Z.leb_le H2%Z.ltb_lt]. lia.
Qed.

Lemma report_of_short (line : string) :
  report_of line = []
  \/ report_of line = [msg_invalid_index] \/ report_of line = [msg_usage].
Proof.
  unfold report_of. destruct (command_parts line) as [|p0 [|p1 [|]]]; auto.
  destruct (PyInt.parse p0); auto.
Qed.

(** [actuators_manual] lists the actuator pins in the order of the
    schedule, each with the set-topic of its schedule entry. *)
Lemma build_manual_topics (client_id : string) (pins : list pin) :
  m_topic <$> build_manual client_id pins
  = set_topic client_id <$> actuator_pins pins.
Proof.
  induction pins as [|p pins IH]; [done|].
  cbn [build_manual actuator_pins List.filter]. fold (actuator_pins pins).
  unfold is_actuator_mode at 1.
  destruct (decide (mode p = "FAN")) as [Hf|Hf].
  - rewrite (bool_decide_eq_true_2 (mode p = "FAN")) by done.
    rewrite bool_decide_eq_true_2 by (rewrite Hf; apply list_elem_of_here).
    cbn. by rewrite IH.
  - rewrite (bool_decide_eq_false_2 (mode p = "FAN")) by done.
    destruct (decide (mode p = "OUTPUT_DIGITAL")) as [Ho|Ho].
    + rewrite (bool_decide_eq_true_2 (mode p = "OUTPUT_DIGITAL")) by done.
      rewrite bool_decide_eq_true_2
        by (rewrite Ho; apply list_elem_of_further, list_elem_of_here).
      cbn. by rewrite IH.
    + rewrite (bool_decide_eq_false_2 (mode p = "OUTPUT_DIGITAL")) by done.
      rewrite bool_decide_eq_false_2; [done|].
      rewrite elem_of_cons, list_elem_of_singleton. tauto.
Qed.

Lemma add_subscribed_nil (w : world) : add_subscribed w [] = w.
Proof. destruct w. unfold add_subscribed. cbn. by rewrite app_nil_r. Qed.

Lemma run_subscribe_pin (client_id : string) (p : pin) (w : world) :
  (exists rc, sub_reply (length (subscribed w)) = Returned rc) ->
  exists w',
    run (subscribe_pin client_id p) w = (inr tt, w')
    /\ subscribed w'
       = (subscribed w ++ option_list (subscription_of client_id p))%list
    /\ actuator_values w' = actuator_values w
    /\ published w' = published w.
Proof.
  intros [rc Hrc]. unfold subscribe_pin, subscription_of.
  destruct (decide (mode p ∈ ["DS18B20"; "THERMOCOUPLE"])) as [H1|H1].
  { rewrite !(bool_decide_eq_true_2 _ H1). cbn. rewrite Hrc. by eexists. }
  rewrite !(bool_decide_eq_false_2 _ H1).
  destruct (decide (mode p = "FAN")) as [H2|H2].
  { rewrite (bool_decide_eq_true_2 _ H2).
    rewrite bool_decide_eq_true_2 by (rewrite H2; apply list_elem_of_here).
    cbn. rewrite Hrc. by eexists. }
  rewrite (bool_decide_eq_false_2 _ H2).
  destruct (decide (mode p = "OUTPUT_DIGITAL")) as [H3|H3].
  { rewrite (bool_decide_eq_true_2 _ H3).
    rewrite bool_decide_eq_true_2
      by (rewrite H3; apply list_elem_of_further, list_elem_of_here).
    cbn. rewrite Hrc. by eexists. }
  rewrite (bool_decide_eq_false_2 _ H3).
  rewrite bool_decide_eq_false_2
    by (rewrite elem_of_cons, list_elem_of_singleton; tauto).
  exists w. cbn. by rewrite app_nil_r.
Qed.

Lemma run_subscribe_pins (client_id : string) (pins : list pin) (w : world) :
  (forall k, exists rc, sub_reply k = Returned rc) ->
  exists us w',
    run (for_each (subscribe_pin client_id) pins) w = (inr us, w')
    /\ subscribed w'
       = (subscribed w ++ omap (subscription_of client_id) pins)%list
    /\ actuator_values w' = actuator_values w
    /\ published w' = published w.
Proof.
  intros Hrep. revert w. induction pins as [|p pins IH]; intros w.
  - exists [], w. cbn. by rewrite app_nil_r.
  - destruct (run_subscribe_pin client_id p w (Hrep _)) as (w1 & H1 & Hs1 & Hv1 & Hp1).
    destruct (IH w1) as (us & w2 & H2 & Hs2 & Hv2 & Hp2).
    exists (tt :: us), w2. cbn [for_each].
    rewrite run_bind, H1, run_bind, H2. split; [done|].
    rewrite Hs2, Hs1, Hv2, Hv1, Hp2, Hp1. split; [|done].
    rewrite <- app_assoc. f_equal.
    destruct (subscription_of client_id p) eqn:E; cbn; by rewrite E.
Qed.

(** What [on_connect] subscribes to.  On a successful connection, where
    the client's subscribe calls return, [on_connect] subscribes to the value
    topic of every DS18B20 and THERMOCOUPLE pin and to the state topic of
    every FAN and OUTPUT_DIGITAL pin, in topology order, each composed by
    the topic router; a pin of any other mode gets no subscription; and a
    failed connection subscribes to nothing. *)
Theorem on_connect_subscriptions (client_id : string) (pins : list pin)
    (w : world) :
  (forall k, exists rc, sub_reply k = Returned rc) ->
  let w' := (run (on_connect client_id pins 0) w).2 in
  (run (on_connect client_id pins 0) w).1 = inr tt
  /\ subscribed w'
     = (subscribed w ++ omap (subscription_of client_id) pins)%list
  /\ (forall p, p ∈ pins -> mode p ∈ ["DS18B20"; "THERMOCOUPLE"] ->
        topic_of client_id (get_topic_prefix (mode p)) (name p) "value"
        ∈ subscribed w')
  /\ (forall p, p ∈ pins -> mode p ∈ ["FAN"; "OUTPUT_DIGITAL"] ->
        topic_of client_id (get_topic_prefix (mode p)) (name p) "state"
        ∈ subscribed w')
  /\ (forall p, mode p ∉ ["DS18B20"; "THERMOCOUPLE"; "FAN"; "OUTPUT_DIGITAL"] ->
        subscription_of client_id p = None)
  /\ (forall rc, rc <> 0 ->
        subscribed (run (on_connect client_id pins rc) w).2 = subscribed w).
Proof.
  intros Hrep w'.
  assert ((run (on_connect client_id pins 0) w).1 = inr tt
          /\ subscribed w'
             = (subscribed w ++ omap (subscription_of client_id) pins)%list)
    as [Hres Hsub].
  { unfold w', on_connect. cbn [Z.eqb]. cbn [mbind prog_bind print bind].
    cbn [run].
    destruct (run_subscribe_pins client_id pins (add_console w [msg_connected]) Hrep)
      as (us & w2 & H2 & Hs2 & _).
    unfold add_console in H2. rewrite run_bind, H2. by cbn. }
  split; [done|]. split; [done|]. rewrite Hsub.
  split; [|split; [|split]].
  - intros p Hp Hm. apply elem_of_app. right.
    apply list_elem_of_omap. exists p. split; [done|].
    unfold subscription_of. by rewrite bool_decide_eq_true_2.
  - intros p Hp Hm. apply elem_of_app. right.
    apply list_elem_of_omap. exists p. split; [done|].
    unfold subscription_of.
    destruct (bool_decide (mode p ∈ ["DS18B20"; "THERMOCOUPLE"])) eqn:Hs.
    + apply bool_decide_eq_true in Hs. exfalso. revert Hm Hs.
      rewrite !elem_of_cons, !elem_of_nil. intros [-> | [-> | []]] [|[|[]]]; done.
    + by rewrite bool_decide_eq_true_2.
  - intros p Hm. unfold subscription_of.
    rewrite !bool_decide_eq_false_2; [done|..];
      intros H; apply Hm; revert H;
      rewrite !elem_of_cons, !elem_of_nil; tauto.
  - intros rc Hrc. unfold on_connect.
    by rewrite (proj2 (Z.eqb_neq rc 0) Hrc).
Qed.

Section Interleaving.

Variable client_id : string.
Variable pin_config : list pin.

Abbreviation sys_step := (step pub_reply sub_reply client_id pin_config).
Abbreviation sys_exec := (exec pub_reply sub_reply client_id pin_config).
Abbreviation sys_boot := (boot client_id pin_config).
Abbreviation sys_reachable := (reachable pub_reply sub_reply client_id pin_config).

(** *** The shape of the publisher's code *)

Lemma paired_head {A : Type} (pend : option (string * string)) (p : prog A) :
  paired pend p -> head_publish p = pend.
Proof. destruct p; cbn; intros H; by destruct_and?. Qed.

Lemma paired_bind {A B : Type} (pend : option (string * string))
    (p : prog A) (f : A -> prog B) :
  paired pend p -> (forall a, paired None (f a)) -> paired pend (p ≫= f).
Proof.
  intros Hp Hf. revert pend Hp.
  induction p as [a|e|t k IH|t v k IH|t v k IH|t k IH|l k IH]; intros pend; cbn.
  - intros ->. apply Hf.
  - done.
  - intros [-> H]. split; [done|]. intros v. apply IH, H.
  - intros [-> H]. split; [done|]. apply IH, H.
  - intros [-> H]. split; [done|]. intros r. apply IH, H.
  - intros [-> H]. split; [done|]. intros r. apply IH, H.
  - intros [-> H]. split; [done|]. apply IH, H.
Qed.

Lemma paired_publish_if_due (now : spec_float) (e : entry) :
  paired None (publish_if_due now e).
Proof.
  unfold publish_if_due. destruct (due now e) as [x|[]]; cbn; [done| |done].
  split; [done|]. intros v. split; [done|]. by intros [rc|x].
Qed.

Lemma paired_scheduling_pass (now : spec_float) (acts : list entry) :
  paired None (scheduling_pass now acts).
Proof.
  unfold scheduling_pass. induction acts as [|e acts IH]; [done|].
  cbn [for_each]. apply paired_bind; [apply paired_publish_if_due|].
  intros y. apply paired_bind; [exact IH|done].
Qed.

Lemma paired_build_actuators (cid : string) (pins : list pin) (acts : list entry) :
  paired None (build_actuators cid pins acts).
Proof.
  revert acts. induction pins as [|p pins IH]; intros acts; [done|].
  cbn [build_actuators]. destruct (is_actuator_mode (mode p)); [|apply IH].
  cbn. split; [done|]. destruct (interval_sec_of _); cbn; [done|apply IH].
Qed.

Lemma paired_auto_publisher_start (cid : string) (pins : list pin) :
  paired None (auto_publisher_start cid pins).
Proof.
  unfold auto_publisher_start. apply paired_bind; [apply paired_build_actuators|].
  by intros acts.
Qed.

Lemma settle_auto_inv (pend : option (string * string)) (p : prog (list entry)) :
  paired pend p ->
  auto_inv (settle_auto p) /\ pending_publish (settle_auto p) = pend.
Proof.
  intros H. pose proof (paired_head _ _ H) as Hh.
  destruct p; cbn in *; eauto; by destruct_and?.
Qed.

Lemma step_main_input (line : string) (s : system) :
  main s = MWaiting ->
  sys_step (MainInput line) s
  = settle_main (handle_command (build_manual client_id pin_config) line) s.
Proof. intros H. unfold step. rewrite H. by destruct (auto s). Qed.

Lemma step_main_step (p : prog loop_ctl) (s : system) :
  main s = MRunning p ->
  sys_step MainStep s
  = match step1 pub_reply sub_reply p (shared s) with
    | Some (ev, p', w') =>
        settle_main p'
          {| shared := w'; auto := auto s; main := main s;
             stop_event := stop_event s; trace := trace s ++ [(Main, ev)] |}
    | None => s
    end.
Proof. intros H. unfold step. rewrite H. by destruct (auto s). Qed.

Lemma step_main_idle (s : system) : main s = MWaiting -> sys_step MainStep s = s.
Proof. intros H. unfold step. rewrite H. by destruct (auto s). Qed.

(** C5, as the code has it.  An ASCII line that is not carried out (a bad
    index, a non-numeric index, or not two words) leaves the store and the
    published messages as they were and the command loop goes on to its next
    turn; in any interleaving the main thread is back at its prompt after at
    most one action (the [print]) and the publisher thread is not touched.
    A bad index prints the invalid-index line and a non-numeric index the
    usage line; a line that is not two words prints nothing. *)
Theorem rejected_command_discarded (line : string) (w : world) (s : system) :
  PyStr.is_ascii line = true ->
  rejected (build_manual client_id pin_config) line ->
  main s = MWaiting ->
  run (handle_command (build_manual client_id pin_config) line) w
  = (inr Continue, add_console w (report_of line))
  /\ (length (command_parts line) <> 2%nat -> report_of line = [])
  /\ (forall p0 p1, command_parts line = [p0; p1] ->
        report_of line
        = [match PyInt.parse p0 with
           | inr _ => msg_invalid_index
           | inl _ => msg_usage
           end])
  /\ (let s' := sys_exec [MainInput line; MainStep] s in
      main s' = MWaiting
      /\ auto s' = auto s
      /\ stop_event s' = stop_event s
      /\ shared s' = add_console (shared s) (report_of line)).
Proof.
  intros _ Hrej Hmain. pose proof (handle_command_rejected _ _ Hrej) as Hshape.
  split; [|split; [|split]].
  - rewrite Hshape.
    destruct (report_of_short line) as [-> | [-> | ->]]; cbn;
      [by rewrite add_console_nil|done..].
  - unfold report_of. by destruct (command_parts line) as [|p0 [|p1 [|]]].
  - intros p0 p1 Hparts. unfold report_of. rewrite Hparts.
    by destruct (PyInt.parse p0).
  - cbn [exec foldl]. rewrite step_main_input, Hshape by done.
    destruct (report_of_short line) as [-> | [-> | ->]]; cbn [foldr].
    + rewrite step_main_idle by done. cbn. by rewrite add_console_nil.
    + by erewrite step_main_step by done.
    + by erewrite step_main_step by done.
Qed.

(** *** One step of the two threads *)

Lemma settle_main_fields (p : prog loop_ctl) (s : system) :
  auto (settle_main p s) = auto s
  /\ shared (settle_main p s) = shared s
  /\ trace (settle_main p s) = trace s.
Proof. by destruct p as [[]| | | | | |]. Qed.

Lemma step1_store {A : Type} (p p' : prog A) (w w' : world) (ev : event) (t : string) :
  step1 pub_reply sub_reply p w = Some (ev, p', w') ->
  (forall y, ev <> EvSet t y) ->
  store_get (actuator_values w') t = store_get (actuator_values w) t.
Proof.
  destruct p as [a|e|t0 k|t0 v k|t0 v k|t0 k|l k]; cbn; intros H Hev;
    simplify_eq; cbn; try done.
  unfold store_get, store_set. rewrite lookup_insert_ne; [done|].
  intros ->. by apply (Hev v).
Qed.

Lemma step1_paired {A : Type} (pend : option (string * string))
    (p p' : prog A) (w w' : world) (ev : event) :
  paired pend p ->
  step1 pub_reply sub_reply p w = Some (ev, p', w') ->
  (exists pend', paired pend' p')
  /\ (forall t x, ev = EvPublish t x -> head_publish p = Some (t, x))
  /\ (forall t x, head_publish p' = Some (t, x) ->
        ev = EvGet t x /\ x = store_get (actuator_values w) t).
Proof.
  destruct p as [a|e|t0 k|t0 v k|t0 v k|t0 k|l k]; cbn; intros Hp H;
    simplify_eq; destruct Hp as [-> Hk].
  - split; [eauto|]. split; [done|]. intros t x Hh.
    rewrite (paired_head _ _ (Hk _)) in Hh. by simplify_eq.
  - split; [eauto|]. split; [done|]. intros t x Hh.
    rewrite (paired_head _ _ Hk) in Hh. done.
  - split; [eauto|]. split; [by intros ?? [= <- <-]|]. intros t x Hh.
    rewrite (paired_head _ _ (Hk _)) in Hh. done.
  - split; [eauto|]. split; [done|]. intros t x Hh.
    rewrite (paired_head _ _ (Hk _)) in Hh. done.
  - split; [eauto|]. split; [done|]. intros t x Hh.
    rewrite (paired_head _ _ Hk) in Hh. done.
Qed.

Lemma step_died (l : label) (s : system) (e : exn) :
  main s = MDied e -> sys_step l s = s.
Proof. intros H. unfold step. rewrite H. by destruct l, (auto s). Qed.

Lemma step_auto_clock (now : spec_float) (s : system) :
  (forall e, main s <> MDied e) ->
  sys_step (AutoClock now) s
  = match auto s with
    | AWaiting actuators =>
        {| shared := shared s;
           auto := if stop_event s then AExited
                   else settle_auto (scheduling_pass now actuators);
           main := main s; stop_event := stop_event s; trace := trace s |}
    | _ => s
    end.
Proof.
  intros H. unfold step. destruct (main s) eqn:Hm; destruct (auto s); try done.
  by destruct (H e).
Qed.

Lemma step_auto_step (s : system) :
  (forall e, main s <> MDied e) ->
  sys_step AutoStep s
  = match auto s with
    | ARunning p =>
        match step1 pub_reply sub_reply p (shared s) with
        | Some (ev, p', w') =>
            {| shared := w'; auto := settle_auto p'; main := main s;
               stop_event := stop_event s; trace := trace s ++ [(Auto, ev)] |}
        | None => s
        end
    | _ => s
    end.
Proof.
  intros H. unfold step. destruct (main s) eqn:Hm; destruct (auto s); try done.
  by destruct (H e).
Qed.

Lemma step_main_input_eq (line : string) (s : system) :
  sys_step (MainInput line) s
  = match main s with
    | MWaiting =>
        settle_main (handle_command (build_manual client_id pin_config) line) s
    | _ => s
    end.
Proof. unfold step. by destruct (main s), (auto s). Qed.

Lemma step_main_step_eq (s : system) :
  sys_step MainStep s
  = match main s with
    | MRunning p =>
        match step1 pub_reply sub_reply p (shared s) with
        | Some (ev, p', w') =>
            settle_main p'
              {| shared := w'; auto := auto s; main := main s;
                 stop_event := stop_event s; trace := trace s ++ [(Main, ev)] |}
        | None => s
        end
    | MStopping => main_print msg_stopping MSetStop s
    | MSetStop =>
        {| shared := shared s; auto := auto s; main := MJoining;
           stop_event := true; trace := trace s |}
    | MJoining =>
        match auto s with
        | AExited | ADied _ =>
            {| shared := shared s; auto := auto s; main := MLeaving;
               stop_event := stop_event s; trace := trace s |}
        | _ => s
        end
    | MLeaving => main_print msg_disconnected MExited s
    | _ => s
    end.
Proof. unfold step. by destruct (main s), (auto s). Qed.

Lemma quiet_step_refl (s : system) : quiet_step s s.
Proof. unfold quiet_step. auto. Qed.

Lemma died_or_alive (s : system) :
  (exists e, main s = MDied e) \/ (forall e, main s <> MDied e).
Proof. destruct (main s); eauto. Qed.

Lemma effect_auto_clock (now : spec_float) (s : system) :
  auto_inv (auto s) ->
  auto_inv (auto (sys_step (AutoClock now) s))
  /\ quiet_step s (sys_step (AutoClock now) s).
Proof.
  intros Hinv. destruct (died_or_alive s) as [[e He]|Halive].
  { rewrite (step_died _ s e He). split; [done|apply quiet_step_refl]. }
  rewrite (step_auto_clock _ _ Halive).
  destruct (auto s) as [pa|acts| |ea] eqn:Ha;
    try (split; [by rewrite Ha|apply quiet_step_refl]).
  unfold quiet_step. cbn. destruct (stop_event s); [by auto|].
  destruct (settle_auto_inv None (scheduling_pass now acts)
              (paired_scheduling_pass now acts)) as [Hi Hp].
  auto.
Qed.

Lemma effect_auto_step (s : system) :
  auto_inv (auto s) ->
  auto_inv (auto (sys_step AutoStep s))
  /\ (quiet_step s (sys_step AutoStep s)
      \/ exists ev, auto_step s (sys_step AutoStep s) ev).
Proof.
  intros Hinv. destruct (died_or_alive s) as [[e He]|Halive].
  { rewrite (step_died _ s e He). split; [done|left; apply quiet_step_refl]. }
  rewrite (step_auto_step _ Halive).
  destruct (auto s) as [pa|acts| |ea] eqn:Ha;
    try (split; [by rewrite Ha|left; apply quiet_step_refl]).
  destruct Hinv as [pend Hpend].
  destruct (step1 pub_reply sub_reply pa (shared s))
    as [[[ev p'] w']|] eqn:Hstep;
    [|split; [rewrite Ha; cbn; eauto|left; apply quiet_step_refl]].
  destruct (step1_paired _ _ _ _ _ _ Hpend Hstep)
    as ([pend' Hpend'] & Hpub & Hget).
  destruct (settle_auto_inv _ _ Hpend') as [Hi Hp].
  split; [done|]. right. exists ev. unfold auto_step. cbn. rewrite Ha. cbn.
  split; [done|]. split; [intros t Ht; by eapply step1_store|].
  split; [done|]. intros t x. rewrite Hp. intros Hx.
  apply Hget. by rewrite (paired_head _ _ Hpend').
Qed.

Lemma effect_main_input (line : string) (s : system) :
  auto_inv (auto s) ->
  auto_inv (auto (sys_step (MainInput line) s))
  /\ quiet_step s (sys_step (MainInput line) s).
Proof.
  intros Hinv. rewrite step_main_input_eq.
  destruct (main s); try (split; [done|apply quiet_step_refl]).
  destruct (settle_main_fields
              (handle_command (build_manual client_id pin_config) line) s)
    as (Ea & Es & Et).
  unfold quiet_step. rewrite Ea, Es, Et. auto.
Qed.

Lemma effect_main_step (s : system) :
  auto_inv (auto s) ->
  auto_inv (auto (sys_step MainStep s))
  /\ (quiet_step s (sys_step MainStep s)
      \/ exists ev, main_step s (sys_step MainStep s) ev).
Proof.
  intros Hinv. rewrite step_main_step_eq.
  destruct (main s) as [|pm| | | | | |em];
    try (split; [done|left; apply quiet_step_refl]).
  - destruct (step1 pub_reply sub_reply pm (shared s))
      as [[[ev p'] w']|] eqn:Hstep;
      [|split; [done|left; apply quiet_step_refl]].
    match goal with
    | |- context [settle_main p' ?s'] =>
        destruct (settle_main_fields p' s') as (Ea & Es & Et)
    end.
    split; [by rewrite Ea|]. right. exists ev.
    unfold main_step. rewrite Ea, Es, Et. cbn.
    split; [done|]. split; [done|]. intros t Ht. by eapply step1_store.
  - split; [done|]. right. by exists (EvPrint msg_stopping).
  - split; [done|]. left. unfold quiet_step. cbn. auto.
  - destruct (auto s) as [pa|acts| |ea] eqn:Ha;
      (split; [by rewrite ?Ha|left; unfold quiet_step; cbn; auto]).
  - split; [done|]. right. by exists (EvPrint msg_disconnected).
Qed.

Lemma step_effect (l : label) (s : system) :
  auto_inv (auto s) ->
  auto_inv (auto (sys_step l s))
  /\ (quiet_step s (sys_step l s)
      \/ (exists ev, main_step s (sys_step l s) ev)
      \/ (exists ev, auto_step s (sys_step l s) ev)).
Proof.
  intros Hinv. destruct l as [now| |line|].
  - destruct (effect_auto_clock now s Hinv); auto.
  - destruct (effect_auto_step s Hinv) as [? [|]]; auto.
  - destruct (effect_main_input line s Hinv); auto.
  - destruct (effect_main_step s Hinv) as [? [|]]; auto.
Qed.

(** *** Runs *)

Lemma boot_inv : auto_inv (auto sys_boot).
Proof.
  apply (settle_auto_inv None), paired_auto_publisher_start.
Qed.

Lemma exec_cons (l : label) (ls : list label) (s : system) :
  sys_exec (l :: ls) s = sys_exec ls (sys_step l s).
Proof. reflexivity. Qed.

Lemma exec_inv (ls : list label) (s : system) :
  auto_inv (auto s) ->
  auto_inv (auto (sys_exec ls s))
  /\ exists rest, trace (sys_exec ls s) = (trace s ++ rest)%list.
Proof.
  revert s. induction ls as [|l ls IH]; intros s Hinv.
  - split; [done|]. exists []. cbn. by rewrite app_nil_r.
  - destruct (step_effect l s Hinv) as [Hinv1 Heff].
    destruct (IH _ Hinv1) as [Hinv2 [rest Hrest]].
    rewrite exec_cons. split; [exact Hinv2|]. rewrite Hrest.
    destruct Heff as [(-> & _)|[[ev (-> & _)]|[ev (-> & _)]]];
      rewrite <- ?app_assoc; eauto.
Qed.

Lemma reachable_inv (s : system) : sys_reachable s -> auto_inv (auto s).
Proof. intros [ls ->]. apply exec_inv, boot_inv. Qed.

(** After a write of [v] on [t], what the publisher publishes on [t]. *)
Lemma override_core (ls : list label) (s : system) (t v : string)
    (rest pre post : list (tid * event)) (x : string) :
  auto_inv (auto s) ->
  store_get (actuator_values (shared s)) t = v ->
  trace (sys_exec ls s) = (trace s ++ rest)%list ->
  rest = (pre ++ (Auto, EvPublish t x) :: post)%list ->
  (forall u y, (u, EvSet t y) ∉ pre) ->
  x = v \/ (pending_publish (auto s) = Some (t, x) /\ forall ev, (Auto, ev) ∉ pre).
Proof.
  revert s rest pre. induction ls as [|l ls IH]; intros s rest pre Hinv Hv Htr -> Hset.
  { cbn in Htr. rewrite <- (app_nil_r (trace s)) in Htr at 1.
    apply app_inv_head in Htr. by destruct pre. }
  destruct (step_effect l s Hinv) as [Hinv1 Heff].
  destruct (exec_inv ls _ Hinv1) as [_ [rest1 Hrest1]].
  rewrite exec_cons, Hrest1 in Htr.
  destruct Heff as [(Ht & Hs & Ha)|[[ev (Ht & Ha & Hs)]|[ev (Ht & Hs & Hpub & Hget)]]];
    rewrite Ht in Htr.
  - (* nothing observed *)
    apply app_inv_head in Htr. subst rest1.
    destruct (IH _ _ pre Hinv1 ltac:(by unfold store_get; rewrite Hs) Hrest1 eq_refl Hset)
      as [|[Hp Hno]]; [by left|].
    destruct Ha as [Ha|Ha]; [|by rewrite Ha in Hp].
    right. by rewrite <- Ha.
  - (* an action of the main thread *)
    rewrite <- app_assoc in Htr. apply app_inv_head in Htr. cbn in Htr.
    destruct pre as [|e pre]; [by simplify_eq|].
    cbn in Htr. injection Htr as <- ->.
    assert (forall y, ev <> EvSet t y) as Hev.
    { intros y ->. apply (Hset Main y), list_elem_of_here. }
    destruct (IH _ _ pre Hinv1 ltac:(by rewrite Hs) Hrest1 eq_refl) as [|[Hp Hno]].
    { intros u y Hin. apply (Hset u y). by apply list_elem_of_further. }
    { by left. }
    right. rewrite <- Ha. split; [done|].
    intros ev' [Heq|Hin]%elem_of_cons; [discriminate Heq|]. by apply (Hno ev').
  - (* an action of the publisher thread *)
    rewrite <- app_assoc in Htr. apply app_inv_head in Htr. cbn in Htr.
    destruct pre as [|e pre].
    { cbn in Htr. injection Htr as -> _. right. split; [by apply Hpub|].
      intros ev. apply not_elem_of_nil. }
    cbn in Htr. injection Htr as <- ->.
    assert (forall y, ev <> EvSet t y) as Hev.
    { intros y ->. apply (Hset Auto y), list_elem_of_here. }
    destruct (IH _ _ pre Hinv1 ltac:(by rewrite Hs) Hrest1 eq_refl) as [|[Hp Hno]].
    { intros u y Hin. apply (Hset u y). by apply list_elem_of_further. }
    { by left. }
    left. destruct (Hget _ _ Hp) as [_ ->]. done.
Qed.

(** C4, as the code has it.  In every state the two threads can reach:
    once the store holds [v] for a topic, every message the publisher
    thread publishes on that topic, before the entry is written again,
    carries [v] -- except the publish that was already in flight (its value
    had been read from the store before, and it is the publisher's very
    next action). *)
Theorem override_until_overwritten (s : system) (t v x : string)
    (ls : list label) (pre post : list (tid * event)) :
  sys_reachable s ->
  store_get (actuator_values (shared s)) t = v ->
  drop (length (trace s)) (trace (sys_exec ls s))
  = (pre ++ (Auto, EvPublish t x) :: post)%list ->
  (forall u y, (u, EvSet t y) ∉ pre) ->
  x = v
  \/ (pending_publish (auto s) = Some (t, x) /\ forall ev, (Auto, ev) ∉ pre).
Proof.
  intros Hinv%reachable_inv Hv Hdrop Hset.
  destruct (exec_inv ls s Hinv) as [_ [rest Hrest]].
  rewrite Hrest, drop_app_length in Hdrop.
  by eapply override_core.
Qed.

(** *** The store under interleaving *)

Lemma step1_performed {A : Type} (u : tid) (p p' : prog A) (w w' : world)
    (ev : event) :
  step1 pub_reply sub_reply p w = Some (ev, p', w') ->
  actuator_values w' = apply_writes (writes_of [(u, ev)]) (actuator_values w)
  /\ forall t x, ev = EvGet t x -> x = store_get (actuator_values w) t.
Proof.
  destruct p as [a|e|t0 k|t0 v k|t0 v k|t0 k|l k]; cbn; intros H;
    simplify_eq; cbn; split; try done.
  by intros t x [= <- <-].
Qed.

Lemma step_performed (l : label) (s : system) :
  (trace (sys_step l s) = trace s
   /\ actuator_values (shared (sys_step l s)) = actuator_values (shared s))
  \/ exists u ev, performed s (sys_step l s) u ev.
Proof.
  destruct (died_or_alive s) as [[e He]|Halive].
  { rewrite (step_died _ s e He). by left. }
  destruct l as [now| |line|].
  - rewrite (step_auto_clock _ _ Halive). left. by destruct (auto s).
  - rewrite (step_auto_step _ Halive).
    destruct (auto s) as [pa|acts| |ea]; try by left.
    destruct (step1 pub_reply sub_reply pa (shared s))
      as [[[ev p'] w']|] eqn:Hstep; [|by left].
    right. exists Auto, ev. unfold performed. cbn.
    split; [done|]. exact (step1_performed Auto _ _ _ _ _ Hstep).
  - rewrite step_main_input_eq. left.
    destruct (main s); try done.
    by destruct (settle_main_fields
                   (handle_command (build_manual client_id pin_config) line) s)
      as (_ & -> & ->).
  - rewrite step_main_step_eq.
    destruct (main s) as [|pm| | | | | |em]; try by left.
    + destruct (step1 pub_reply sub_reply pm (shared s))
        as [[[ev p'] w']|] eqn:Hstep; [|by left].
      right. exists Main, ev. unfold performed.
      match goal with
      | |- context [settle_main p' ?s'] =>
          destruct (settle_main_fields p' s') as (_ & -> & ->)
      end.
      cbn. split; [done|]. exact (step1_performed Main _ _ _ _ _ Hstep).
    + right. by exists Main, (EvPrint msg_stopping).
    + left. by destruct (auto s).
    + right. by exists Main, (EvPrint msg_disconnected).
Qed.

Lemma writes_of_app (tr1 tr2 : list (tid * event)) :
  writes_of (tr1 ++ tr2) = (writes_of tr1 ++ writes_of tr2)%list.
Proof. unfold writes_of. apply omap_app. Qed.

Lemma snoc_split {A : Type} (pre post tr : list A) (a e : A) :
  (pre ++ a :: post)%list = (tr ++ [e])%list ->
  (post = [] /\ pre = tr /\ a = e)
  \/ exists post', post = (post' ++ [e])%list /\ tr = (pre ++ a :: post')%list.
Proof.
  destruct post as [|z post _] using rev_ind.
  - intros H. apply app_inj_tail in H as [-> ->]. by left.
  - intros H. rewrite app_comm_cons, app_assoc in H.
    apply app_inj_tail in H as [<- ->]. right. by eexists.
Qed.

Lemma step_store_follows_trace (l : label) (s : system) :
  store_follows_trace s -> store_follows_trace (sys_step l s).
Proof.
  intros [Hst Hrd].
  destruct (step_performed l s) as [[Ht Hv]|(u & ev & Ht & Hv & Hget)].
  { unfold store_follows_trace. by rewrite Ht, Hv. }
  split.
  - by rewrite Hv, Ht, writes_of_app, apply_writes_app, <- Hst.
  - intros pre u' t x post. rewrite Ht. intros H. symmetry in H.
    apply snoc_split in H as [(-> & -> & [= <- <-])|(post' & -> & Htr)].
    + rewrite <- Hst. by apply Hget.
    + by eapply Hrd.
Qed.

Lemma boot_store_follows_trace : store_follows_trace sys_boot.
Proof. split; [done|]. by intros [|??] ?????. Qed.

Lemma reachable_store_follows_trace (s : system) :
  sys_reachable s -> store_follows_trace s.
Proof.
  intros [ls ->]. generalize boot_store_follows_trace. generalize sys_boot.
  induction ls as [|l ls IH]; intros s0 H0; [done|].
  rewrite exec_cons. by apply IH, step_store_follows_trace.
Qed.


End Interleaving.

End Properties.

(** ** The scenario, evaluated *)

Lemma relay1_exact (p : pin) (z : Z) :
  p ∈ actuator_pins [relay1; fan1] -> pollingInterval p = Some z -> exact_int z.
Proof.
  change (actuator_pins [relay1; fan1]) with [relay1; fan1].
  rewrite elem_of_cons, list_elem_of_singleton. intros [-> | ->]; cbn.
  - intros [= <-]. unfold exact_int. lia.
  - done.
Qed.

Lemma schedule_interval_formula_witness :
  (exists acts w',
     run always_ok always_ok (build_actuators "dev1" [relay1; fan1] []) world0
     = (inr acts, w'))
  /\ (interval_sec_of 999 = inr (PyInt 1)
      \/ (999 <= - 2 ^ 53 /\ interval_sec_of 999 = inl OverflowError))
  /\ exists v, interval_sec_of (1000 * 5) = inr v
               /\ py_eq v (PyInt (Z.max 1 (5 - 1))) = true.
Proof.
  destruct (schedule_interval_formula always_ok always_ok "dev1" [relay1; fan1] world0)
    as (_ & Htot & _ & _ & _ & Hfloor & Hsec & _).
  split; [apply Htot, relay1_exact|].
  split; [apply Hfloor; lia|apply Hsec; lia].
Defined.

Lemma default_polling_interval_witness :
  exists acts w' e,
    run always_ok always_ok (build_actuators "dev1" [relay1; fan1] []) world0
    = (inr acts, w')
    /\ acts !! 1%nat = Some e
    /\ interval e = PyFloat PyFloat.c29.
Proof.
  destruct (default_polling_interval always_ok always_ok "dev1" [relay1; fan1]
              world0 1 fan1 eq_refl eq_refl) as [Htot Hent].
  destruct (Htot relay1_exact) as (acts & w' & Hrun).
  destruct (Hent acts w' Hrun) as (e & He & _ & Hiv & _).
  by exists acts, w', e.
Defined.



(** C5, the counterexample: the line "hello" is not a command, the loop
    goes on, and nothing at all is printed for it. *)
Lemma malformed_command_silent :
  rejected (build_manual "dev1" [relay1]) "hello"
  /\ run always_ok always_ok
       (handle_command (build_manual "dev1" [relay1]) "hello") world0
     = (inr Continue, world0)
  /\ console world0 = [].
Proof.
  split; [|split; [vm_compute; reflexivity|reflexivity]].
  split; [vm_compute; discriminate|].
  intros p0 p1 idx H. vm_compute in H. discriminate H.
Qed.

Lemma bad_index_rejected : rejected (build_manual "dev1" [relay1]) "7 1".
Proof.
  split; [vm_compute; discriminate|].
  intros p0 p1 idx H Hp. vm_compute in H. injection H as <- <-.
  vm_compute in Hp. injection Hp as <-.
  intros [_ Hlt]. vm_compute in Hlt. discriminate Hlt.
Defined.

Lemma rejected_command_discarded_witness :
  run always_ok always_ok
    (handle_command (build_manual "dev1" [relay1]) "7 1") world0
  = (inr Continue, add_console world0 (report_of "7 1"))
  /\ report_of "7 1" = [msg_invalid_index].
Proof.
  destruct (rejected_command_discarded always_ok always_ok "dev1" [relay1] "7 1"
              world0 (boot "dev1" [relay1]) eq_refl bad_index_rejected eq_refl)
    as (Hrun & _ & Hrep & _).
  split; [exact Hrun|]. exact (Hrep "7" "1" eq_refl).
Defined.

(** C6. The code at a topology with one sensor pin: DHT22_SENSOR is a
    mode of the router's table, and a client connected with such a pin
    subscribes to nothing, although [on_connect] announces that it
    subscribes to all sensor topics. *)
Lemma sensor_pin_not_subscribed :
  mode_map !! mode room_sensor = Some "dht22"
  /\ subscribed
       (run always_ok always_ok (on_connect "dev1" [room_sensor] 0) world0).2
     = [].
Proof. split; vm_compute; reflexivity. Qed.

Lemma on_connect_subscriptions_witness :
  subscribed
    (run always_ok always_ok (on_connect "dev1" [relay1; room_sensor; fan1] 0) world0).2
  = ["/dev1/digital_output/relay1/state"; "/dev1/fan/fan1/state"].
Proof.
  destruct (on_connect_subscriptions always_ok always_ok "dev1"
              [relay1; room_sensor; fan1] world0) as (_ & Hsub & _).
  - intros k. by exists 0.
  - rewrite Hsub. vm_compute. reflexivity.
Defined.

(** C4, the counterexample: the operator's write of 42 is followed, with
    no other write in between, by a scheduled publish of the older value 0
    on the same topic: the publisher had read the store just before the
    write and publishes what it read. *)
Lemma stale_publish_after_override :
  exists pre mid post,
    trace (exec always_ok always_ok "dev1" [relay1] race_schedule
             (boot "dev1" [relay1]))
    = (pre ++ (Main, EvSet relay1_topic "42")
           :: mid ++ (Auto, EvPublish relay1_topic "0") :: post)%list
    /\ (forall u y, (u, EvSet relay1_topic y) ∉ mid)
    /\ "0" <> "42".
Proof.
  exists [(Auto, EvSet relay1_topic "0");
          (Auto, EvPrint "   🔄 Auto-publisher started for 1 actuators");
          (Auto, EvGet relay1_topic "0")],
         [(Main, EvPublish relay1_topic "42");
          (Main, EvPrint (msg_manual relay1_topic "42"))],
         [].
  split; [vm_compute; reflexivity|]. split; [|discriminate].
  intros u y. rewrite !elem_of_cons, elem_of_nil. intros [H|[H|[]]]; discriminate H.
Qed.

Lemma override_until_overwritten_witness :
  "42" = "42"
  \/ (pending_publish
        (auto (exec always_ok always_ok "dev1" [relay1] calm_schedule_1
                 (boot "dev1" [relay1])))
      = Some (relay1_topic, "42")
      /\ forall ev,
           (Auto, ev) ∉ [(Main, EvPublish relay1_topic "42");
                         (Main, EvPrint (msg_manual relay1_topic "42"));
                         (Auto, EvGet relay1_topic "42")]).
Proof.
  apply (override_until_overwritten always_ok always_ok "dev1" [relay1]
           (exec always_ok always_ok "dev1" [relay1] calm_schedule_1
              (boot "dev1" [relay1]))
           relay1_topic "42" "42" calm_schedule_2 _ []).
  - by exists calm_schedule_1.
  - vm_compute. reflexivity.
  - vm_compute. reflexivity.
  - intros u y. rewrite !elem_of_cons, elem_of_nil.
    intros [H|[H|[H|[]]]]; discriminate H.
Defined.


(** * More of the code *)

(** ** The topic router, the schedule and the manual list *)

Lemma lower_char_ascii (c : ascii) :
  (nat_of_ascii c <? 128)%nat = true ->
  (nat_of_ascii (PyStr.lower_char c) <? 128)%nat = true.
Proof. by destruct c as [[] [] [] [] [] [] [] []]. Qed.

Lemma lower_is_ascii (s : string) :
  PyStr.is_ascii s = true -> PyStr.is_ascii (PyStr.lower s) = true.
Proof.
  induction s as [|c s IH]; [done|]. cbn [PyStr.is_ascii PyStr.lower].
  intros [Hc Hs]%andb_true_iff. by rewrite (lower_char_ascii c Hc), (IH Hs).
Qed.

Lemma mode_table_plain :
  Forall (fun kv => PyStr.is_ascii kv.2 = true /\ PyStr.has_upper kv.2 = false)
    mode_table.
Proof. repeat constructor. Qed.

(** X1. For every ASCII mode the prefix [get_topic_prefix] returns is an
    ASCII string without any upper-case letter, whether the mode is one
    of the table or not. *)
Theorem prefix_is_lower_case (m : string) :
  PyStr.is_ascii m = true ->
  PyStr.is_ascii (get_topic_prefix m) = true
  /\ PyStr.has_upper (get_topic_prefix m) = false.
Proof.
  intros Hm. unfold get_topic_prefix, mode_map.
  destruct (list_to_map (M:=gmap string string) mode_table !! m) as [p|] eqn:Hp; cbn.
  - apply elem_of_list_to_map_2 in Hp.
    by apply (proj1 (Forall_forall _ _) mode_table_plain (m, p)).
  - split; [by apply lower_is_ascii|apply lower_has_no_upper].
Qed.

Lemma py_max_1_ge (y : spec_float) :
  py_ge (py_max (PyInt 1) (PyFloat y)) (PyInt 1) = true.
Proof.
  unfold py_max, py_gt.
  destruct (PyFloat.compare_int y 1) as [[]|] eqn:Hc; cbn; by rewrite ?Hc.
Qed.

Lemma interval_sec_of_ge_1 (p : Z) (v : PyNum) :
  interval_sec_of p = inr v -> py_ge v (PyInt 1) = true.
Proof.
  unfold interval_sec_of. destruct (PyFloat.of_int p) as [e|x]; [done|].
  cbn. intros [= <-]. apply py_max_1_ge.
Qed.

Lemma entry_of_ge_1 (client_id : string) (p : pin) (e : entry) :
  entry_of client_id p = inr e -> py_ge (interval e) (PyInt 1) = true.
Proof.
  rewrite entry_of_eq. destruct (interval_sec_of _) as [x|v] eqn:Hv; [done|].
  intros [= <-]. by eapply interval_sec_of_ge_1.
Qed.

Lemma build_manual_eq (client_id : string) (pins : list pin) :
  build_manual client_id pins = manual_of client_id <$> actuator_pins pins.
Proof.
  induction pins as [|p pins IH]; [done|].
  cbn [build_manual actuator_pins List.filter]. fold (actuator_pins pins).
  unfold is_actuator_mode at 1.
  destruct (decide (mode p = "FAN")) as [Hf|Hf].
  - rewrite (bool_decide_eq_true_2 (mode p = "FAN")) by done.
    rewrite bool_decide_eq_true_2 by (rewrite Hf; apply list_elem_of_here).
    rewrite fmap_cons, IH. f_equal.
    unfold manual_of, set_topic. by rewrite bool_decide_eq_true_2.
  - rewrite (bool_decide_eq_false_2 (mode p = "FAN")) by done.
    destruct (decide (mode p = "OUTPUT_DIGITAL")) as [Ho|Ho].
    + rewrite (bool_decide_eq_true_2 (mode p = "OUTPUT_DIGITAL")) by done.
      rewrite bool_decide_eq_true_2
        by (rewrite Ho; apply list_elem_of_further, list_elem_of_here).
      rewrite fmap_cons, IH. f_equal.
      unfold manual_of, set_topic. by rewrite bool_decide_eq_false_2.
    + rewrite (bool_decide_eq_false_2 (mode p = "OUTPUT_DIGITAL")) by done.
      rewrite bool_decide_eq_false_2; [done|].
      rewrite elem_of_cons, list_elem_of_singleton. tauto.
Qed.

Lemma mapM_inr_length {A B : Type} (f : A -> exn + B) (l : list A) (k : list B) :
  mapM f l = inr k -> length k = length l.
Proof. intros H%mapM_inr_Forall2. symmetry. by eapply Forall2_length. Qed.

Lemma mapM_entry_of_topics (client_id : string) (l : list pin) (acts : list entry) :
  mapM (entry_of client_id) l = inr acts ->
  topic <$> acts = set_topic client_id <$> l.
Proof.
  intros H%mapM_inr_Forall2.
  induction H as [|p e l acts Hpe _ IH]; [done|].
  rewrite !fmap_cons, IH. f_equal.
  rewrite entry_of_eq in Hpe. destruct (interval_sec_of _); [done|].
  by injection Hpe as <-.
Qed.

Lemma mapM_entry_of_ge_1 (client_id : string) (l : list pin) (acts : list entry) :
  mapM (entry_of client_id) l = inr acts ->
  Forall (fun e => py_ge (interval e) (PyInt 1) = true) acts.
Proof.
  intros H%mapM_inr_Forall2.
  induction H as [|p e l acts Hpe _ IH]; constructor; [|done].
  by eapply entry_of_ge_1.
Qed.

(** ** The words of a command *)

Lemma has_space_of_list (l : list ascii) :
  Forall (fun c => PyStr.is_space c = false) l ->
  has_space (string_of_list_ascii l) = false.
Proof. induction 1 as [|c l Hc _ IH]; [done|]. cbn. by rewrite Hc, IH. Qed.

Lemma run_is_word (cur : list ascii) :
  cur <> [] ->
  Forall (fun c => PyStr.is_space c = false) cur ->
  string_of_list_ascii (rev cur) <> "" /\ has_space (string_of_list_ascii (rev cur)) = false.
Proof.
  intros Hne Hcur. split.
  - destruct (rev cur) as [|c r] eqn:Hr; [|done].
    apply (f_equal (@rev ascii)) in Hr. rewrite rev_involutive in Hr. done.
  - apply has_space_of_list. by apply Forall_rev.
Qed.

Lemma split_aux_words (s : string) (cur : list ascii) :
  Forall (fun c => PyStr.is_space c = false) cur ->
  Forall (fun part => part <> "" /\ has_space part = false) (PyStr.split_aux s cur).
Proof.
  revert cur. induction s as [|c s IH]; intros cur Hcur; cbn.
  - destruct cur as [|a cur]; [constructor|].
    constructor; [|constructor]. by apply run_is_word.
  - destruct (PyStr.is_space c) eqn:Hc.
    + destruct cur as [|a cur]; [by apply IH|].
      constructor; [by apply run_is_word|by apply IH].
    + apply IH. by constructor.
Qed.

Lemma command_parts_words (line : string) :
  Forall (fun part => part <> "" /\ has_space part = false) (command_parts line).
Proof. apply split_aux_words. constructor. Qed.

(** ** The due test *)

Lemma sub_self (x : spec_float) :
  PyFloat.sub x x = S754_zero false \/ PyFloat.sub x x = S754_nan.
Proof.
  destruct x as [[]|[]| |s m e]; cbn; auto.
  left. by rewrite Z.sub_diag.
Qed.

Lemma compare_int_ge_1_positive (y : spec_float) :
  py_ge (PyFloat y) (PyInt 1) = true ->
  y = S754_infinity false \/ exists m e, y = S754_finite false m e.
Proof.
  destruct y as [[]|[]| |[] m e]; cbn; try done; eauto.
  destruct (0 <=? e) eqn:Hle.
  - apply Z.leb_le in Hle.
    assert (Hlt : - Z.pos m * 2 ^ e < 1).
    { assert (0 < 2 ^ e) by (by apply Z.pow_pos_nonneg). nia. }
    apply Z.compare_lt_iff in Hlt. by rewrite Hlt.
  - apply Z.leb_gt in Hle.
    assert (Hlt : - Z.pos m < 1 * 2 ^ (- e)).
    { assert (0 < 2 ^ (- e)) by (apply Z.pow_pos_nonneg; lia). lia. }
    apply Z.compare_lt_iff in Hlt. by rewrite Hlt.
Qed.

Lemma just_sent_not_due (now : spec_float) (e : entry) :
  last_sent e = PyFloat now ->
  py_ge (interval e) (PyInt 1) = true ->
  due now e = inr false.
Proof.
  intros Hl Hi. unfold due. rewrite Hl. cbn. f_equal.
  destruct (interval e) as [z|y].
  - cbn in Hi. apply Z.leb_le in Hi.
    destruct (sub_self now) as [-> | ->]; [|done].
    by destruct z as [|p|p]; [lia| |lia].
  - apply compare_int_ge_1_positive in Hi as [-> | (m & ex & ->)];
      by destruct (sub_self now) as [-> | ->].
Qed.

Lemma due_total (now : spec_float) (e : entry) :
  stamped e -> exists d, due now e = inr d.
Proof.
  unfold due. intros [-> | [f ->]]; cbn; eauto.
Qed.

Lemma stamped_stamp (now : spec_float) (e : entry) : stamped e -> stamped (stamp now e).
Proof.
  unfold stamp. destruct (is_due now e); [|done]. intros _. right. by eexists.
Qed.

Lemma is_due_true (now : spec_float) (e : entry) :
  due now e = inr true -> stamp now e = mark_sent now e /\ is_due now e = true.
Proof.
  intros H. unfold stamp, is_due. by rewrite bool_decide_eq_true_2.
Qed.

Lemma is_due_false (now : spec_float) (e : entry) :
  due now e = inr false -> stamp now e = e /\ is_due now e = false.
Proof.
  intros H. unfold stamp, is_due. rewrite bool_decide_eq_false_2; [done|].
  by rewrite H.
Qed.

(** ** [int(str(n))] and the index of a command *)

Lemma scan_digits (d : Decimal.uint) (acc : Z) (n : nat) :
  PyInt.scan (NilEmpty.string_of_uint d) PyInt.Digit acc n
  = Some (Z.of_N (Unsigned.of_lu (Decimal.rev d))
          + acc * 10 ^ Z.of_N (Unsigned.usize d),
          (n + N.to_nat (Unsigned.usize d))%nat).
Proof.
  revert acc n.
  induction d as [|d IH|d IH|d IH|d IH|d IH|d IH|d IH|d IH|d IH|d IH];
    intros acc n.
  { cbn. f_equal. f_equal; lia. }
  all: cbn [NilEmpty.string_of_uint PyInt.scan].
  all: match goal with
       | |- context [PyInt.digit_of ?c] =>
           let v := eval vm_compute in (PyInt.digit_of c) in
           change (PyInt.digit_of c) with v
       end.
  all: match goal with
       | |- context [Unsigned.of_lu (Decimal.rev (?D ?x))] =>
           change (Decimal.rev (D x)) with (Decimal.revapp x (D Decimal.Nil));
           rewrite (Unsigned.of_lu_revapp x (D Decimal.Nil));
           let k := eval vm_compute in (Unsigned.of_lu (D Decimal.Nil)) in
           change (Unsigned.of_lu (D Decimal.Nil)) with k
       end.
  all: cbn beta iota; rewrite IH; cbn [Unsigned.usize].
  all: rewrite !N2Z.inj_add, !N2Z.inj_mul, N2Z.inj_succ, N2Z.inj_pow, N2Nat.inj_succ.
  all: rewrite Z.pow_succ_r by lia.
  all: f_equal; f_equal; [cbn [Z.of_N]; ring | lia].
Qed.

Lemma length_digits (d : Decimal.uint) :
  String.length (NilEmpty.string_of_uint d) = N.to_nat (Unsigned.usize d).
Proof.
  induction d; cbn [NilEmpty.string_of_uint Unsigned.usize String.length];
    rewrite ?N2Nat.inj_succ; by f_equal.
Qed.

Lemma has_space_digits (d : Decimal.uint) :
  has_space (NilEmpty.string_of_uint d) = false.
Proof. induction d; [done|..]; cbn [NilEmpty.string_of_uint has_space]; by rewrite IHd. Qed.

Lemma rstrip_no_space (s : string) : has_space s = false -> PyStr.rstrip s = s.
Proof.
  induction s as [|c s IH]; [done|]. cbn.
  intros [Hc Hs]%orb_false_iff. rewrite (IH Hs), Hc. by destruct s.
Qed.

Lemma lstrip_no_space (s : string) : has_space s = false -> PyStr.lstrip s = s.
Proof. destruct s as [|c s]; [done|]. cbn. by intros [-> _]%orb_false_iff. Qed.

Lemma strip_no_space (s : string) : has_space s = false -> PyStr.strip s = s.
Proof.
  intros H. unfold PyStr.strip. rewrite (lstrip_no_space s H). by apply rstrip_no_space.
Qed.

Lemma parse_digits (d : Decimal.uint) (neg : bool) :
  d <> Decimal.Nil ->
  (String.length (NilEmpty.string_of_uint d) <= PyInt.max_str_digits)%nat ->
  PyInt.parse (if neg then String "-" (NilEmpty.string_of_uint d)
               else NilEmpty.string_of_uint d)
  = inr (let v := Z.of_N (Pos.of_uint d) in if neg then - v else v).
Proof.
  intros Hd Hlen. unfold PyInt.parse.
  rewrite strip_no_space
    by (destruct neg; [cbn [has_space]|]; by rewrite has_space_digits).
  assert (Hscan : PyInt.scan (NilEmpty.string_of_uint d) PyInt.Start 0 0
                  = Some (Z.of_N (Pos.of_uint d), N.to_nat (Unsigned.usize d))).
  { transitivity (PyInt.scan (NilEmpty.string_of_uint d) PyInt.Digit 0 0).
    - by destruct d.
    - rewrite scan_digits, Unsigned.of_uint_alt. f_equal. f_equal. lia. }
  rewrite length_digits in Hlen.
  assert (Hlim : (PyInt.max_str_digits <? N.to_nat (Unsigned.usize d))%nat = false)
    by (apply Nat.ltb_ge; exact Hlen).
  destruct neg.
  - rewrite Hscan, Hlim. done.
  - assert (Hsign : match NilEmpty.string_of_uint d with
                    | String "-" r => (true, r)
                    | String "+" r => (false, r)
                    | _ => (false, NilEmpty.string_of_uint d)
                    end = (false, NilEmpty.string_of_uint d)) by (by destruct d).
    rewrite Hsign, Hscan, Hlim. done.
Qed.

Lemma parse_of_int (z : Z) :
  (String.length (PyStr.of_int z) <= PyInt.max_str_digits)%nat ->
  PyInt.parse (PyStr.of_int z) = inr z.
Proof.
  unfold PyStr.of_int. destruct z as [|p|p]; [done| |].
  - unfold Z.to_int, NilZero.string_of_int, NilZero.string_of_uint.
    pose proof (Unsigned.to_uint_nonnil p) as Hp.
    destruct (Pos.to_uint p) as [|d|d|d|d|d|d|d|d|d|d] eqn:Hd; [done|..];
      intros Hlen; rewrite <- Hd in *;
      rewrite (parse_digits _ false Hp Hlen); cbn zeta;
      by rewrite Unsigned.of_to.
  - unfold Z.to_int, NilZero.string_of_int, NilZero.string_of_uint.
    pose proof (Unsigned.to_uint_nonnil p) as Hp.
    destruct (Pos.to_uint p) as [|d|d|d|d|d|d|d|d|d|d] eqn:Hd; [done|..];
      intros Hlen; rewrite <- Hd in *;
      (rewrite (parse_digits _ true Hp); [|cbn [String.length] in Hlen; lia]);
      cbn zeta; by rewrite Unsigned.of_to.
Qed.

Lemma app_empty_r (s : string) : s +:+ "" = s.
Proof. induction s as [|c s IH]; rewrite ?app_empty, ?app_cons; [done|by rewrite IH]. Qed.

Lemma has_space_app (a b : string) :
  has_space (a +:+ b) = has_space a || has_space b.
Proof.
  induction a as [|c a IH]; rewrite ?app_empty, ?app_cons; [done|].
  cbn. by rewrite IH, orb_assoc.
Qed.

Lemma rstrip_app_word (a b : string) :
  is_word b -> PyStr.rstrip (a +:+ b) = a +:+ b.
Proof.
  intros [Hne Hsp]. induction a as [|c a IH]; rewrite ?app_empty, ?app_cons.
  - by apply rstrip_no_space.
  - cbn. rewrite IH. destruct (a +:+ b) eqn:Hab; [|done].
    apply (f_equal String.length) in Hab. rewrite app_length in Hab.
    destruct b; [done|]. cbn in Hab. lia.
Qed.

Lemma lstrip_word_app (a s : string) :
  is_word a -> PyStr.lstrip (a +:+ s) = a +:+ s.
Proof.
  intros [Hne Hsp]. destruct a as [|c a]; [done|]. rewrite app_cons. cbn in *.
  by apply orb_false_iff in Hsp as [-> _].
Qed.

Lemma split_aux_prefix (a s : string) (cur : list ascii) :
  has_space a = false ->
  PyStr.split_aux (a +:+ s) cur
  = PyStr.split_aux s (rev (list_ascii_of_string a) ++ cur).
Proof.
  revert cur. induction a as [|c a IH]; intros cur; rewrite ?app_empty, ?app_cons.
  - done.
  - cbn [has_space]. intros [Hc Ha]%orb_false_iff.
    cbn [PyStr.split_aux list_ascii_of_string rev]. rewrite Hc, (IH _ Ha).
    by rewrite <- app_assoc.
Qed.

Lemma word_chars (a : string) : a <> "" -> rev (list_ascii_of_string a) <> [].
Proof.
  destruct a as [|c a]; [done|]. intros _. cbn. by destruct (rev _).
Qed.

Lemma string_of_rev_chars (a : string) :
  string_of_list_ascii (rev (rev (list_ascii_of_string a) ++ [])) = a.
Proof. by rewrite app_nil_r, rev_involutive, string_of_list_ascii_of_string. Qed.

Lemma split_word (b : string) : is_word b -> PyStr.split_aux b [] = [b].
Proof.
  intros [Hne Hsp]. rewrite <- (app_empty_r b) at 1.
  rewrite (split_aux_prefix b "" [] Hsp). cbn [PyStr.split_aux].
  pose proof (word_chars b Hne) as Hc. rewrite app_nil_r in *.
  destruct (rev (list_ascii_of_string b)) as [|x l] eqn:Hr; [done|].
  rewrite <- Hr. by rewrite rev_involutive, string_of_list_ascii_of_string.
Qed.

Lemma command_parts_two (a b : string) :
  is_word a -> is_word b ->
  PyStr.strip (a +:+ " " +:+ b) = a +:+ " " +:+ b
  /\ command_parts (a +:+ " " +:+ b) = [a; b].
Proof.
  intros Ha Hb.
  assert (Hstrip : PyStr.strip (a +:+ " " +:+ b) = a +:+ " " +:+ b).
  { unfold PyStr.strip. rewrite (lstrip_word_app a _ Ha).
    rewrite <- app_assoc_str. by apply rstrip_app_word. }
  split; [exact Hstrip|]. unfold command_parts. rewrite Hstrip.
  unfold PyStr.split. destruct Ha as [Hne Hsp].
  rewrite (split_aux_prefix a _ [] Hsp).
  change (" " +:+ b) with (String " " b). cbn [PyStr.split_aux].
  change (PyStr.is_space " ") with true. cbn match.
  pose proof (word_chars a Hne) as Hc. rewrite app_nil_r in *.
  destruct (rev (list_ascii_of_string a)) as [|x l] eqn:Hr; [done|].
  rewrite <- Hr, rev_involutive, string_of_list_ascii_of_string.
  by rewrite (split_word b Hb).
Qed.

Lemma of_int_word (i : nat) : is_word (PyStr.of_int (Z.of_nat i)).
Proof.
  unfold PyStr.of_int.
  destruct (Z.of_nat i) as [|p|p] eqn:Hi; [done| |lia].
  unfold Z.to_int, NilZero.string_of_int, NilZero.string_of_uint.
  pose proof (Unsigned.to_uint_nonnil p) as Hp.
  destruct (Pos.to_uint p) as [|d|d|d|d|d|d|d|d|d|d] eqn:Hd; [done|..];
    rewrite <- Hd in *; (split; [|apply has_space_digits]);
    rewrite Hd; done.
Qed.

Section Coverage.

Variable pub_reply : nat -> reply.
Variable sub_reply : nat -> reply.

Abbreviation run := (run pub_reply sub_reply).

(** X2. Every entry of the schedule that [auto_publisher] builds has an
    interval of at least one second, whatever [pollingInterval] the
    topology gives: zero, negative and sub-second values included. *)
Theorem schedule_interval_at_least_one (client_id : string) (pin_config : list pin)
    (w w' : world) (acts : list entry) :
  run (build_actuators client_id pin_config []) w = (inr acts, w') ->
  Forall (fun e => py_ge (interval e) (PyInt 1) = true) acts.
Proof.
  intros H%run_build_actuators_inv. by eapply mapM_entry_of_ge_1.
Qed.

(** X3. The list [actuators_manual] of [main] and the schedule of
    [auto_publisher] describe the same pins in the same order: the manual
    list has one element per FAN or OUTPUT_DIGITAL pin, with the pin's
    name, its set-topic and the range 0-4 for a fan and 0-1 otherwise;
    the schedule, when it is built, has as many entries, and the index
    the operator types selects the topic of the schedule entry at the
    same index. *)
Theorem manual_list_matches_schedule (client_id : string) (pin_config : list pin)
    (w w' : world) (acts : list entry) :
  run (build_actuators client_id pin_config []) w = (inr acts, w') ->
  build_manual client_id pin_config
  = manual_of client_id <$> actuator_pins pin_config
  /\ length (build_manual client_id pin_config) = length acts
  /\ m_topic <$> build_manual client_id pin_config = topic <$> acts
  /\ forall i act,
       build_manual client_id pin_config !! i = Some act ->
       exists e, acts !! i = Some e /\ topic e = m_topic act.
Proof.
  intros H%run_build_actuators_inv.
  assert (Ht : m_topic <$> build_manual client_id pin_config = topic <$> acts).
  { rewrite build_manual_topics. symmetry. by apply mapM_entry_of_topics. }
  split; [apply build_manual_eq|]. split; [|split; [exact Ht|]].
  - rewrite build_manual_eq, length_fmap. symmetry. by eapply mapM_inr_length.
  - intros i act Hi.
    assert (Hi' : (topic <$> acts) !! i = Some (m_topic act)).
    { rewrite <- Ht. by rewrite list_lookup_fmap, Hi. }
    rewrite list_lookup_fmap in Hi'.
    destruct (acts !! i) as [e|]; [|done]. exists e. split; [done|].
    by injection Hi'.
Qed.

(** X4. What one command can do to the store: nothing, or one write, of
    a value that is not empty and contains no whitespace, on the topic of
    an element of [actuators_manual]; the same value is then handed to
    the client on the same topic. *)
Theorem command_writes_one_word (actuators_manual : list manual) (line : string)
    (w : world) :
  let w' := (run (handle_command actuators_manual line) w).2 in
  (actuator_values w' = actuator_values w /\ published w' = published w)
  \/ exists act value,
       act ∈ actuators_manual
       /\ value <> "" /\ has_space value = false
       /\ actuator_values w' = store_set (actuator_values w) (m_topic act) value
       /\ published w' = (published w ++ [(m_topic act, value)])%list.
Proof.
  cbn zeta. rewrite run_handle_command.
  destruct (bool_decide _); [by left|].
  pose proof (command_parts_words line) as Hw.
  destruct (command_parts line) as [|p0 [|value [|]]]; try by left.
  destruct (PyInt.parse p0) as [e|idx]; [by left|].
  destruct (_ && _); [|by left].
  destruct (actuators_manual !! Z.to_nat idx) as [act|] eqn:Hact; [|by left].
  right. exists act, value.
  apply Forall_cons in Hw as [_ Hw]. apply Forall_cons in Hw as [[Hne Hsp] _].
  split; [by eapply list_elem_of_lookup_2|].
  split; [done|]. split; [done|].
  cbn zeta. by destruct (pub_reply _) as [rc|[]].
Qed.

(** ** A pass of the publisher *)

Lemma run_for_each_app {A B : Type} (body : A -> prog B) (l1 l2 : list A)
    (w : world) :
  run (for_each body (l1 ++ l2)) w
  = match run (for_each body l1) w with
    | (inr r1, w1) =>
        match run (for_each body l2) w1 with
        | (inr r2, w2) => (inr (r1 ++ r2)%list, w2)
        | (inl e, w2) => (inl e, w2)
        end
    | (inl e, w1) => (inl e, w1)
    end.
Proof.
  revert w. induction l1 as [|x l1 IH]; intros w.
  - cbn. by destruct (run (for_each body l2) w) as [[e|r2] w2].
  - rewrite <- app_comm_cons, !run_for_each_cons.
    destruct (run (body x) w) as [[e|y] w1]; [done|].
    rewrite IH. destruct (run (for_each body l1) w1) as [[e|r1] w2]; [done|].
    by destruct (run (for_each body l2) w2) as [[e|r2] w3].
Qed.

(** X5. Whatever the client replies and wherever the pass ends, a pass
    of the publisher leaves the store, the subscriptions and the console
    as they were; what it hands to the client is, for some of the entries
    of the schedule, in schedule order and at most once each, the topic
    of the entry with the value the store holds for it. *)
Theorem pass_only_publishes (now : spec_float) (acts : list entry) (w : world) :
  let w' := (run (scheduling_pass now acts) w).2 in
  actuator_values w' = actuator_values w
  /\ subscribed w' = subscribed w
  /\ console w' = console w
  /\ exists es,
       sublist es acts
       /\ published w'
          = (published w ++ (message_of (actuator_values w) <$> es))%list.
Proof.
  unfold scheduling_pass. revert w. induction acts as [|e acts IH]; intros w.
  - cbn. repeat split. exists []. by rewrite app_nil_r.
  - rewrite run_for_each_cons, run_publish_if_due.
    destruct (due now e) as [x|[]].
    + cbn. repeat split. exists []. split; [apply sublist_nil_l|by rewrite app_nil_r].
    + cbn zeta. set (w1 := add_published w _).
      destruct (pub_reply _) as [rc|x].
      * specialize (IH w1). cbn zeta in IH. destruct IH as (Hv & Hs & Hc & es & Hes & Hp).
        destruct (run _ w1) as [[x|ys] w2]; cbn in *;
          (split; [done|]; split; [done|]; split; [done|]);
          exists (e :: es); (split; [by apply sublist_skip|]);
          by rewrite Hp, <- app_assoc.
      * cbn. repeat split. exists [e]. split; [|done].
        apply sublist_skip, sublist_nil_l.
    + specialize (IH w). cbn zeta in IH. destruct IH as (Hv & Hs & Hc & es & Hes & Hp).
      destruct (run _ w) as [[x|ys] w2]; cbn in *;
        (split; [done|]; split; [done|]; split; [done|]);
        exists es; (split; [by apply sublist_cons|done]).
Qed.

Lemma run_pass_ok (now : spec_float) (acts : list entry) (w : world) :
  Forall stamped acts ->
  (forall k, (k < length (List.filter (is_due now) acts))%nat ->
             exists rc, pub_reply (length (published w) + k) = Returned rc) ->
  run (scheduling_pass now acts) w
  = (inr (stamp now <$> acts),
     add_published w
       (message_of (actuator_values w) <$> List.filter (is_due now) acts)).
Proof.
  unfold scheduling_pass. revert w.
  induction acts as [|e acts IH]; intros w Hst Hrep.
  - cbn. by rewrite add_published_nil.
  - apply Forall_cons in Hst as [He Hst].
    rewrite run_for_each_cons, run_publish_if_due.
    destruct (due_total now e He) as [[] Hd]; rewrite Hd.
    + destruct (is_due_true now e Hd) as [Hs Hi].
      cbn [List.filter] in *. rewrite Hi in *.
      destruct (Hrep 0%nat) as [rc Hrc]; [cbn; lia|].
      rewrite Nat.add_0_r in Hrc. rewrite Hrc. cbn zeta.
      rewrite IH; [|done|].
      * rewrite fmap_cons, Hs. cbn. by rewrite add_published_app.
      * intros k Hk. destruct (Hrep (S k)) as [rc' Hrc']; [cbn; lia|].
        exists rc'. cbn. rewrite length_app. cbn.
        by replace (length (published w) + 1 + k)%nat
          with (length (published w) + S k)%nat by lia.
    + destruct (is_due_false now e Hd) as [Hs Hi].
      cbn [List.filter] in *. rewrite Hi in *.
      rewrite IH by done. by rewrite fmap_cons, Hs.
Qed.

(** X6. A pass over a schedule whose entries were never sent or carry
    the clock reading of an earlier pass, when the client returns from
    each publish call: it publishes exactly the entries that are due, in
    schedule order, each with the value the store holds for its topic,
    and stamps exactly those with the clock reading; the entries that
    are not due are left as they were. *)
Theorem pass_publishes_the_due (now : spec_float) (acts : list entry) (w : world) :
  Forall stamped acts ->
  (forall k, (k < length (List.filter (is_due now) acts))%nat ->
             exists rc, pub_reply (length (published w) + k) = Returned rc) ->
  run (scheduling_pass now acts) w
  = (inr (stamp now <$> acts),
     add_published w
       (message_of (actuator_values w) <$> List.filter (is_due now) acts))
  /\ Forall stamped (stamp now <$> acts)
  /\ (forall e, e ∈ acts -> due now e = inr true ->
        stamp now e = mark_sent now e)
  /\ (forall e, e ∈ acts -> due now e = inr false -> stamp now e = e).
Proof.
  intros Hst Hrep. split; [by apply run_pass_ok|]. split; [|split].
  - apply Forall_fmap. eapply Forall_impl; [exact Hst|].
    intros e. apply stamped_stamp.
  - intros e _ Hd. by apply is_due_true.
  - intros e _ Hd. by apply is_due_false.
Qed.

Lemma run_pass_inv (now : spec_float) (acts acts' : list entry) (w w' : world) :
  run (scheduling_pass now acts) w = (inr acts', w') ->
  acts' = stamp now <$> acts
  /\ Forall (fun e => exists d, due now e = inr d) acts.
Proof.
  unfold scheduling_pass. revert w w' acts'.
  induction acts as [|e acts IH]; intros w w' acts' Hrun.
  - cbn in Hrun. by injection Hrun as <- _.
  - rewrite run_for_each_cons, run_publish_if_due in Hrun.
    destruct (due now e) as [x|[]] eqn:Hd; [done| |].
    + cbn zeta in Hrun. destruct (pub_reply _) as [rc|x]; [|done].
      destruct (run _ _) as [[x|ys] w2] eqn:Hrest in Hrun; [done|].
      injection Hrun as <- _. destruct (IH _ _ _ Hrest) as [-> Hall].
      destruct (is_due_true now e Hd) as [Hs _]. rewrite fmap_cons, Hs.
      split; [done|]. constructor; eauto.
    + destruct (run _ _) as [[x|ys] w2] eqn:Hrest in Hrun; [done|].
      injection Hrun as <- _. destruct (IH _ _ _ Hrest) as [-> Hall].
      destruct (is_due_false now e Hd) as [Hs _]. rewrite fmap_cons, Hs.
      split; [done|]. constructor; eauto.
Qed.

(** X7. A pass that ends is not repeated by a second pass at the same
    clock reading: when every interval is at least one second, as
    [auto_publisher] builds them, the second pass publishes nothing and
    changes nothing, so no entry is sent twice for one reading of the
    clock. *)
Theorem pass_twice_same_instant (now : spec_float) (acts acts' : list entry)
    (w w' : world) :
  Forall (fun e => py_ge (interval e) (PyInt 1) = true) acts ->
  run (scheduling_pass now acts) w = (inr acts', w') ->
  run (scheduling_pass now acts') w' = (inr acts', w').
Proof.
  intros Hiv Hrun. destruct (run_pass_inv _ _ _ _ _ Hrun) as [-> Hd].
  apply run_pass_none_due. apply Forall_fmap, Forall_forall. intros e He.
  rewrite Forall_forall in Hiv, Hd.
  specialize (Hiv e He). destruct (Hd e He) as [[] Hde]; cbn.
  - destruct (is_due_true now e Hde) as [-> _]. by apply just_sent_not_due.
  - by destruct (is_due_false now e Hde) as [-> _].
Qed.

(** X8. An exception raised by [client.publish] ends the pass at that
    entry: the message has been handed to the client, the entry is not
    stamped, the entries after it are not examined, and the exception
    leaves the pass. *)
Theorem pass_stops_at_failed_publish (now : spec_float)
    (pre pre' post : list entry) (e : entry) (x : exn) (w w1 : world) :
  run (scheduling_pass now pre) w = (inr pre', w1) ->
  due now e = inr true ->
  pub_reply (length (published w1)) = Raised x ->
  run (scheduling_pass now (pre ++ e :: post)) w
  = (inl x, add_published w1 [message_of (actuator_values w1) e]).
Proof.
  intros Hpre Hd Hx. unfold scheduling_pass in *.
  rewrite run_for_each_app, Hpre, run_for_each_cons, run_publish_if_due, Hd.
  cbn zeta. by rewrite Hx.
Qed.

(** ** Exceptions of the client and of the schedule *)

(** X9. When [client.publish] raises inside a valid manual command
    (an ASCII line), the value has already been stored and stays stored.  A [ValueError] is
    caught by the handler meant for a bad index: the loop prints the
    usage line and goes on.  Any other exception leaves the command
    loop. *)
Theorem manual_publish_raises (actuators_manual : list manual)
    (line p0 value : string) (idx : Z) (act : manual) (w : world) (x : exn) :
  PyStr.is_ascii line = true ->
  PyStr.lower (PyStr.strip line) <> "q" ->
  command_parts line = [p0; value] ->
  PyInt.parse p0 = inr idx ->
  0 <= idx < Z.of_nat (length actuators_manual) ->
  actuators_manual !! Z.to_nat idx = Some act ->
  pub_reply (length (published w)) = Raised x ->
  let w1 := add_published
              (with_store w (store_set (actuator_values w) (m_topic act) value))
              [(m_topic act, value)] in
  run (handle_command actuators_manual line) w
  = (if bool_decide (x = ValueError) then (inr Continue, add_console w1 [msg_usage])
     else (inl x, w1))
  /\ store_get (actuator_values (run (handle_command actuators_manual line) w).2)
       (m_topic act) = value.
Proof.
  intros _ Hq Hparts Hparse Hidx Hact Hx. cbn zeta.
  rewrite run_handle_command, bool_decide_eq_false_2 by done.
  rewrite Hparts, Hparse.
  replace ((0 <=? idx) && (idx <? Z.of_nat (length actuators_manual))) with true
    by (symmetry; apply andb_true_iff; split; [apply Z.leb_le|apply Z.ltb_lt]; lia).
  rewrite Hact. cbn zeta. rewrite Hx.
  assert (Hget : forall m : gmap string string,
             store_get (store_set m (m_topic act) value) (m_topic act) = value).
  { intros m. unfold store_get, store_set. by rewrite lookup_insert_eq. }
  by destruct x; cbn.
Qed.

Lemma run_build_actuators_fail (client_id : string) (pins : list pin)
    (acts : list entry) (w w' : world) (x : exn) :
  run (build_actuators client_id pins acts) w = (inl x, w') ->
  exists pre p post,
    actuator_pins pins = (pre ++ p :: post)%list
    /\ (exists es, mapM (entry_of client_id) pre = inr es)
    /\ entry_of client_id p = inl x
    /\ w' = with_store w (apply_writes (seed_of client_id <$> (pre ++ [p])%list)
                                       (actuator_values w)).
Proof.
  revert acts w. induction pins as [|p pins IH]; intros acts w; [done|].
  cbn [build_actuators actuator_pins List.filter].
  destruct (is_actuator_mode (mode p)) eqn:Hm; [|apply IH].
  fold (actuator_pins pins).
  rewrite run_bind, run_set_value, run_bind, run_lift.
  destruct (interval_sec_of _) as [e|iv] eqn:Hiv.
  - intros [= <- <-]. exists [], p, (actuator_pins pins).
    split; [done|]. split; [by exists []|].
    split; [by rewrite entry_of_eq, Hiv|done].
  - intros (pre & q & post & Hpins & [es Hes] & Hq & ->)%IH.
    exists (p :: pre), q, post. rewrite Hpins. split; [done|].
    split; [|done].
    exists ({| topic := set_topic client_id p; interval := iv;
               last_sent := PyInt 0 |} :: es).
    cbn [mapM]. by rewrite entry_of_eq, Hiv, Hes.
Qed.

(** X10. The only way the construction of the schedule fails:
    [OverflowError], at the first FAN or OUTPUT_DIGITAL pin whose
    [pollingInterval] does not convert to a float (the conversion of the
    int overflows, which needs a value outside (-2^53, 2^53) and happens
    to no pin without a [pollingInterval]).  Every actuator pin before it
    converts and has its entry.  The pins before it, and the failing pin
    itself, have been seeded in the store; nothing has been published. *)
Theorem schedule_build_failure (client_id : string) (pin_config : list pin)
    (w w' : world) (x : exn) :
  run (build_actuators client_id pin_config []) w = (inl x, w') ->
  x = OverflowError
  /\ exists pre p post z,
       actuator_pins pin_config = (pre ++ p :: post)%list
       /\ pollingInterval p = Some z
       /\ PyFloat.of_int z = inl OverflowError
       /\ ~ exact_int z
       /\ Forall (fun q => exists f,
                    PyFloat.of_int (default 30000 (pollingInterval q)) = inr f) pre
       /\ (exists es, mapM (entry_of client_id) pre = inr es)
       /\ actuator_values w'
          = apply_writes (seed_of client_id <$> (pre ++ [p])%list) (actuator_values w)
       /\ published w' = published w.
Proof.
  intros (pre & p & post & Hpins & Hpre & Hp & ->)%run_build_actuators_fail.
  rewrite entry_of_eq in Hp.
  destruct (interval_sec_of _) as [e|iv] eqn:Hiv; [|done]. injection Hp as ->.
  destruct (pollingInterval p) as [z|] eqn:Hz; [|by vm_compute in Hiv].
  cbn in Hiv.
  assert (Hconv : PyFloat.of_int z = inl OverflowError /\ x = OverflowError).
  { unfold interval_sec_of in Hiv. unfold PyFloat.of_int in *.
    destruct (PyFloat.is_infinity _); [|done]. by injection Hiv as <-. }
  destruct Hconv as [Hconv ->]. split; [done|].
  exists pre, p, post, z. split; [done|]. split; [done|]. split; [done|].
  split.
  { intros (v & Hv)%interval_sec_of_exact. by rewrite Hv in Hiv. }
  split; [|by repeat split].
  destruct Hpre as [es Hes]. apply mapM_inr_Forall2 in Hes.
  clear -Hes. induction Hes as [|q e qs es Hqe _ IH]; constructor; [|done].
  rewrite entry_of_eq in Hqe. unfold interval_sec_of in Hqe.
  destruct (PyFloat.of_int _) as [y|f]; [done|]. by exists f.
Qed.

(** ** [on_connect] *)

Lemma run_subscribe_pin_any (client_id : string) (p : pin) (w : world) :
  run (subscribe_pin client_id p) w
  = match subscription_of client_id p with
    | None => (inr tt, w)
    | Some t =>
        match sub_reply (length (subscribed w)) with
        | Returned _ =>
            (inr tt, add_console (add_subscribed w [t]) [msg_subscribed t])
        | Raised x => (inl x, add_subscribed w [t])
        end
    end.
Proof.
  unfold subscribe_pin, subscription_of.
  destruct (decide (mode p ∈ ["DS18B20"; "THERMOCOUPLE"])) as [H1|H1].
  { rewrite !(bool_decide_eq_true_2 _ H1). cbn. by destruct (sub_reply _). }
  rewrite !(bool_decide_eq_false_2 _ H1).
  destruct (decide (mode p = "FAN")) as [H2|H2].
  { rewrite (bool_decide_eq_true_2 _ H2).
    rewrite bool_decide_eq_true_2 by (rewrite H2; apply list_elem_of_here).
    cbn. by destruct (sub_reply _). }
  rewrite (bool_decide_eq_false_2 _ H2).
  destruct (decide (mode p = "OUTPUT_DIGITAL")) as [H3|H3].
  { rewrite (bool_decide_eq_true_2 _ H3).
    rewrite bool_decide_eq_true_2
      by (rewrite H3; apply list_elem_of_further, list_elem_of_here).
    cbn. by destruct (sub_reply _). }
  rewrite (bool_decide_eq_false_2 _ H3).
  by rewrite bool_decide_eq_false_2
    by (rewrite elem_of_cons, list_elem_of_singleton; tauto).
Qed.

Lemma run_subscribe_pins_any (client_id : string) (pins : list pin) (w : world) :
  let r := run (for_each (subscribe_pin client_id) pins) w in
  actuator_values r.2 = actuator_values w
  /\ published r.2 = published w
  /\ exists l l',
       l `prefix_of` omap (subscription_of client_id) pins
       /\ subscribed r.2 = (subscribed w ++ l)%list
       /\ console r.2 = (console w ++ (msg_subscribed <$> l'))%list
       /\ match r.1 with
          | inr _ => l = omap (subscription_of client_id) pins /\ l' = l
          | inl _ => exists t, l = (l' ++ [t])%list
          end.
Proof.
  cbn zeta. revert w. induction pins as [|p pins IH]; intros w.
  - cbn. repeat split. exists [], []. by rewrite !app_nil_r.
  - rewrite run_for_each_cons, run_subscribe_pin_any.
    destruct (subscription_of client_id p) as [t|] eqn:Hp.
    + assert (Hsubs : omap (subscription_of client_id) (p :: pins)
                      = t :: omap (subscription_of client_id) pins)
        by (cbn; by rewrite Hp).
      rewrite Hsubs. destruct (sub_reply _) as [rc|x].
      * set (w1 := add_console _ _).
        destruct (IH w1) as (Hv & Hpub & l & l' & Hpre & Hs & Hc & Hres).
        destruct (run _ w1) as [[x|ys] w2]; cbn in *;
          (split; [done|]; split; [done|]);
          exists (t :: l), (t :: l'); (split; [by apply prefix_cons|]);
          rewrite Hs, Hc, <- !app_assoc; (split; [done|]; split; [done|]).
        -- destruct Hres as [t' ->]. by exists t'.
        -- by destruct Hres as [-> ->].
      * cbn. repeat split. exists [t], []. rewrite app_nil_r.
        split; [apply prefix_cons, prefix_nil|]. split; [done|]. split; [done|].
        by exists t.
    + assert (Hsubs : omap (subscription_of client_id) (p :: pins)
                      = omap (subscription_of client_id) pins)
        by (cbn; by rewrite Hp).
      rewrite Hsubs.
      destruct (IH w) as (Hv & Hpub & l & l' & Hpre & Hs & Hc & Hres).
      destruct (run _ w) as [[x|ys] w2]; cbn in *;
        (split; [done|]; split; [done|]); by exists l, l'.
Qed.

(** X11. [on_connect] for any result code and any behaviour of the
    client: it never touches the store and never publishes.  With a
    non-zero code it prints the failure line and does nothing else.  With
    code 0 it prints the connection line, then subscribes, in topology
    order, to an initial part of the topics of the supported pins, and
    prints one line per subscription made: all of them when it returns,
    all but the last when [client.subscribe] raised, which ends the
    callback at that topic. *)
Theorem on_connect_effects (client_id : string) (pins : list pin) (rc : Z)
    (w : world) :
  let r := run (on_connect client_id pins rc) w in
  actuator_values r.2 = actuator_values w
  /\ published r.2 = published w
  /\ (rc <> 0 -> r = (inr tt, add_console w [msg_failed rc]))
  /\ (rc = 0 ->
      exists l l',
        l `prefix_of` omap (subscription_of client_id) pins
        /\ subscribed r.2 = (subscribed w ++ l)%list
        /\ console r.2
           = (console w ++ msg_connected :: (msg_subscribed <$> l'))%list
        /\ match r.1 with
           | inr _ => l = omap (subscription_of client_id) pins /\ l' = l
           | inl _ => exists t, l = (l' ++ [t])%list
           end).
Proof.
  cbn zeta. unfold on_connect. destruct (rc =? 0) eqn:Hrc.
  - apply Z.eqb_eq in Hrc as ->.
    change (run (_ ← print msg_connected;
                 _ ← for_each (subscribe_pin client_id) pins; mret tt) w)
      with (run (_ ← for_each (subscribe_pin client_id) pins; mret tt)
                (add_console w [msg_connected])).
    rewrite run_bind.
    destruct (run_subscribe_pins_any client_id pins (add_console w [msg_connected]))
      as (Hv & Hpub & l & l' & Hpre & Hs & Hc & Hres).
    destruct (run _ (add_console w [msg_connected])) as [[x|us] w2]; cbn in *;
      (split; [done|]; split; [done|]; split; [done|]); intros _;
      exists l, l'; rewrite Hc, <- app_assoc; done.
  - apply Z.eqb_neq in Hrc. cbn. repeat split; try done.
Qed.

(** ** The two threads *)

Section Schedules.

Variable client_id : string.
Variable pin_config : list pin.

Abbreviation sys_step := (step pub_reply sub_reply client_id pin_config).
Abbreviation sys_exec := (exec pub_reply sub_reply client_id pin_config).
Abbreviation sys_boot := (boot client_id pin_config).
Abbreviation sys_reachable := (reachable pub_reply sub_reply client_id pin_config).

(** What a step is: nothing, the start of a pass or the end of the
    publisher at the loop head, an action of the publisher, the start of
    a command, an action of the command loop, or a step of the code that
    follows the loop. *)
Lemma step_cases (l : label) (s : system) :
  sys_step l s = s
  \/ (exists now acts,
        l = AutoClock now /\ auto s = AWaiting acts
        /\ sys_step l s
           = {| shared := shared s;
                auto := if stop_event s then AExited
                        else settle_auto (scheduling_pass now acts);
                main := main s; stop_event := stop_event s; trace := trace s |})
  \/ (exists p ev p' w',
        l = AutoStep /\ auto s = ARunning p
        /\ step1 pub_reply sub_reply p (shared s) = Some (ev, p', w')
        /\ sys_step l s
           = {| shared := w'; auto := settle_auto p'; main := main s;
                stop_event := stop_event s; trace := trace s ++ [(Auto, ev)] |})
  \/ (exists line,
        l = MainInput line /\ main s = MWaiting
        /\ sys_step l s
           = settle_main (handle_command (build_manual client_id pin_config) line) s)
  \/ (exists p ev p' w',
        l = MainStep /\ main s = MRunning p
        /\ step1 pub_reply sub_reply p (shared s) = Some (ev, p', w')
        /\ sys_step l s
           = settle_main p'
               {| shared := w'; auto := auto s; main := main s;
                  stop_event := stop_event s; trace := trace s ++ [(Main, ev)] |})
  \/ (l = MainStep /\ shutdown_step s (sys_step l s)).
Proof.
  destruct (died_or_alive s) as [[e He]|Halive].
  { left. by eapply step_died. }
  destruct l as [now| |line|].
  - rewrite (step_auto_clock _ _ _ _ _ _ Halive).
    destruct (auto s) as [pa|acts| |ea] eqn:Ha; try by left.
    right; left. by exists now, acts.
  - rewrite (step_auto_step _ _ _ _ _ Halive).
    destruct (auto s) as [pa|acts| |ea] eqn:Ha; try by left.
    destruct (step1 pub_reply sub_reply pa (shared s))
      as [[[ev p'] w']|] eqn:Hstep; [|by left].
    right; right; left. by exists pa, ev, p', w'.
  - rewrite step_main_input_eq.
    destruct (main s) eqn:Hm; try by left.
    right; right; right; left. by exists line.
  - rewrite step_main_step_eq. unfold shutdown_step.
    destruct (main s) as [|pm| | | | | |em] eqn:Hm; try by left.
    + destruct (step1 pub_reply sub_reply pm (shared s))
        as [[[ev p'] w']|] eqn:Hstep; [|by left].
      right; right; right; right; left. by exists pm, ev, p', w'.
    + do 5 right. split; [done|]. by left.
    + do 5 right. split; [done|]. right; left. by split.
    + destruct (auto s) as [pa|acts| |ea] eqn:Ha; try by left.
      * do 5 right. split; [done|]. right; right; left. by repeat split.
      * do 5 right. split; [done|]. right; right; left. by repeat split.
    + do 5 right. split; [done|]. right; right; right. by split.
Qed.

Lemma settle_main_main (p : prog loop_ctl) (s : system) :
  main (settle_main p s)
  = match p with
    | Done Continue => MWaiting
    | Done Break => MStopping
    | Raise e => MDied e
    | _ => MRunning p
    end.
Proof. by destruct p as [[]| | | | | |]. Qed.

Lemma settle_main_stop (p : prog loop_ctl) (s : system) :
  stop_event (settle_main p s) = stop_event s.
Proof. by destruct p as [[]| | | | | |]. Qed.

(** A step of the code after the loop touches neither the store nor
    the client, nor the publisher; it prints at most one line. *)
Lemma shutdown_step_frame (s s1 : system) :
  shutdown_step s s1 ->
  auto s1 = auto s
  /\ actuator_values (shared s1) = actuator_values (shared s)
  /\ published (shared s1) = published (shared s)
  /\ (trace s1 = trace s
      \/ exists line, trace s1 = (trace s ++ [(Main, EvPrint line)])%list)
  /\ after_loop (main s) /\ after_loop (main s1).
Proof.
  intros [[Hm ->] | [[Hm ->] | [(Hm & Hg & ->) | [Hm ->]]]]; rewrite Hm; cbn;
    repeat split; eauto.
Qed.

Lemma quiet_publisher_step (l : label) (s : system) :
  gone (auto s) ->
  auto (sys_step l s) = auto s
  /\ exists rest,
       trace (sys_step l s) = (trace s ++ rest)%list /\ by_thread Main rest.
Proof.
  intros Hq.
  destruct (step_cases l s)
    as [-> | [(now & acts & -> & Ha & ->) | [(p & ev & p' & w' & -> & Ha & _ & ->)
       | [(line & -> & _ & ->) | [(p & ev & p' & w' & -> & _ & _ & ->)
       | [-> Hsd]]]]]].
  - split; [done|]. exists []. rewrite app_nil_r. split; [done|by constructor].
  - by rewrite Ha in Hq.
  - by rewrite Ha in Hq.
  - destruct (settle_main_fields
                (handle_command (build_manual client_id pin_config) line) s)
      as (-> & _ & ->).
    split; [done|]. exists []. rewrite app_nil_r. split; [done|by constructor].
  - match goal with
    | |- context [settle_main p' ?s'] =>
        destruct (settle_main_fields p' s') as (-> & _ & ->)
    end.
    split; [done|]. exists [(Main, ev)]. split; [done|]. by repeat constructor.
  - destruct (shutdown_step_frame _ _ Hsd) as (Ha & _ & _ & [Ht|[line Ht]] & _).
    + split; [done|]. exists []. rewrite app_nil_r. split; [done|by constructor].
    + split; [done|]. exists [(Main, EvPrint line)]. split; [done|].
      by repeat constructor.
Qed.

Lemma quiet_publisher_exec (ls : list label) (s : system) :
  gone (auto s) ->
  auto (sys_exec ls s) = auto s
  /\ exists rest,
       trace (sys_exec ls s) = (trace s ++ rest)%list /\ by_thread Main rest.
Proof.
  revert s. induction ls as [|l ls IH]; intros s Hq.
  - split; [done|]. exists []. rewrite app_nil_r. split; [done|by constructor].
  - rewrite exec_cons.
    destruct (quiet_publisher_step l s Hq) as (Ha & r1 & Ht1 & Hr1).
    destruct (IH (sys_step l s)) as (Ha2 & r2 & Ht2 & Hr2); [by rewrite Ha|].
    split; [by rewrite Ha2|]. exists (r1 ++ r2)%list.
    rewrite Ht2, Ht1, <- app_assoc. split; [done|]. by apply Forall_app.
Qed.

(** The state of the main thread after the loop, under any step. *)
Lemma step_after_loop (l : label) (s : system) :
  after_loop (main s) ->
  (stop_set (main s) = true -> stop_event s = true) ->
  (joined (main s) = true -> gone (auto s)) ->
  after_loop (main (sys_step l s))
  /\ (stop_set (main (sys_step l s)) = true -> stop_event (sys_step l s) = true)
  /\ (stop_set (main (sys_step l s)) = false ->
      stop_set (main s) = false /\ stop_event (sys_step l s) = stop_event s)
  /\ (joined (main (sys_step l s)) = true -> gone (auto (sys_step l s)))
  /\ exists rest,
       trace (sys_step l s) = (trace s ++ rest)%list
       /\ shutdown_prints (main (sys_step l s))
          = (shutdown_prints (main s) ++ main_events rest)%list.
Proof.
  intros Hal Hstop Hjoin.
  destruct (step_cases l s)
    as [-> | [(now & acts & -> & Ha & ->) | [(p & ev & p' & w' & -> & Ha & _ & ->)
       | [(line & -> & Hm & _) | [(p & ev & p' & w' & -> & Hm & _ & _)
       | [-> Hsd]]]]]].
  - split; [done|]. split; [done|]. split; [done|]. split; [done|].
    exists []. by rewrite !app_nil_r.
  - cbn. split; [done|]. split; [done|]. split; [done|]. split.
    + intros Hj. specialize (Hjoin Hj). by rewrite Ha in Hjoin.
    + exists []. by rewrite !app_nil_r.
  - cbn. split; [done|]. split; [done|]. split; [done|]. split.
    + intros Hj. specialize (Hjoin Hj). by rewrite Ha in Hjoin.
    + exists [(Auto, ev)]. by rewrite app_nil_r.
  - by rewrite Hm in Hal.
  - by rewrite Hm in Hal.
  - destruct Hsd as [[Hm ->] | [[Hm ->] | [(Hm & Hg & ->) | [Hm ->]]]];
      rewrite Hm in *; cbn.
    + split; [done|]. split; [done|]. split; [done|]. split; [done|].
      by exists [(Main, EvPrint msg_stopping)].
    + split; [done|]. split; [done|]. split; [done|]. split; [done|].
      exists []. by rewrite app_nil_r.
    + split; [done|]. split; [by auto|]. split; [done|]. split; [done|].
      exists []. by rewrite app_nil_r.
    + split; [done|]. split; [by auto|]. split; [done|]. split; [by auto|].
      by exists [(Main, EvPrint msg_disconnected)].
Qed.

Lemma main_events_app (tr1 tr2 : list (tid * event)) :
  main_events (tr1 ++ tr2) = (main_events tr1 ++ main_events tr2)%list.
Proof. unfold main_events. apply omap_app. Qed.

Lemma exec_after_loop (ls : list label) (s : system) :
  after_loop (main s) ->
  (stop_set (main s) = true -> stop_event s = true) ->
  (joined (main s) = true -> gone (auto s)) ->
  after_loop (main (sys_exec ls s))
  /\ (stop_set (main (sys_exec ls s)) = true -> stop_event (sys_exec ls s) = true)
  /\ (stop_set (main (sys_exec ls s)) = false ->
      stop_set (main s) = false /\ stop_event (sys_exec ls s) = stop_event s)
  /\ (joined (main (sys_exec ls s)) = true -> gone (auto (sys_exec ls s)))
  /\ exists rest,
       trace (sys_exec ls s) = (trace s ++ rest)%list
       /\ shutdown_prints (main (sys_exec ls s))
          = (shutdown_prints (main s) ++ main_events rest)%list.
Proof.
  revert s. induction ls as [|l ls IH]; intros s Hal Hstop Hjoin.
  - split; [done|]. split; [done|]. split; [done|]. split; [done|].
    exists []. by rewrite !app_nil_r.
  - rewrite exec_cons.
    destruct (step_after_loop l s Hal Hstop Hjoin)
      as (Hal1 & Hstop1 & Hkeep1 & Hjoin1 & r1 & Ht1 & Hp1).
    destruct (IH _ Hal1 Hstop1 Hjoin1)
      as (Hal2 & Hstop2 & Hkeep2 & Hjoin2 & r2 & Ht2 & Hp2).
    split; [done|]. split; [done|]. split.
    { intros Hns. destruct (Hkeep2 Hns) as [Hns1 ->]. by apply Hkeep1. }
    split; [done|]. exists (r1 ++ r2)%list.
    rewrite Ht2, Ht1, <- app_assoc. split; [done|].
    by rewrite Hp2, Hp1, main_events_app, <- app_assoc.
Qed.

(** X14. The quit command: an ASCII line that is q or Q once stripped
    ends the command loop, by itself without any action.  From then on,
    under every schedule of the threads and whatever is typed, the main
    thread performs exactly the code that follows the loop: it prints
    the stopping line, sets the stop event, waits until the publisher
    thread has ended, and prints the closing line; it neither writes the
    store nor publishes.  The stop event is set only after the stopping
    line has been printed, the closing line is printed only after the
    publisher has ended, and a publisher that is at its loop head once the
    event is set leaves the loop at its next turn. *)
Theorem quit_shuts_down (line : string) (ls : list label) (s : system) :
  PyStr.is_ascii line = true ->
  main s = MWaiting ->
  PyStr.lower (PyStr.strip line) = "q" ->
  let s0 := sys_step (MainInput line) s in
  let s1 := sys_exec ls s0 in
  (main s0 = MStopping /\ shared s0 = shared s /\ auto s0 = auto s
   /\ stop_event s0 = stop_event s /\ trace s0 = trace s)
  /\ after_loop (main s1)
  /\ (exists rest,
        trace s1 = (trace s ++ rest)%list
        /\ main_events rest = shutdown_prints (main s1))
  /\ stop_event s1 = (if stop_set (main s1) then true else stop_event s)
  /\ (joined (main s1) = true -> gone (auto s1))
  /\ (forall acts now,
        auto s1 = AWaiting acts -> stop_set (main s1) = true ->
        auto (sys_step (AutoClock now) s1) = AExited).
Proof.
  intros _ Hm Hq. cbn zeta.
  assert (Hstep : sys_step (MainInput line) s
                  = {| shared := shared s; auto := auto s; main := MStopping;
                       stop_event := stop_event s; trace := trace s |}).
  { rewrite step_main_input by done. unfold handle_command.
    by rewrite bool_decide_eq_true_2. }
  rewrite Hstep. split; [done|].
  destruct (exec_after_loop ls
              {| shared := shared s; auto := auto s; main := MStopping;
                 stop_event := stop_event s; trace := trace s |})
    as (Hal & Hstop & Hkeep & Hjoin & rest & Ht & Hp); try done.
  split; [done|]. split; [by exists rest|]. split.
  { destruct (stop_set _) eqn:Hs; [by apply Hstop|by apply Hkeep]. }
  split; [done|]. intros acts now Ha Hs.
  match goal with |- auto (sys_step _ ?s1) = _ => set (s1' := s1) in * end.
  assert (Halive : forall e, main s1' <> MDied e).
  { intros e He. by rewrite He in Hal. }
  rewrite (step_auto_clock _ _ _ _ _ _ Halive), Ha. cbn.
  by rewrite (Hstop Hs).
Qed.

Lemma step_publishes_follow_reads (l : label) (s : system) :
  auto_inv (auto s) ->
  publishes_follow_reads (trace s)
  /\ (forall t x, pending_publish (auto s) = Some (t, x) ->
        exists pre1 mid,
          trace s = (pre1 ++ (Auto, EvGet t x) :: mid)%list
          /\ forall ev, (Auto, ev) ∉ mid) ->
  publishes_follow_reads (trace (sys_step l s))
  /\ (forall t x, pending_publish (auto (sys_step l s)) = Some (t, x) ->
        exists pre1 mid,
          trace (sys_step l s) = (pre1 ++ (Auto, EvGet t x) :: mid)%list
          /\ forall ev, (Auto, ev) ∉ mid).
Proof.
  intros Hinv [Htr Hpend].
  destruct (step_effect pub_reply sub_reply client_id pin_config l s Hinv)
    as [_ [(Et & _ & Ea) | [[ev (Et & Ea & _)] | [ev (Et & _ & Hpub & Hget)]]]].
  - rewrite Et. split; [done|]. destruct Ea as [-> | ->]; [done|done].
  - rewrite Et, Ea. split.
    + intros pre t x post Heq. symmetry in Heq.
      apply snoc_split in Heq as [(_ & _ & [=]) | (post' & -> & Heq)].
      by eapply Htr.
    + intros t x (pre1 & mid & -> & Hmid)%Hpend.
      exists pre1, (mid ++ [(Main, ev)])%list. rewrite <- app_assoc. split; [done|].
      intros ev' [Hin|Hin]%elem_of_app; [by eapply Hmid|].
      apply list_elem_of_singleton in Hin. discriminate Hin.
  - rewrite Et. split.
    + intros pre t x post Heq. symmetry in Heq.
      apply snoc_split in Heq as [(_ & -> & [= <-]) | (post' & -> & Heq)].
      * by apply Hpend, Hpub.
      * by eapply Htr.
    + intros t x [-> _]%Hget. exists (trace s), []. split; [done|].
      intros ev' Hin. by apply elem_of_nil in Hin.
Qed.

Lemma reachable_publishes_follow_reads (s : system) :
  sys_reachable s -> publishes_follow_reads (trace s).
Proof.
  intros [ls ->].
  assert (Hboot : auto_inv (auto sys_boot)
                  /\ publishes_follow_reads (trace sys_boot)
                  /\ (forall t x, pending_publish (auto sys_boot) = Some (t, x) ->
                        exists pre1 mid,
                          trace sys_boot = (pre1 ++ (Auto, EvGet t x) :: mid)%list
                          /\ forall ev, (Auto, ev) ∉ mid)).
  { split; [apply boot_inv|]. split.
    - by intros [|??] ????.
    - intros t x Hp.
      destruct (settle_auto_inv None (auto_publisher_start client_id pin_config)
                  (paired_auto_publisher_start client_id pin_config)) as [_ Hnone].
      unfold boot in Hp. cbn in Hp. by rewrite Hnone in Hp. }
  revert Hboot. generalize sys_boot. induction ls as [|l ls IH]; intros s (Hi & Ht).
  - by destruct Ht.
  - rewrite exec_cons. apply IH. split.
    + by apply step_effect.
    + by apply step_publishes_follow_reads.
Qed.

(** X15. In every reachable state, each publish of the publisher thread
    in the trace comes right after that thread's read of the same topic
    (actions of the main thread may lie between the two), carries the
    value that read returned, and that value is what the writes made
    before the read had left in the store for the topic. *)
Theorem publish_follows_read (s : system) (pre post : list (tid * event))
    (t x : string) :
  sys_reachable s ->
  trace s = (pre ++ (Auto, EvPublish t x) :: post)%list ->
  exists pre1 mid,
    pre = (pre1 ++ (Auto, EvGet t x) :: mid)%list
    /\ (forall ev, (Auto, ev) ∉ mid)
    /\ x = store_get (apply_writes (writes_of pre1) ∅) t.
Proof.
  intros Hreach Htr.
  destruct (reachable_publishes_follow_reads s Hreach _ _ _ _ Htr)
    as (pre1 & mid & -> & Hmid).
  exists pre1, mid. split; [done|]. split; [done|].
  destruct (reachable_store_follows_trace pub_reply sub_reply client_id pin_config
              s Hreach) as [_ Hreads].
  apply (Hreads pre1 Auto t x (mid ++ (Auto, EvPublish t x) :: post)%list).
  by rewrite Htr, <- app_assoc.
Qed.

(** ** The shape of the code of the two threads *)

Lemma publisher_code_mono {A : Type} (T : string -> Prop)
    (Q : (string -> Prop) -> A -> Prop) (D D' : string -> Prop) (p : prog A) :
  (forall D1 D2 a, (forall t, D1 t -> D2 t) -> Q D1 a -> Q D2 a) ->
  (forall t, D t -> D' t) ->
  publisher_code T Q D p -> publisher_code T Q D' p.
Proof.
  intros HQ. revert D D'.
  induction p as [a|e|t k IH|t v k IH|t v k IH|t k IH|line k IH];
    intros D D' HD; cbn; try done.
  - by apply HQ.
  - intros (Ht & Hd & Hk). split; [done|]. split; [by apply HD|].
    intros x. by eapply IH.
  - intros (Ht & Hk). split; [done|]. eapply IH; [|exact Hk].
    intros x [->|Hx]; [by left|right; by apply HD].
  - intros (Ht & Hx & Hk). split; [done|]. split; [done|].
    intros rc. by eapply IH.
  - by apply IH.
Qed.

Lemma publisher_code_bind {A B : Type} (T : string -> Prop)
    (R : (string -> Prop) -> A -> Prop) (Q : (string -> Prop) -> B -> Prop)
    (D : string -> Prop) (p : prog A) (f : A -> prog B) :
  publisher_code T R D p ->
  (forall D' a, (forall t, D t -> D' t) -> R D' a -> publisher_code T Q D' (f a)) ->
  publisher_code T Q D (p ≫= f).
Proof.
  revert D.
  induction p as [a|e|t k IH|t v k IH|t v k IH|t k IH|line k IH];
    intros D Hp Hf; cbn in *; try done.
  - by apply Hf.
  - destruct Hp as (Ht & Hd & Hk). split; [done|]. split; [done|].
    intros x. by apply IH.
  - destruct Hp as (Ht & Hk). split; [done|]. apply IH; [done|].
    intros D' a HD. apply Hf. intros x Hx. apply HD. by right.
  - destruct Hp as (Ht & Hx & Hk). split; [done|]. split.
    + intros x. by rewrite Hx.
    + intros rc. by apply IH.
  - by apply IH.
Qed.

Lemma schedule_ok_mono (D1 D2 : string -> Prop) (acts : list entry) :
  (forall t, D1 t -> D2 t) ->
  schedule_ok client_id pin_config D1 acts ->
  schedule_ok client_id pin_config D2 acts.
Proof.
  intros HD [H1 H2]. split; [done|].
  eapply Forall_impl; [exact H2|]. intros e. apply HD.
Qed.

Lemma publisher_code_publish_if_due (T D : string -> Prop) (now : spec_float)
    (p : pin) (e : entry) :
  built_from client_id p e -> T (topic e) -> D (topic e) ->
  publisher_code T (fun D' e' => built_from client_id p e' /\ D' (topic e')) D
    (publish_if_due now e).
Proof.
  intros (Ht & Hi & Hs) HT HD. unfold publish_if_due.
  destruct (due now e) as [x|[]]; cbn; [done| |done].
  split; [done|]. split; [done|]. intros v. split; [done|]. split; [done|].
  intros rc. split; [|done]. split; [done|]. split; [done|]. right. by eexists.
Qed.

Lemma publisher_code_pass (T D : string -> Prop) (now : spec_float)
    (ps : list pin) (acts : list entry) :
  Forall2 (built_from client_id) ps acts ->
  Forall (fun e => T (topic e)) acts ->
  Forall (fun e => D (topic e)) acts ->
  publisher_code T
    (fun D' r => Forall2 (built_from client_id) ps r
                 /\ Forall (fun e => D' (topic e)) r)
    D (for_each (publish_if_due now) acts).
Proof.
  intros H2. revert D. induction H2 as [|p e ps acts Hpe _ IH]; intros D HT HD.
  - cbn. split; constructor.
  - apply Forall_cons in HT as [HTe HT]. apply Forall_cons in HD as [HDe HD].
    cbn [for_each].
    eapply publisher_code_bind; [by apply publisher_code_publish_if_due|].
    intros D1 e' HD1 [He' HDe'].
    eapply publisher_code_bind.
    + apply IH; [done|]. eapply Forall_impl; [exact HD|]. intros a. apply HD1.
    + intros D2 r HD2 [Hr HDr]. cbn. split; constructor; auto.
Qed.

Lemma publisher_code_build (T D : string -> Prop) (pins done : list pin)
    (acts : list entry) :
  (forall p, p ∈ actuator_pins pins -> T (set_topic client_id p)) ->
  actuator_pins pin_config = (done ++ actuator_pins pins)%list ->
  Forall2 (built_from client_id) done acts ->
  Forall (fun e => D (topic e)) acts ->
  publisher_code T (schedule_ok client_id pin_config) D
    (build_actuators client_id pins acts).
Proof.
  revert D done acts. induction pins as [|p pins IH]; intros D done acts HT Hpins H2 HD.
  - cbn. split; [|done]. by rewrite Hpins, app_nil_r.
  - cbn [build_actuators]. cbn [actuator_pins List.filter] in HT, Hpins.
    fold (actuator_pins pins) in HT, Hpins.
    destruct (is_actuator_mode (mode p)) eqn:Hm; [|by eapply IH].
    cbn. split; [apply HT, list_elem_of_here|].
    destruct (interval_sec_of _) as [x|iv] eqn:Hiv; cbn; [done|].
    apply (IH _ (done ++ [p])%list).
    + intros q Hq. by apply HT, list_elem_of_further.
    + by rewrite Hpins, <- app_assoc.
    + apply Forall2_app; [done|]. constructor; [|constructor].
      split; [done|]. split; [done|]. by left.
    + apply Forall_app. split.
      * eapply Forall_impl; [exact HD|]. intros a Ha. by right.
      * constructor; [|constructor]. by left.
Qed.

Lemma publisher_code_start (D : string -> Prop) :
  publisher_code (actuator_topic client_id pin_config)
    (schedule_ok client_id pin_config) D
    (auto_publisher_start client_id pin_config).
Proof.
  unfold auto_publisher_start.
  eapply publisher_code_bind.
  - apply (publisher_code_build _ _ _ []); try done.
    intros p Hp. unfold actuator_topic. by apply list_elem_of_fmap_2.
  - intros D' acts _ Hacts. exact Hacts.
Qed.

Lemma schedule_ok_topics (D : string -> Prop) (acts : list entry) :
  schedule_ok client_id pin_config D acts ->
  Forall (fun e => actuator_topic client_id pin_config (topic e)) acts.
Proof.
  intros [H2 _]. unfold actuator_topic.
  induction H2 as [|p e ps acts (Ht & _) _ IH]; constructor.
  - rewrite Ht. apply list_elem_of_here.
  - eapply Forall_impl; [exact IH|]. intros a Ha. by apply list_elem_of_further.
Qed.

Lemma publisher_code_scheduling_pass (D : string -> Prop) (now : spec_float)
    (acts : list entry) :
  schedule_ok client_id pin_config D acts ->
  publisher_code (actuator_topic client_id pin_config)
    (schedule_ok client_id pin_config) D (scheduling_pass now acts).
Proof.
  intros Hok. pose proof (schedule_ok_topics _ _ Hok) as HT.
  destruct Hok as [H2 HD]. by apply publisher_code_pass.
Qed.

Lemma operator_code_handle_command (T : string -> Prop)
    (actuators_manual : list manual) (line : string) :
  Forall (fun act => T (m_topic act)) actuators_manual ->
  operator_code T (handle_command actuators_manual line).
Proof.
  intros HT. unfold handle_command.
  destruct (bool_decide _); [done|].
  destruct (PyStr.split _) as [|p0 [|value [|]]]; try done.
  destruct (PyInt.parse p0) as [e|idx] eqn:Hp.
  - by apply parse_raises_ValueError in Hp as ->.
  - cbn. destruct (_ && _); [|done].
    destruct (actuators_manual !! Z.to_nat idx) as [act|] eqn:Hact; [|done].
    cbn. assert (Ht : T (m_topic act)).
    { rewrite Forall_forall in HT. apply HT. by eapply list_elem_of_lookup_2. }
    split; [done|]. split; [done|]. by intros [rc|[]].
Qed.

Lemma build_manual_actuator_topics :
  Forall (fun act => actuator_topic client_id pin_config (m_topic act))
    (build_manual client_id pin_config).
Proof.
  apply Forall_forall. intros act Hact. unfold actuator_topic.
  rewrite <- build_manual_topics. by apply list_elem_of_fmap_2.
Qed.

Lemma step1_publisher_code {A : Type} (T : string -> Prop)
    (Q : (string -> Prop) -> A -> Prop) (D : string -> Prop)
    (p p' : prog A) (w w' : world) (ev : event) :
  (forall D1 D2 a, (forall t, D1 t -> D2 t) -> Q D1 a -> Q D2 a) ->
  publisher_code T Q D p ->
  step1 pub_reply sub_reply p w = Some (ev, p', w') ->
  event_allowed T (Auto, ev)
  /\ (forall t x, ev = EvGet t x -> D t)
  /\ publisher_code T Q (fun t => D t \/ exists v, ev = EvSet t v) p'.
Proof.
  intros HQ Hp Hstep.
  destruct p as [a|e|t k|t v k|t v k|t k|line k]; cbn in *; try done;
    injection Hstep as <- <- <-; unfold event_allowed; cbn.
  - destruct Hp as (Ht & Hd & Hk). split; [done|]. split; [by intros ?? [= <- _]|].
    eapply publisher_code_mono; [done| |apply Hk]. by left.
  - destruct Hp as (Ht & Hk). split; [done|]. split; [done|].
    eapply publisher_code_mono; [done| |apply Hk].
    intros x [->|Hx]; [right; by eexists|by left].
  - destruct Hp as (Ht & Hx & Hk). split; [done|]. split; [done|].
    destruct (pub_reply _) as [rc|x]; [|by rewrite Hx].
    eapply publisher_code_mono; [done| |apply Hk]. by left.
  - split; [done|]. split; [done|].
    eapply publisher_code_mono; [done| |apply Hp]. by left.
Qed.

Lemma step1_operator_code {A : Type} (T : string -> Prop)
    (p p' : prog A) (w w' : world) (ev : event) :
  operator_code T p ->
  step1 pub_reply sub_reply p w = Some (ev, p', w') ->
  event_allowed T (Main, ev)
  /\ (forall t x, ev <> EvGet t x)
  /\ operator_code T p'.
Proof.
  intros Hp Hstep.
  destruct p as [a|e|t k|t v k|t v k|t k|line k]; cbn in *; try done;
    injection Hstep as <- <- <-; unfold event_allowed; cbn.
  - by destruct Hp.
  - destruct Hp as [Ht Hk]. by repeat split.
  - done.
Qed.

Lemma written_snoc (tr : list (tid * event)) (u : tid) (ev : event) (t : string) :
  written (tr ++ [(u, ev)]) t <-> written tr t \/ exists v, ev = EvSet t v.
Proof.
  unfold written. rewrite writes_of_app, fmap_app, elem_of_app.
  apply or_iff_compat_l.
  destruct ev as [t' x|t' x|t' x|t'|line]; cbn;
    rewrite ?elem_of_nil, ?list_elem_of_singleton.
  2: { split; [intros ->; by eexists|by intros [y [= -> _]]]. }
  all: split; [done|by intros [y Hy]].
Qed.

Lemma reads_written_snoc (tr : list (tid * event)) (u : tid) (ev : event) :
  reads_written tr ->
  (forall t x, ev = EvGet t x -> written tr t) ->
  reads_written (tr ++ [(u, ev)]).
Proof.
  intros Htr Hev pre u' t x post Heq. symmetry in Heq.
  apply snoc_split in Heq as [(_ & -> & [= <- <-]) | (post' & -> & Heq)].
  - by eapply Hev.
  - by eapply Htr.
Qed.

Lemma settle_auto_publisher_code (D : string -> Prop) (p : prog (list entry)) :
  publisher_code (actuator_topic client_id pin_config)
    (schedule_ok client_id pin_config) D p ->
  match settle_auto p with
  | ARunning q =>
      publisher_code (actuator_topic client_id pin_config)
        (schedule_ok client_id pin_config) D q
  | AWaiting acts => schedule_ok client_id pin_config D acts
  | AExited | ADied _ => True
  end.
Proof. by destruct p. Qed.

Lemma thread_inv_settle_main (p : prog loop_ctl) (s : system) :
  operator_code (actuator_topic client_id pin_config) p ->
  Forall (event_allowed (actuator_topic client_id pin_config)) (trace s) ->
  reads_written (trace s) ->
  match auto s with
  | ARunning q =>
      publisher_code (actuator_topic client_id pin_config)
        (schedule_ok client_id pin_config) (written (trace s)) q
  | AWaiting acts => schedule_ok client_id pin_config (written (trace s)) acts
  | AExited | ADied _ => True
  end ->
  thread_inv client_id pin_config (settle_main p s).
Proof.
  intros Hp Htr Hrd Ha. unfold thread_inv.
  destruct (settle_main_fields p s) as (-> & _ & ->).
  rewrite settle_main_main. split; [done|]. split; [done|]. split; [done|].
  by destruct p as [[]| | | | | |].
Qed.

Lemma step_thread_inv (l : label) (s : system) :
  thread_inv client_id pin_config s ->
  thread_inv client_id pin_config (sys_step l s).
Proof.
  intros (Htr & Hrd & Ha & Hm).
  destruct (step_cases l s)
    as [-> | [(now & acts & -> & Ea & ->) | [(p & ev & p' & w' & -> & Ea & Hstep & ->)
       | [(line & -> & Em & ->) | [(p & ev & p' & w' & -> & Em & Hstep & ->)
       | [-> Hsd]]]]]].
  - done.
  - rewrite Ea in Ha. unfold thread_inv. cbn.
    split; [done|]. split; [done|]. split; [|done].
    destruct (stop_event s); [done|].
    by apply settle_auto_publisher_code, publisher_code_scheduling_pass.
  - rewrite Ea in Ha.
    destruct (step1_publisher_code _ _ _ _ _ _ _ _ schedule_ok_mono Ha Hstep)
      as (Hev & Hget & Hp').
    unfold thread_inv. cbn.
    split; [apply Forall_app; split; [done|by constructor]|].
    split; [by apply reads_written_snoc|]. split; [|done].
    apply settle_auto_publisher_code.
    eapply publisher_code_mono; [apply schedule_ok_mono| |exact Hp'].
    intros t Ht. by apply written_snoc.
  - apply thread_inv_settle_main; try done.
    apply operator_code_handle_command, build_manual_actuator_topics.
  - rewrite Em in Hm.
    destruct (step1_operator_code _ _ _ _ _ _ Hm Hstep) as (Hev & Hnoget & Hp').
    apply thread_inv_settle_main; cbn; try done.
    + apply Forall_app; split; [done|by constructor].
    + apply reads_written_snoc; [done|]. intros t x ->. by destruct (Hnoget t x).
    + destruct (auto s) as [q|acts| |x]; try done.
      * eapply publisher_code_mono; [apply schedule_ok_mono| |exact Ha].
        intros t Ht. apply written_snoc. by left.
      * eapply schedule_ok_mono; [|exact Ha].
        intros t Ht. apply written_snoc. by left.
  - destruct (shutdown_step_frame _ _ Hsd) as (Ea & _ & _ & Ht & _ & Hal).
    unfold thread_inv. rewrite Ea.
    assert (Hmain : match main (sys_step MainStep s) with
                    | MRunning p =>
                        operator_code (actuator_topic client_id pin_config) p
                    | _ => True
                    end) by (by destruct (main (sys_step MainStep s))).
    destruct Ht as [-> | [line ->]]; [done|].
    split; [apply Forall_app; split; [done|by constructor]|].
    split; [by apply reads_written_snoc|]. split; [|done].
    destruct (auto s) as [q|acts| |x]; try done.
    + eapply publisher_code_mono; [apply schedule_ok_mono| |exact Ha].
      intros t Ht. apply written_snoc. by left.
    + eapply schedule_ok_mono; [|exact Ha].
      intros t Ht. apply written_snoc. by left.
Qed.

Lemma boot_thread_inv : thread_inv client_id pin_config sys_boot.
Proof.
  unfold thread_inv, boot. cbn.
  split; [constructor|]. split; [by intros [|??] ????|]. split; [|done].
  apply settle_auto_publisher_code, publisher_code_start.
Qed.

Lemma reachable_thread_inv (s : system) :
  sys_reachable s -> thread_inv client_id pin_config s.
Proof.
  intros [ls ->]. generalize boot_thread_inv. generalize sys_boot.
  induction ls as [|l ls IH]; intros s Hs; [done|].
  rewrite exec_cons. by apply IH, step_thread_inv.
Qed.

(** ** What the client is handed *)

Lemma step1_published {A : Type} (u : tid) (p p' : prog A) (w w' : world)
    (ev : event) :
  step1 pub_reply sub_reply p w = Some (ev, p', w') ->
  published w' = (published w ++ publishes_of [(u, ev)])%list.
Proof.
  destruct p; cbn; try done; intros [= <- <- <-]; cbn; by rewrite ?app_nil_r.
Qed.

Lemma step_published (l : label) (s : system) :
  published (shared s) = publishes_of (trace s) ->
  published (shared (sys_step l s)) = publishes_of (trace (sys_step l s)).
Proof.
  intros Hp.
  destruct (step_cases l s)
    as [-> | [(now & acts & -> & Ea & ->) | [(p & ev & p' & w' & -> & Ea & Hstep & ->)
       | [(line & -> & Em & ->) | [(p & ev & p' & w' & -> & Em & Hstep & ->)
       | [-> Hsd]]]]]].
  - done.
  - done.
  - pose proof (step1_published Auto _ _ _ _ _ Hstep) as Hp'. cbn.
    unfold publishes_of in *. by rewrite omap_app, Hp', Hp.
  - by destruct (settle_main_fields
                   (handle_command (build_manual client_id pin_config) line) s)
      as (_ & -> & ->).
  - match goal with
    | |- context [settle_main p' ?s'] =>
        destruct (settle_main_fields p' s') as (_ & -> & ->)
    end.
    pose proof (step1_published Main _ _ _ _ _ Hstep) as Hp'. cbn.
    unfold publishes_of in *. by rewrite omap_app, Hp', Hp.
  - destruct (shutdown_step_frame _ _ Hsd) as (_ & _ & -> & [-> | [line ->]] & _);
      [done|].
    unfold publishes_of in *. rewrite omap_app, Hp. cbn. by rewrite app_nil_r.
Qed.

Lemma reachable_published (s : system) :
  sys_reachable s -> published (shared s) = publishes_of (trace s).
Proof.
  intros [ls ->].
  assert (Hboot : published (shared sys_boot) = publishes_of (trace sys_boot))
    by done.
  revert Hboot. generalize sys_boot.
  induction ls as [|l ls IH]; intros s Hs; [done|].
  rewrite exec_cons. by apply IH, step_published.
Qed.

Lemma written_elem (tr : list (tid * event)) (t : string) :
  written tr t -> exists u v, (u, EvSet t v) ∈ tr.
Proof.
  unfold written, writes_of. intros ([t' v] & -> & Hin)%list_elem_of_fmap.
  apply list_elem_of_omap in Hin as ([u ev] & Hin & Hev). cbn in Hev.
  destruct ev; try done. injection Hev as -> ->. by exists u, v.
Qed.

Lemma apply_writes_cons (a : string * string) (ws : list (string * string))
    (m : gmap string string) :
  apply_writes (a :: ws) m = apply_writes ws (store_set m a.1 a.2).
Proof. reflexivity. Qed.

Lemma apply_writes_is_Some (ws : list (string * string)) (m : gmap string string)
    (t : string) :
  is_Some (apply_writes ws m !! t) <-> is_Some (m !! t) \/ t ∈ ws.*1.
Proof.
  revert m. induction ws as [|[t' v] ws IH]; intros m.
  - cbn. rewrite elem_of_nil. tauto.
  - rewrite apply_writes_cons, IH, fmap_cons, elem_of_cons. cbn.
    unfold store_set. rewrite lookup_insert_is_Some.
    destruct (decide (t' = t)) as [->|Hne]; [tauto|]. split.
    + intros [[Heq|[_ Hm]]|Hin]; [done|by left|by right; right].
    + intros [Hm|[Heq|Hin]]; [left; right; by split|done|by right].
Qed.

(** X16. In every reachable state, the keys of the store and the
    topics of the messages the two threads have handed to the client are
    set-topics of FAN or OUTPUT_DIGITAL pins of the topology.  Every
    action of the trace is a write or a publish on such a topic, a read
    of such a topic by the publisher thread, or a print: the command loop
    never reads the store, and neither thread subscribes. *)
Theorem only_actuator_topics (s : system) :
  sys_reachable s ->
  (forall t, is_Some (actuator_values (shared s) !! t) ->
             actuator_topic client_id pin_config t)
  /\ (forall t v, (t, v) ∈ published (shared s) ->
                  actuator_topic client_id pin_config t)
  /\ Forall (event_allowed (actuator_topic client_id pin_config)) (trace s).
Proof.
  intros Hreach.
  destruct (reachable_thread_inv s Hreach) as (Htr & _).
  pose proof (reachable_published s Hreach) as Hpub.
  destruct (reachable_store_follows_trace pub_reply sub_reply client_id pin_config
              s Hreach) as [Hstore _].
  rewrite Forall_forall in Htr.
  split; [|split].
  - intros t. rewrite Hstore, apply_writes_is_Some, lookup_empty.
    intros [[? [=]]|(u & v & Hin)%written_elem].
    exact (Htr _ Hin).
  - intros t v. rewrite Hpub. unfold publishes_of.
    intros ([u ev] & Hin & Hev)%list_elem_of_omap. cbn in Hev.
    destruct ev; try done. injection Hev as -> ->. exact (Htr _ Hin).
  - by apply Forall_forall.
Qed.

(** X17. The fallback of [actuator_values.get(topic, "0")] is never
    taken: in every reachable state, each read of the trace was made by
    the publisher thread, on a topic whose key was in the store, and
    returned the value the store held for it. *)
Theorem read_finds_its_key (s : system) (pre post : list (tid * event))
    (u : tid) (t x : string) :
  sys_reachable s ->
  trace s = (pre ++ (u, EvGet t x) :: post)%list ->
  u = Auto /\ apply_writes (writes_of pre) ∅ !! t = Some x.
Proof.
  intros Hreach Heq.
  destruct (reachable_thread_inv s Hreach) as (Htr & Hrd & _).
  destruct (reachable_store_follows_trace pub_reply sub_reply client_id pin_config
              s Hreach) as [_ Hreads].
  split.
  - rewrite Heq in Htr. apply Forall_app in Htr as [_ Htr].
    apply Forall_cons in Htr as [[Hu _] _]. exact Hu.
  - pose proof (Hrd _ _ _ _ _ Heq) as Hw.
    pose proof (Hreads _ _ _ _ _ Heq) as Hx.
    assert (Hsome : is_Some (apply_writes (writes_of pre) ∅ !! t))
      by (apply apply_writes_is_Some; by right).
    destruct Hsome as [y Hy]. rewrite Hy. unfold store_get in Hx.
    rewrite Hy in Hx. by rewrite Hx.
Qed.

(** X18. An exception of [client.publish] in the publisher thread ends
    that thread: the message has been handed to the client, the
    exception is not caught, and from then on the publisher performs no
    action, so nothing is republished, while the command loop keeps
    running. *)
Theorem publisher_dies_on_publish_error (s : system) (t v : string) (x : exn) :
  sys_reachable s ->
  (forall e, main s <> MDied e) ->
  pending_publish (auto s) = Some (t, v) ->
  pub_reply (length (published (shared s))) = Raised x ->
  let s1 := sys_step AutoStep s in
  auto s1 = ADied x
  /\ main s1 = main s
  /\ published (shared s1) = (published (shared s) ++ [(t, v)])%list
  /\ forall ls,
       auto (sys_exec ls s1) = ADied x
       /\ exists rest,
            trace (sys_exec ls s1) = (trace s1 ++ rest)%list
            /\ by_thread Main rest.
Proof.
  intros Hreach Halive Hpend Hx. cbn zeta.
  destruct (reachable_thread_inv s Hreach) as (_ & _ & Ha & _).
  assert (Hs1 : auto (sys_step AutoStep s) = ADied x
                /\ main (sys_step AutoStep s) = main s
                /\ published (shared (sys_step AutoStep s))
                   = (published (shared s) ++ [(t, v)])%list).
  { rewrite (step_auto_step _ _ _ _ _ Halive).
    destruct (auto s) as [p|acts| |e]; try done.
    destruct p as [a|e|t' k|t' v' k|t' v' k|t' k|line k]; try done.
    cbn in Hpend. injection Hpend as -> ->.
    destruct Ha as (_ & Hraise & _). cbn. by rewrite Hx, Hraise. }
  destruct Hs1 as (Hauto & Hmain & Hpub). split; [done|]. split; [done|].
  split; [done|]. intros ls.
  destruct (quiet_publisher_exec ls (sys_step AutoStep s)) as [Hsame Hrest].
  { by rewrite Hauto. }
  split; [by rewrite Hsame|done].
Qed.

(** X19. At every loop head of the publisher, in every reachable state,
    the schedule is the one built at the start: one entry per FAN or
    OUTPUT_DIGITAL pin, in topology order, with the pin's set-topic and
    the interval computed from its [pollingInterval]; only [last_sent]
    changes, from 0 to readings of the clock; and the store holds a value
    for the topic of every entry. *)
Theorem schedule_is_fixed (s : system) (acts : list entry) :
  sys_reachable s ->
  auto s = AWaiting acts ->
  Forall2 (fun p e =>
             topic e = set_topic client_id p
             /\ interval_sec_of (default 30000 (pollingInterval p))
                = inr (interval e)
             /\ (last_sent e = PyInt 0 \/ exists f, last_sent e = PyFloat f))
    (actuator_pins pin_config) acts
  /\ Forall (fun e => is_Some (actuator_values (shared s) !! topic e)) acts.
Proof.
  intros Hreach Hauto.
  destruct (reachable_thread_inv s Hreach) as (_ & _ & Ha & _).
  destruct (reachable_store_follows_trace pub_reply sub_reply client_id pin_config
              s Hreach) as [Hstore _].
  rewrite Hauto in Ha. destruct Ha as [H2 Hd]. split; [exact H2|].
  eapply Forall_impl; [exact Hd|]. intros e He.
  rewrite Hstore. apply apply_writes_is_Some. by right.
Qed.

(** ** A manual command and the next pass *)





End Schedules.

(** ** The index of the menu *)

(** X20. The index a menu line shows, typed back with a value, selects
    the element of that line: for the [i]-th element of
    [actuators_manual], whose menu line shows [str(i)], the command made
    of [str(i)], a space and an ASCII value without whitespace is split into
    these two words, [int] gives [i] back, and the command loop writes
    the value to the topic of that element and hands it to the client. *)
Theorem typed_index_selects (actuators_manual : list manual) (i : nat)
    (act : manual) (value : string) (w : world) :
  actuators_manual !! i = Some act ->
  PyStr.is_ascii value = true ->
  is_word value ->
  (String.length (PyStr.of_int (Z.of_nat i)) <= PyInt.max_str_digits)%nat ->
  let line := PyStr.of_int (Z.of_nat i) +:+ " " +:+ value in
  let w' := (run (handle_command actuators_manual line) w).2 in
  menu_lines actuators_manual !! i = Some (menu_line i act)
  /\ command_parts line = [PyStr.of_int (Z.of_nat i); value]
  /\ PyInt.parse (PyStr.of_int (Z.of_nat i)) = inr (Z.of_nat i)
  /\ actuator_values w' = store_set (actuator_values w) (m_topic act) value
  /\ published w' = (published w ++ [(m_topic act, value)])%list.
Proof.
  intros Hact _ Hval Hlen line w'.
  destruct (command_parts_two _ _ (of_int_word i) Hval) as [Hstrip Hparts].
  pose proof (parse_of_int _ Hlen) as Hparse.
  split; [|split; [exact Hparts|split; [exact Hparse|]]].
  - unfold menu_lines. by rewrite list_lookup_imap, Hact.
  - assert (Hq : PyStr.lower (PyStr.strip line) <> "q").
    { unfold line. rewrite Hstrip. intros Heq.
      apply (f_equal String.length) in Heq.
      rewrite lower_length, !app_length in Heq.
      destruct Hval as [Hne _]. destruct value; [done|]. cbn in Heq. lia. }
    assert (Hr : (0 <=? Z.of_nat i) && (Z.of_nat i <? Z.of_nat (length actuators_manual))
                 = true).
    { apply andb_true_iff. split; [apply Z.leb_le; lia|apply Z.ltb_lt].
      apply lookup_lt_Some in Hact. lia. }
    unfold w', line in *.
    rewrite run_handle_command, bool_decide_eq_false_2 by done.
    rewrite Hparts, Hparse, Hr, Nat2Z.id, Hact.
    cbn zeta. by destruct (pub_reply _) as [rc|[]].
Qed.

End Coverage.

(** ** The properties above on the scenario *)

Lemma prefix_is_lower_case_witness :
  PyStr.has_upper (get_topic_prefix "Valve_2") = false.
Proof. exact (proj2 (prefix_is_lower_case "Valve_2" eq_refl)). Defined.

Lemma schedule_interval_at_least_one_witness :
  exists acts w',
    run always_ok always_ok (build_actuators "dev1" [relay1; fan1] []) world0
    = (inr acts, w')
    /\ Forall (fun e => py_ge (interval e) (PyInt 1) = true) acts.
Proof.
  eassert (run always_ok always_ok (build_actuators "dev1" [relay1; fan1] []) world0
           = (inr _, _)) as Hrun by (vm_compute; reflexivity).
  eexists _, _. split; [exact Hrun|].
  exact (schedule_interval_at_least_one always_ok always_ok _ _ _ _ _ Hrun).
Defined.

Lemma manual_list_matches_schedule_witness :
  exists acts w',
    run always_ok always_ok
      (build_actuators "dev1" [relay1; room_sensor; fan1] []) world0
    = (inr acts, w')
    /\ m_topic <$> build_manual "dev1" [relay1; room_sensor; fan1] = topic <$> acts.
Proof.
  eassert (run always_ok always_ok
             (build_actuators "dev1" [relay1; room_sensor; fan1] []) world0
           = (inr _, _)) as Hrun by (vm_compute; reflexivity).
  eexists _, _. split; [exact Hrun|].
  exact (proj1 (proj2 (proj2
    (manual_list_matches_schedule always_ok always_ok _ _ _ _ _ Hrun)))).
Defined.

Lemma pass_publishes_the_due_witness :
  run always_ok always_ok (scheduling_pass clock0 [relay1_entry]) world0
  = (inr (stamp clock0 <$> [relay1_entry]),
     add_published world0
       (message_of (actuator_values world0)
          <$> List.filter (is_due clock0) [relay1_entry])).
Proof.
  refine (proj1 (pass_publishes_the_due always_ok always_ok clock0 [relay1_entry]
                   world0 _ _)).
  - constructor; [by left|constructor].
  - intros k _. by exists 0.
Defined.

Lemma pass_twice_same_instant_witness :
  exists acts' w',
    run always_ok always_ok (scheduling_pass clock0 [relay1_entry]) world0
    = (inr acts', w')
    /\ run always_ok always_ok (scheduling_pass clock0 acts') w' = (inr acts', w').
Proof.
  eassert (run always_ok always_ok (scheduling_pass clock0 [relay1_entry]) world0
           = (inr _, _)) as Hrun by (vm_compute; reflexivity).
  eexists _, _. split; [exact Hrun|].
  refine (pass_twice_same_instant always_ok always_ok clock0 [relay1_entry] _ _ _
            _ Hrun).
  constructor; [reflexivity|constructor].
Defined.

Lemma pass_stops_at_failed_publish_witness :
  run always_fails always_ok (scheduling_pass clock0 [relay1_entry; relay1_entry])
    world0
  = (inl OtherError,
     add_published world0 [message_of (actuator_values world0) relay1_entry]).
Proof.
  refine (pass_stops_at_failed_publish always_fails always_ok clock0 [] []
            [relay1_entry] relay1_entry OtherError world0 world0 _ _ _).
  - reflexivity.
  - vm_compute. reflexivity.
  - reflexivity.
Defined.

Lemma manual_publish_raises_witness :
  run always_value_error always_ok
    (handle_command (build_manual "dev1" [relay1]) "0 1") world0
  = (inr Continue,
     add_console
       (add_published
          (with_store world0 (store_set (actuator_values world0) relay1_topic "1"))
          [(relay1_topic, "1")])
       [msg_usage]).
Proof.
  refine (proj1
    (manual_publish_raises always_value_error always_ok
       (build_manual "dev1" [relay1]) "0 1" "0" "1" 0
       {| m_name := "relay1"; m_topic := relay1_topic; m_range := "0-1" |}
       world0 ValueError eq_refl _ eq_refl eq_refl _ eq_refl eq_refl)).
  - vm_compute. discriminate.
  - vm_compute. split; [discriminate|reflexivity].
Defined.

Lemma schedule_build_failure_witness :
  let w' := (run always_ok always_ok
               (build_actuators "dev1" [relay1; fan3; fan2; fan1] []) world0).2 in
  run always_ok always_ok (build_actuators "dev1" [relay1; fan3; fan2; fan1] [])
    world0
  = (inl OverflowError, w')
  /\ published w' = published world0.
Proof.
  intros w'.
  assert (run always_ok always_ok
            (build_actuators "dev1" [relay1; fan3; fan2; fan1] []) world0
          = (inl OverflowError, w')) as Hrun by (vm_compute; reflexivity).
  split; [exact Hrun|].
  destruct (schedule_build_failure always_ok always_ok "dev1"
              [relay1; fan3; fan2; fan1] world0 w' OverflowError Hrun)
    as (_ & pre & p & post & z & _ & _ & _ & _ & _ & _ & _ & Hpub).
  exact Hpub.
Defined.

Lemma on_connect_effects_witness :
  run always_ok always_ok (on_connect "dev1" [relay1; room_sensor; fan1] 5) world0
  = (inr tt, add_console world0 [msg_failed 5]).
Proof.
  refine (proj1 (proj2 (proj2
    (on_connect_effects always_ok always_ok "dev1" [relay1; room_sensor; fan1] 5
       world0))) _).
  discriminate.
Defined.

Lemma quit_shuts_down_witness :
  main (exec always_ok always_ok "dev1" [relay1] shutdown_schedule
          (step always_ok always_ok "dev1" [relay1] (MainInput " Q ")
             (exec always_ok always_ok "dev1" [relay1] start_schedule
                (boot "dev1" [relay1]))))
  = MExited
  /\ stop_event
       (exec always_ok always_ok "dev1" [relay1] shutdown_schedule
          (step always_ok always_ok "dev1" [relay1] (MainInput " Q ")
             (exec always_ok always_ok "dev1" [relay1] start_schedule
                (boot "dev1" [relay1]))))
     = true
  /\ gone
       (auto
          (exec always_ok always_ok "dev1" [relay1] shutdown_schedule
             (step always_ok always_ok "dev1" [relay1] (MainInput " Q ")
                (exec always_ok always_ok "dev1" [relay1] start_schedule
                   (boot "dev1" [relay1])))))
  /\ main_events
       (drop
          (length
             (trace (exec always_ok always_ok "dev1" [relay1] start_schedule
                       (boot "dev1" [relay1]))))
          (trace
             (exec always_ok always_ok "dev1" [relay1] shutdown_schedule
                (step always_ok always_ok "dev1" [relay1] (MainInput " Q ")
                   (exec always_ok always_ok "dev1" [relay1] start_schedule
                      (boot "dev1" [relay1]))))))
     = [EvPrint msg_stopping; EvPrint msg_disconnected].
Proof.
  assert (main (exec always_ok always_ok "dev1" [relay1] shutdown_schedule
                  (step always_ok always_ok "dev1" [relay1] (MainInput " Q ")
                     (exec always_ok always_ok "dev1" [relay1] start_schedule
                        (boot "dev1" [relay1]))))
          = MExited) as Hm by (vm_compute; reflexivity).
  pose proof (quit_shuts_down always_ok always_ok "dev1" [relay1] " Q "
                shutdown_schedule
                (exec always_ok always_ok "dev1" [relay1] start_schedule
                   (boot "dev1" [relay1]))
                eq_refl eq_refl eq_refl) as H.
  cbv zeta in H.
  destruct H as (_ & _ & (rest & Htr & Hev) & Hstop & Hjoin & _).
  rewrite Hm in Hev, Hstop, Hjoin.
  split; [exact Hm|]. split; [exact Hstop|]. split; [exact (Hjoin eq_refl)|].
  rewrite Htr, drop_app_length. exact Hev.
Defined.

Lemma publish_follows_read_witness :
  exists pre1 mid,
    take 3 (trace (exec always_ok always_ok "dev1" [relay1] pass_schedule
                     (boot "dev1" [relay1])))
    = (pre1 ++ (Auto, EvGet relay1_topic "0") :: mid)%list
    /\ (forall ev, (Auto, ev) ∉ mid)
    /\ "0" = store_get (apply_writes (writes_of pre1) ∅) relay1_topic.
Proof.
  refine (publish_follows_read always_ok always_ok "dev1" [relay1]
            (exec always_ok always_ok "dev1" [relay1] pass_schedule
               (boot "dev1" [relay1]))
            _ [] relay1_topic "0" _ _).
  - by exists pass_schedule.
  - vm_compute. reflexivity.
Defined.

Lemma only_actuator_topics_witness :
  Forall (event_allowed (actuator_topic "dev1" [relay1]))
    (trace (exec always_ok always_ok "dev1" [relay1] race_schedule
              (boot "dev1" [relay1]))).
Proof.
  refine (proj2 (proj2
    (only_actuator_topics always_ok always_ok "dev1" [relay1]
       (exec always_ok always_ok "dev1" [relay1] race_schedule
          (boot "dev1" [relay1])) _))).
  by exists race_schedule.
Defined.

Lemma read_finds_its_key_witness :
  Auto = Auto
  /\ apply_writes
       (writes_of
          (take 2 (trace (exec always_ok always_ok "dev1" [relay1] pass_schedule
                            (boot "dev1" [relay1])))))
       ∅ !! relay1_topic
     = Some "0".
Proof.
  refine (read_finds_its_key always_ok always_ok "dev1" [relay1]
            (exec always_ok always_ok "dev1" [relay1] pass_schedule
               (boot "dev1" [relay1]))
            _ [(Auto, EvPublish relay1_topic "0")] Auto relay1_topic "0" _ _).
  - by exists pass_schedule.
  - vm_compute. reflexivity.
Defined.

Lemma publisher_dies_on_publish_error_witness :
  auto (step always_fails always_ok "dev1" [relay1] AutoStep
          (exec always_fails always_ok "dev1" [relay1] read_schedule
             (boot "dev1" [relay1])))
  = ADied OtherError.
Proof.
  refine (proj1
    (publisher_dies_on_publish_error always_fails always_ok "dev1" [relay1]
       (exec always_fails always_ok "dev1" [relay1] read_schedule
          (boot "dev1" [relay1]))
       relay1_topic "0" OtherError _ _ _ _)).
  - by exists read_schedule.
  - intros e. vm_compute. discriminate.
  - vm_compute. reflexivity.
  - reflexivity.
Defined.

Lemma schedule_is_fixed_witness :
  exists acts,
    auto (exec always_ok always_ok "dev1" [relay1] start_schedule
            (boot "dev1" [relay1]))
    = AWaiting acts
    /\ Forall (fun e =>
                 is_Some
                   (actuator_values
                      (shared (exec always_ok always_ok "dev1" [relay1]
                                 start_schedule (boot "dev1" [relay1])))
                      !! topic e))
         acts.
Proof.
  eassert (auto (exec always_ok always_ok "dev1" [relay1] start_schedule
                   (boot "dev1" [relay1])) = AWaiting _) as Hauto
    by (vm_compute; reflexivity).
  eexists. split; [exact Hauto|].
  refine (proj2 (schedule_is_fixed always_ok always_ok "dev1" [relay1] _ _ _ Hauto)).
  by exists start_schedule.
Defined.

Lemma typed_index_selects_witness :
  actuator_values
    (run always_ok always_ok
       (handle_command (build_manual "dev1" [relay1; fan1]) "1 3") world0).2
  = store_set (actuator_values world0) "/dev1/fan/fan1/set" "3".
Proof.
  refine (proj1 (proj2 (proj2 (proj2
    (typed_index_selects always_ok always_ok (build_manual "dev1" [relay1; fan1]) 1
       {| m_name := "fan1"; m_topic := "/dev1/fan/fan1/set"; m_range := "0-4" |}
       "3" world0 eq_refl eq_refl _ _))))).
  - split; [discriminate|reflexivity].
  - apply Nat.leb_le. vm_compute. reflexivity.
Defined.


